(** * Verification of the object-storage sync clients

    Shallow embedding of [common/aws_s3_download.py] (class [S3Download]) and
    [common/google_download.py] (class [GoogleStorageDownload]).

    Python [str] values are Rocq [string]s, the methods of [str] the two
    classes use are written out in [PyStr], the functions of [os.path] in
    [OsPath], the local file system is a finite map from paths to contents,
    and the methods of the two classes are programs of a state-and-exception
    monad over the client object, the file system and the trace of the calls
    made to the storage service and to the logger. *)

From Stdlib Require Import Ascii String.
From stdpp Require Import base option list gmap strings.

#[local] Open Scope string_scope.

(** ** The methods of [str] *)

Module PyStr.

(** [s.startswith(p)] *)
Definition startswith (s p : string) : bool := String.prefix p s.

(** [s.endswith(p)] *)
Definition endswith (s p : string) : bool :=
  String.prefix (String.rev p) (String.rev s).

(** [s[n:]] for [0 <= n] *)
Fixpoint drop (n : nat) (s : string) : string :=
  match n, s with
  | O, _ => s
  | S _, EmptyString => EmptyString
  | S k, String _ s' => drop k s'
  end.

(** The scan of [s.replace(old, new)] for a non-empty [old]: left to right,
    occurrences do not overlap. [skip] counts the characters of the
    occurrence found last that are still to be passed over. *)
Fixpoint replace_scan (old new : string) (skip : nat) (s : string) : string :=
  match s with
  | EmptyString => EmptyString
  | String c s' =>
      match skip with
      | S k => replace_scan old new k s'
      | O =>
          if String.prefix old s
          then new ++ replace_scan old new (String.length old - 1) s'
          else String c (replace_scan old new 0 s')
      end
  end.

(** [s.replace('', new)]: [new] goes before every character and at the end. *)
Fixpoint intersperse (new s : string) : string :=
  match s with
  | EmptyString => new
  | String c s' => new ++ String c (intersperse new s')
  end.

(** [s.replace(old, new)] *)
Definition replace (s old new : string) : string :=
  match old with
  | EmptyString => intersperse new s
  | String _ _ => replace_scan old new 0 s
  end.

(** [s.split(sep)] for a separator of one character; the result is never
    empty. *)
Fixpoint split (sep : ascii) (s : string) : list string :=
  match s with
  | EmptyString => [EmptyString]
  | String c s' =>
      if Ascii.eqb c sep then EmptyString :: split sep s'
      else match split sep s' with
           | h :: t => String c h :: t
           | [] => [String c EmptyString]
           end
  end.

(** [l[0]] and [l[-1]] on the result of a [split] *)
Definition first (l : list string) : string := hd EmptyString l.
Definition last (l : list string) : string := List.last l EmptyString.

(** [sep.join(l)] *)
Definition join (sep : string) (l : list string) : string := String.concat sep l.

(** [s.rstrip('/')] *)
Fixpoint rstrip (c : ascii) (s : string) : string :=
  match s with
  | EmptyString => EmptyString
  | String d s' =>
      match rstrip c s' with
      | EmptyString => if Ascii.eqb d c then EmptyString else String d EmptyString
      | r => String d r
      end
  end.

(** [c in s] for a character *)
Fixpoint has_char (c : ascii) (s : string) : bool :=
  match s with
  | EmptyString => false
  | String d s' => Ascii.eqb d c || has_char c s'
  end.

End PyStr.

(** ** The functions of [os.path] and the platform

    [os.path] is an interface with one implementation per platform; the
    clients only use [join], [dirname], [normpath] and [expanduser]. The
    platform also decides what [os.rename] does with a destination that is
    a file already: it replaces the file on a POSIX host and raises on
    Windows. The instance below is CPython's [posixpath] on a POSIX host. *)

Class OsPath := {
  path_join : string → string → string;
  path_dirname : string → string;
  path_normpath : string → string;
  path_expanduser : string → string;
  rename_replaces : bool
}.

Module PosixPath.
Import PyStr.

(** [posixpath.join(a, b)] *)
Definition join (a b : string) : string :=
  if startswith b "/" then b
  else if (String.eqb a "" || endswith a "/")%bool then a ++ b
  else a ++ "/" ++ b.

(** [p[:p.rfind('/') + 1]] *)
Fixpoint head_part (p : string) : string :=
  match p with
  | EmptyString => EmptyString
  | String c p' => if has_char "/" p then String c (head_part p') else EmptyString
  end.

(** [s == '/' * len(s)] *)
Fixpoint all_sep (s : string) : bool :=
  match s with
  | EmptyString => true
  | String c s' => Ascii.eqb c "/" && all_sep s'
  end.

(** [posixpath.dirname(p)] *)
Definition dirname (p : string) : string :=
  let head := head_part p in
  if (negb (String.eqb head "") && negb (all_sep head))%bool
  then rstrip "/" head else head.

(** One round of the loop of [normpath] over the components. *)
Definition norm_step (initial_slashes : nat) (new_comps : list string)
    (comp : string) : list string :=
  if (String.eqb comp "" || String.eqb comp ".")%bool then new_comps
  else if (negb (String.eqb comp "..")
           || (Nat.eqb initial_slashes 0 && Nat.eqb (length new_comps) 0)
           || (negb (Nat.eqb (length new_comps) 0)
               && String.eqb (List.last new_comps "") ".."))%bool
  then new_comps ++ [comp]
  else removelast new_comps.

Definition initial_slashes (path : string) : nat :=
  if startswith path "/" then
    if (startswith path "//" && negb (startswith path "///"))%bool then 2 else 1
  else 0.

Definition slashes (n : nat) : string :=
  match n with 0 => "" | 1 => "/" | _ => "//" end.

(** The end of [normpath]: the components joined behind the initial
    slashes, ['.'] when that is empty. *)
Definition norm_render (n : nat) (comps : list string) : string :=
  let path := slashes n ++ PyStr.join "/" comps in
  if String.eqb path "" then "." else path.

(** [posixpath.normpath(path)] *)
Definition normpath (path : string) : string :=
  if String.eqb path "" then "."
  else
    let n := initial_slashes path in
    norm_render n (fold_left (norm_step n) (split "/" path) []).

(** [path[1:i]] and [path[i:]] for [i] the place of the first ['/'], or the
    length of [path] when there is none *)
Fixpoint upto_sep (s : string) : string :=
  match s with
  | EmptyString => EmptyString
  | String c s' => if Ascii.eqb c "/" then EmptyString else String c (upto_sep s')
  end.
Fixpoint from_sep (s : string) : string :=
  match s with
  | EmptyString => EmptyString
  | String c s' => if Ascii.eqb c "/" then s else from_sep s'
  end.

(** [posixpath.expanduser(path)]; [home_of] gives the home directory of a
    user, of the current user at the empty name. *)
Definition expanduser (home_of : string → option string) (path : string) : string :=
  match path with
  | String "~" rest =>
      match home_of (upto_sep rest) with
      | None => path
      | Some userhome =>
          let r := rstrip "/" userhome ++ from_sep rest in
          if String.eqb r "" then "/" else r
      end
  | _ => path
  end.

Definition ops (home_of : string → option string) : OsPath := {|
  path_join := join;
  path_dirname := dirname;
  path_normpath := normpath;
  path_expanduser := expanduser home_of;
  rename_replaces := true
|}.

End PosixPath.

(** ** Values, exceptions and the world the clients run in *)

(** The Python values the entry points can be handed. *)
Inductive pyval :=
| PNone
| PStr (s : string)
| PInt (z : Z)
| PBool (b : bool).

(** [type(v) is str] *)
Definition is_str (v : pyval) : bool :=
  match v with PStr _ => true | _ => false end.

(** [v is None] *)
Definition is_none (v : pyval) : bool :=
  match v with PNone => true | _ => false end.

(** [bool(v)], the test of [if v:] *)
Definition truthy (v : pyval) : bool :=
  match v with
  | PNone => false
  | PStr s => negb (String.eqb s "")
  | PInt z => negb (Z.eqb z 0)
  | PBool b => b
  end.

Inductive exn :=
| AttributeError
| TypeError
| IOError
| OSError
| NotFound
| ClientError (code : string)
| ReError
| OtherError.

Inductive result (A : Type) :=
| Ok (a : A)
| Raise (e : exn).
Arguments Ok {A} a.
Arguments Raise {A} e.

Inductive level := INFO | ERROR.

(** One entry of a listing: a key of [bucket.objects.filter], a blob of
    [bucket.list_blobs]. *)
Record object_info := {
  o_bucket : string;
  o_name : string;
  o_size : Z
}.

(** What the storage service answers. Building a bucket handle and listing
    either succeed or raise; a fetch either delivers the whole object or
    raises, after having written nothing or some of the bytes. *)
Inductive fetched :=
| Fetched (data : string)
| FetchFailed (written : option string) (e : exn).

Record service := {
  svc_bucket : string → option exn;
  svc_list : string → string → result (list object_info);
  svc_fetch : string → string → fetched
}.

(** The calls that leave the process, in the order they are made. *)
Inductive event :=
| ELog (lvl : level) (msg : string)
| EList (bucket prefix : string)
| EFetch (bucket key path : string)
| EMakeDirs (dir : string).

(** The local file system: a finite map from normalised paths to files and
    directories. *)
Inductive node :=
| File (data : string)
| Dir.

(** The bucket handle a client caches; [h_id] tells two handle objects
    apart. *)
Record handle := {
  h_name : string;
  h_id : nat
}.

(** The client object ([conn] and [_bucket] of [S3Download], [client] and
    [bucket] of [GoogleStorageDownload]) and the world around it. *)
Record state := {
  conn : bool;
  bucket : option handle;
  next_id : nat;
  fs : gmap string node;
  events : list event
}.

Definition set_bucket (b : option handle) (st : state) : state :=
  {| conn := conn st; bucket := b; next_id := next_id st; fs := fs st;
     events := events st |}.
Definition set_next_id (n : nat) (st : state) : state :=
  {| conn := conn st; bucket := bucket st; next_id := n; fs := fs st;
     events := events st |}.
Definition set_fs (m : gmap string node) (st : state) : state :=
  {| conn := conn st; bucket := bucket st; next_id := next_id st; fs := m;
     events := events st |}.
Definition add_event (e : event) (st : state) : state :=
  {| conn := conn st; bucket := bucket st; next_id := next_id st; fs := fs st;
     events := events st ++ [e] |}.

(** ** The monad of the methods: state and exceptions *)

Definition M (A : Type) : Type := state → state * result A.

#[global] Instance M_ret : MRet M := λ A a st, (st, Ok a).
#[global] Instance M_bind : MBind M := λ A B f m st,
  match m st with
  | (st', Ok a) => f a st'
  | (st', Raise e) => (st', Raise e)
  end.

Definition raise {A} (e : exn) : M A := λ st, (st, Raise e).
Definition get : M state := λ st, (st, Ok st).
Definition modify (f : state → state) : M unit := λ st, (f st, Ok tt).

(** [try: m  except Exception as e: h e]; a handler re-raises what its
    [except] clauses do not name. *)
Definition try_except {A} (m : M A) (h : exn → M A) : M A := λ st,
  match m st with
  | (st', Ok a) => (st', Ok a)
  | (st', Raise e) => h e st'
  end.

Definition log (lvl : level) (msg : string) : M unit :=
  modify (add_event (ELog lvl msg)).

(** A method of [str] called on a value: [AttributeError] on anything else,
    as for [None.startswith]. *)
Definition as_str (v : pyval) : M string :=
  match v with
  | PStr s => mret s
  | _ => raise AttributeError
  end.

(** A value passed where the callee needs a [str] ([TypeError] otherwise). *)
Definition arg_str (v : pyval) : M string :=
  match v with
  | PStr s => mret s
  | _ => raise TypeError
  end.

(** [for x in l: f x], and [pool.map(f, l)] of a pool of one worker: the
    items in order, the first exception ends the run. *)
Fixpoint for_each {A} (f : A → M unit) (l : list A) : M unit :=
  match l with
  | [] => mret tt
  | x :: l' => f x ;; for_each f l'
  end.

(** [re.compile(pattern)]: [None] when the pattern is not a regular
    expression ([re.error]), otherwise the [search] of the compiled pattern,
    true when it finds a match somewhere in the string. *)
Class Regex := re_compile : string → option (string → bool).

(** ** The operating system

    The disk is a finite map: a path is absent, a file or a directory, and
    the calls of [os] are functions of that map. [os.remove] raises when
    its path is not a file. [os.rename] raises when its source is not a
    file (the clients rename only the file a fetch has just written), when
    its destination is a directory, and, where the platform does not
    replace, when its destination is a file. The failures of the network
    and of the writes of a fetch are the answers of the [service]. *)

Section os.
Context {P : OsPath}.

(** Two paths name the same file when they normalise to the same string. *)
Definition key (p : string) : string := path_normpath p.

(** [os.path.exists(p)] *)
Definition path_exists (p : string) : M bool :=
  st ← get; mret (bool_decide (is_Some (fs st !! key p))).

(** What [open(p, 'wb').write(data)] leaves behind. *)
Definition write_file (p data : string) : M unit :=
  modify (λ st, set_fs (<[key p := File data]> (fs st)) st).

(** Whether [os.rename] puts a file at [dst] on the disk [m]: not on a
    directory, and on a file only where the platform replaces it. *)
Definition takes_rename (m : gmap string node) (dst : string) : bool :=
  match m !! key dst with
  | None => true
  | Some (File _) => rename_replaces
  | Some Dir => false
  end.

(** [os.rename(src, dst)]; renaming a file to its own path does nothing. *)
Definition os_rename (src dst : string) : M unit :=
  st ← get;
  match fs st !! key src with
  | Some (File data) =>
      if String.eqb (key src) (key dst) then mret tt
      else if takes_rename (fs st) dst
      then modify (set_fs (<[key dst := File data]> (delete (key src) (fs st))))
      else raise OSError
  | _ => raise OSError
  end.

(** [os.remove(p)] *)
Definition os_remove (p : string) : M unit :=
  st ← get;
  match fs st !! key p with
  | Some (File _) => modify (set_fs (delete (key p) (fs st)))
  | _ => raise OSError
  end.

(** The directories above a normalised path, nearest first. *)
Fixpoint ancestors (fuel : nat) (p : string) : list string :=
  match fuel with
  | O => []
  | S n =>
      let d := path_dirname p in
      if (String.eqb d "" || String.eqb d p)%bool then []
      else d :: ancestors n d
  end.

(** [p] is a file of the disk [m]. *)
Definition is_file (m : gmap string node) (p : string) : bool :=
  match m !! p with Some (File _) => true | _ => false end.

(** [os.makedirs(d)]: the directory and the missing ones above it; an
    error when [d] is there already or a file is in the way. *)
Definition os_makedirs (d : string) : M unit :=
  st ← get;
  modify (add_event (EMakeDirs d));;
  let above := ancestors (String.length (key d)) (key d) in
  if bool_decide (is_Some (fs st !! key d)) then raise OSError
  else if existsb (is_file (fs st)) above then raise OSError
  else
    modify (λ st,
      set_fs (foldr (λ p m, <[p := Dir]> m) (fs st) (key d :: above)) st).

End os.

(** [re.compile(pattern)] as the methods call it *)
Definition compile {R : Regex} (pattern : pyval) : M (string → bool) :=
  p ← arg_str pattern;
  match re_compile p with
  | Some search => mret search
  | None => raise ReError
  end.

(** ** [S3Download] *)

Record s3_location := {
  bucket_name : string;
  object_name : string
}.

Module S3Download.
Import PyStr.

(** [NUM_PROC]: the pool of [recursive_download] has one worker. *)
Definition NUM_PROC : nat := 1.

(** [_s3_path_parser]: a value that is not a [str] is logged, and the
    method goes on to call [startswith] on it. *)
Definition _s3_path_parser (s3_path : pyval) : M s3_location :=
  (if negb (is_str s3_path)
   then log ERROR "The type of the input S3 location is invalid!"
   else mret tt);;
  s ← as_str s3_path;
  let s := if startswith s "s3://" then replace s "s3://" "" else s in
  let bucket_name := first (split "/" s) in
  let tail := replace s (bucket_name ++ "/") "" in
  mret {| bucket_name := bucket_name; object_name := tail |}.

Section methods.
Context (S : service) {P : OsPath} {R : Regex} (is_windows : bool).

(** [self.conn.Bucket(bucket_name)] *)
Definition conn_Bucket (bucket_name : string) : M handle :=
  st ← get;
  if negb (conn st) then raise AttributeError
  else match svc_bucket S bucket_name with
       | Some e => raise e
       | None =>
           modify (set_next_id (Datatypes.S (next_id st)));;
           mret {| h_name := bucket_name; h_id := next_id st |}
       end.

Definition _get_bucket (bucket_name : string) : M unit :=
  st ← get;
  if match bucket st with
     | None => true
     | Some b => negb (String.eqb (h_name b) bucket_name)
     end
  then
    try_except
      (b ← conn_Bucket bucket_name; modify (set_bucket (Some b)))
      (λ _, log ERROR "Could not connect to the S3 bucket!")
  else mret tt.

(** [self._bucket.download_file(src_key, dst_path)]: the bytes go to
    [dst_path] itself. *)
Definition bucket_download_file (src_key dst_path : string) : M unit :=
  st ← get;
  match bucket st with
  | None => raise AttributeError
  | Some b =>
      modify (add_event (EFetch (h_name b) src_key dst_path));;
      match svc_fetch S (h_name b) src_key with
      | Fetched data => write_file dst_path data
      | FetchFailed written e =>
          match written with
          | Some data => write_file dst_path data
          | None => mret tt
          end;;
          raise e
      end
  end.

Definition _download (inp : string * string * bool) : M unit :=
  let '(src_key, dst_path, overwrite) := inp in
  there ← path_exists dst_path;
  if (negb overwrite && there)%bool
  then log INFO "already EXISTS - skipped"
  else
    try_except (bucket_download_file src_key dst_path)
      (λ e, match e with
            | IOError => log ERROR "Failed to download to the destination!"
            | ClientError code =>
                if String.eqb code "404"
                then log ERROR "The source object does NOT exist!"
                else log ERROR "Failed to download!"
            | _ => log ERROR "Failed to download!"
            end).

(** [_list_objects]: [None] when the listing raises. *)
Definition _list_objects (object_prefix : string) : M (option (list object_info)) :=
  try_except
    (st ← get;
     match bucket st with
     | None => raise AttributeError
     | Some b =>
         modify (add_event (EList (h_name b) object_prefix));;
         match svc_list S (h_name b) object_prefix with
         | Ok keys => mret (Some keys)
         | Raise e => raise e
         end
     end)
    (λ _, log ERROR "Failed to list the objects";; mret None).

Definition _filter_object_names (keys : list object_info)
    (include_re_pattern exclude_re_pattern : pyval) : M (list object_info) :=
  keys ← (if truthy include_re_pattern then
            search ← compile include_re_pattern;
            mret (List.filter (λ k, search (o_name k)) keys)
          else mret keys);
  keys ← (if truthy exclude_re_pattern then
            search ← compile exclude_re_pattern;
            mret (List.filter (λ k, negb (search (o_name k))) keys)
          else mret keys);
  mret keys.

Definition list (s3_path include_re_pattern exclude_re_pattern : pyval)
    : M (option (list object_info)) :=
  if (negb (is_str s3_path)
      || (negb (is_none include_re_pattern) && negb (is_str include_re_pattern))
      || (negb (is_none exclude_re_pattern) && negb (is_str exclude_re_pattern)))%bool
  then log ERROR "Invalid input types (must be str)!";; mret None
  else
    st ← get;
    if negb (conn st) then mret None
    else
      loc ← _s3_path_parser s3_path;
      _get_bucket (bucket_name loc);;
      st ← get;
      match bucket st with
      | None => mret None
      | Some _ =>
          keys ← _list_objects (object_name loc);
          match keys with
          | None => mret None
          | Some keys =>
              if (truthy include_re_pattern || truthy exclude_re_pattern)%bool
              then
                keys ← _filter_object_names keys include_re_pattern exclude_re_pattern;
                mret (Some keys)
              else mret (Some keys)
          end
      end.

Definition _standardize_dir_path (dir_path : pyval) : M string :=
  d ← as_str dir_path;
  mret (if is_windows
        then (if endswith d "\" then d else d ++ "\")
        else (if endswith d "/" then d else d ++ "/")).

(** [_make_local_path]: [None] when the directories cannot be made. *)
Definition _make_local_path (object_name : string)
    (prefix_to_replace base_dst_dir : pyval) : M (option string) :=
  let filename := last (split "/" object_name) in
  prefix ← arg_str prefix_to_replace;
  let dst_path_tail := replace object_name prefix "" in
  let dst_path_tail :=
    if is_windows then
      let dst_path_tail := replace dst_path_tail "/" "\" in
      if startswith dst_path_tail "\" then drop 2 object_name else dst_path_tail
    else if startswith dst_path_tail "/" then drop 1 dst_path_tail
    else dst_path_tail in
  base_dst_dir ← _standardize_dir_path base_dst_dir;
  let base_dst_dir := path_expanduser (path_normpath base_dst_dir) in
  let dst_dir := path_join base_dst_dir (path_dirname dst_path_tail) in
  there ← path_exists dst_dir;
  made ← (if (negb (String.eqb (path_dirname dst_dir) "") && negb there)%bool
          then try_except (os_makedirs dst_dir;; mret true)
                 (λ e, match e with
                       | IOError =>
                           log ERROR "I/O Error: could NOT build the directory";;
                           mret false
                       | _ =>
                           log ERROR "Could NOT build the directory";;
                           mret false
                       end)
          else mret true);
  if made : bool then mret (Some (path_join dst_dir filename)) else mret None.

(** [if dst_path:] *)
Definition path_given (dst_path : option string) : bool :=
  match dst_path with
  | Some p => negb (String.eqb p "")
  | None => false
  end.

(** The loop of [recursive_download] that fills [download_args]. *)
Fixpoint download_args (keys : Datatypes.list object_info)
    (folder_map overwrite : bool) (key_prefix base_dst_dir : pyval)
    : M (Datatypes.list (string * string * bool)) :=
  match keys with
  | [] => mret []
  | k :: keys' =>
      dst_path ←
        (if folder_map then _make_local_path (o_name k) key_prefix base_dst_dir
         else
           base ← arg_str base_dst_dir;
           mret (Some (path_join (path_expanduser (path_normpath base))
                         (last (split "/" (o_name k))))));
      rest ← download_args keys' folder_map overwrite key_prefix base_dst_dir;
      mret (match dst_path with
            | Some p =>
                if path_given dst_path then (o_name k, p, overwrite) :: rest else rest
            | None => rest
            end)
  end.

Definition recursive_download (s3_path base_dst_dir : pyval)
    (folder_map overwrite : bool)
    (prefix_to_replace include_re_pattern exclude_re_pattern : pyval) : M unit :=
  (if (negb (is_str base_dst_dir)
       || (negb (is_none prefix_to_replace) && negb (is_str prefix_to_replace)))%bool
   then log ERROR "Invalid input types!"
   else mret tt);;
  keys ← list s3_path include_re_pattern exclude_re_pattern;
  match keys with
  | None | Some [] =>
      log INFO "No object is found under the input AWS S3 path to recursively download!"
  | Some keys =>
      log INFO "Number of found objects under the input AWS S3 path";;
      s3_parsed ← _s3_path_parser s3_path;
      let key_prefix :=
        if truthy prefix_to_replace then prefix_to_replace
        else PStr (object_name s3_parsed) in
      args ← download_args keys folder_map overwrite key_prefix base_dst_dir;
      for_each _download args
  end.

(** [download]: one object into a directory; a path or directory that is
    not a [str] ends the call after the log. *)
Definition download (s3_path dst_dir : pyval) (overwrite : bool) : M unit :=
  if (negb (is_str s3_path) || negb (is_str dst_dir))%bool
  then log ERROR "Invalid input types (must be str)!"
  else
    st ← get;
    if negb (conn st) then mret tt
    else
      loc ← _s3_path_parser s3_path;
      _get_bucket (bucket_name loc);;
      st ← get;
      match bucket st with
      | None => mret tt
      | Some _ =>
          dst_dir ← _standardize_dir_path dst_dir;
          let dst_path :=
            path_join (path_expanduser (path_normpath dst_dir))
              (last (split "/" (object_name loc))) in
          _download (object_name loc, dst_path, overwrite)
      end.

End methods.
End S3Download.

(** ** [GoogleStorageDownload] *)

Module GoogleStorageDownload.
Import PyStr.

Definition NUM_PROC : nat := 1.

(** [_parse_gs_path]: the pair [(None, None)] when the path is not a [str]
    or does not start with the scheme. *)
Definition _parse_gs_path (gs_path : pyval) : M (option string * option string) :=
  match gs_path with
  | PStr s =>
      if negb (startswith s "gs://")
      then log ERROR "The input Google Storage does NOT start with gs://!";;
           mret (None, None)
      else
        let s := replace s "gs://" "" in
        let bucket_name := first (split "/" s) in
        let blob_name := replace s (bucket_name ++ "/") "" in
        mret (Some bucket_name, Some blob_name)
  | _ =>
      log ERROR "The type of the input Google Storage is NOT a string!";;
      mret (None, None)
  end.

Section methods.
Context (S : service) {P : OsPath} {R : Regex} (is_windows : bool).

(** [storage.bucket.Bucket(self.client, name=bucket_name)] *)
Definition storage_Bucket (bucket_name : string) : M handle :=
  st ← get;
  match svc_bucket S bucket_name with
  | Some e => raise e
  | None =>
      modify (set_next_id (Datatypes.S (next_id st)));;
      mret {| h_name := bucket_name; h_id := next_id st |}
  end.

Definition _get_bucket (bucket_name : string) : M unit :=
  st ← get;
  if negb (conn st) then mret tt
  else
    try_except
      (st ← get;
       match bucket st with
       | Some b =>
           if negb (String.eqb (h_name b) bucket_name)
           then modify (set_bucket None) else mret tt
       | None => mret tt
       end;;
       st ← get;
       match bucket st with
       | None => b ← storage_Bucket bucket_name; modify (set_bucket (Some b))
       | Some _ => mret tt
       end)
      (λ e, match e with
            | NotFound => log ERROR "Could not get the bucket"
            | _ => raise e
            end).

Definition _normalize_dir_path (dir_path : pyval) : M string :=
  d ← as_str dir_path;
  mret (if is_windows
        then (if endswith d "\" then d else d ++ "\")
        else (if endswith d "/" then d else d ++ "/")).

(** [self.bucket.blob(blob_name).download_to_filename(path)] *)
Definition blob_download_to_filename (blob_name path : string) : M unit :=
  st ← get;
  match bucket st with
  | None => raise AttributeError
  | Some b =>
      modify (add_event (EFetch (h_name b) blob_name path));;
      match svc_fetch S (h_name b) blob_name with
      | Fetched data => write_file path data
      | FetchFailed written e =>
          match written with
          | Some data => write_file path data
          | None => mret tt
          end;;
          raise e
      end
  end.

(** A log call whose message reads [self.bucket.name]. *)
Definition log_bucket (lvl : level) (msg : string) : M unit :=
  st ← get;
  match bucket st with
  | None => raise AttributeError
  | Some _ => log lvl msg
  end.

Definition _download (inp : string * string * bool) : M unit :=
  let '(blob_name, dst_file_path, overwrite) := inp in
  there ← path_exists dst_file_path;
  if (negb overwrite && there)%bool
  then log INFO "already EXISTS - skipped downloading"
  else
    let temporary_path := dst_file_path ++ ".000" in
    try_except
      (blob_download_to_filename blob_name temporary_path;;
       os_rename temporary_path dst_file_path;;
       log_bucket INFO "File is downloaded")
      (λ e, match e with
            | IOError => log_bucket ERROR "Could NOT download the Google Cloud blob! IOError"
            | NotFound => log_bucket ERROR "Could NOT find the source file"
            | _ => log_bucket ERROR "Could NOT download the Google Cloud blob!"
            end);;
    left ← path_exists temporary_path;
    if left : bool then
      try_except (os_remove temporary_path)
        (λ e, match e with
              | IOError =>
                  log ERROR "I/O Error: could NOT delete the downloaded temporary file!"
              | _ => log ERROR "Could NOT delete the downloaded temporary file!"
              end)
    else mret tt.

(** [_list]: [None] for a path without bucket or prefix and when the
    listing raises. *)
Definition _list (gs_path : pyval) : M (option (list object_info)) :=
  '(bucket_name, blob_prefix) ← _parse_gs_path gs_path;
  match bucket_name, blob_prefix with
  | Some bucket_name, Some (String _ _ as blob_prefix) =>
      _get_bucket bucket_name;;
      st ← get;
      match bucket st with
      | None => mret None
      | Some b =>
          try_except
            (modify (add_event (EList (h_name b) blob_prefix));;
             match svc_list S (h_name b) blob_prefix with
             | Ok blobs => mret (Some blobs)
             | Raise e => raise e
             end)
            (λ e, match e with
                  | NotFound =>
                      log_bucket ERROR "Could NOT find the blob prefix";;
                      mret None
                  | _ =>
                      log_bucket ERROR "Could NOT list the objects";;
                      mret None
                  end)
      end
  | _, _ =>
      log ERROR "The input Google storage path does not have valid bucket name and/or blob prefix!";;
      mret None
  end.

Definition _filter_blob_names (blobs : list object_info)
    (include_re_pattern exclude_re_pattern : pyval) : M (list object_info) :=
  blobs ← (if truthy include_re_pattern then
             search ← compile include_re_pattern;
             mret (List.filter (λ b, search (o_name b)) blobs)
           else mret blobs);
  blobs ← (if truthy exclude_re_pattern then
             search ← compile exclude_re_pattern;
             mret (List.filter (λ b, negb (search (o_name b))) blobs)
           else mret blobs);
  mret blobs.

Definition list (gs_path include_re_pattern exclude_re_pattern : pyval)
    : M (option (list object_info)) :=
  if (negb (is_str gs_path)
      || (negb (is_none include_re_pattern) && negb (is_str include_re_pattern))
      || (negb (is_none exclude_re_pattern) && negb (is_str exclude_re_pattern)))%bool
  then log ERROR "Invalid input types (must be str)!";; mret None
  else
    blobs ← _list gs_path;
    match blobs with
    | None => mret None
    | Some blobs =>
        blobs ← (if (truthy include_re_pattern || truthy exclude_re_pattern)%bool
                 then _filter_blob_names blobs include_re_pattern exclude_re_pattern
                 else mret blobs);
        mret (Some blobs)
    end.

(** [_make_local_path]: [None] when the directories cannot be made. *)
Definition _make_local_path (blob_name : string)
    (prefix_to_replace base_dst_dir : pyval) : M (option string) :=
  let filename := last (split "/" blob_name) in
  prefix ← arg_str prefix_to_replace;
  let dst_path_tail := replace blob_name prefix "" in
  let dst_path_tail :=
    if is_windows then
      let dst_path_tail := replace dst_path_tail "/" "\" in
      if startswith dst_path_tail "\" then drop 2 blob_name else dst_path_tail
    else if startswith dst_path_tail "/" then drop 1 dst_path_tail
    else dst_path_tail in
  base_dst_dir ← _normalize_dir_path base_dst_dir;
  let base_dst_dir := path_expanduser (path_normpath base_dst_dir) in
  let dst_dir := path_join base_dst_dir (path_dirname dst_path_tail) in
  there ← path_exists dst_dir;
  made ← (if (negb (String.eqb (path_dirname dst_dir) "") && negb there)%bool
          then try_except (os_makedirs dst_dir;; mret true)
                 (λ e, match e with
                       | IOError =>
                           log ERROR "I/O Error: could NOT build the directory";;
                           mret false
                       | _ =>
                           log ERROR "Could NOT build the directory";;
                           mret false
                       end)
          else mret true);
  if made : bool then mret (Some (path_join dst_dir filename)) else mret None.

(** [if dst_path:] *)
Definition path_given (dst_path : option string) : bool :=
  match dst_path with
  | Some p => negb (String.eqb p "")
  | None => false
  end.

(** The loop of [recursive_download] that fills [download_args]. *)
Fixpoint download_args (blobs : Datatypes.list object_info)
    (folder_map overwrite : bool) (blob_prefix base_dst_dir : pyval)
    : M (Datatypes.list (string * string * bool)) :=
  match blobs with
  | [] => mret []
  | blob :: blobs' =>
      dst_path ←
        (if folder_map then _make_local_path (o_name blob) blob_prefix base_dst_dir
         else
           base ← arg_str base_dst_dir;
           mret (Some (path_join (path_expanduser (path_normpath base))
                         (last (split "/" (o_name blob))))));
      rest ← download_args blobs' folder_map overwrite blob_prefix base_dst_dir;
      mret (match dst_path with
            | Some p =>
                if path_given dst_path then (o_name blob, p, overwrite) :: rest
                else rest
            | None => rest
            end)
  end.

Definition recursive_download (gs_path base_dst_dir : pyval)
    (folder_map overwrite : bool)
    (prefix_to_replace include_re_pattern exclude_re_pattern : pyval) : M unit :=
  blobs ← list gs_path include_re_pattern exclude_re_pattern;
  match blobs with
  | None | Some [] =>
      log INFO "No blob is found under the input Google storage path to recursively download!"
  | Some blobs =>
      log INFO "Number of found blobs under the input Google storage path";;
      '(bucket_name, blob_prefix) ← _parse_gs_path gs_path;
      let blob_prefix :=
        if truthy prefix_to_replace then prefix_to_replace
        else match blob_prefix with Some p => PStr p | None => PNone end in
      args ← download_args blobs folder_map overwrite blob_prefix base_dst_dir;
      for_each _download args
  end.

(** [download]: one blob into a directory; a path without bucket or blob
    name ends the call after the log. *)
Definition download (gs_path dst_dir : pyval) (overwrite : bool) : M unit :=
  '(bucket_name, blob_name) ← _parse_gs_path gs_path;
  match bucket_name, blob_name with
  | Some bucket_name, Some (String _ _ as blob_name) =>
      _get_bucket bucket_name;;
      st ← get;
      match bucket st with
      | None => mret tt
      | Some _ =>
          dst_dir ← _normalize_dir_path dst_dir;
          let filename := last (split "/" blob_name) in
          dst_dir ← _normalize_dir_path (PStr dst_dir);
          let dst_file_path := path_join dst_dir filename in
          _download (blob_name, dst_file_path, overwrite)
      end
  | _, _ =>
      log ERROR "The input Google storage path does not have valid bucket and/or blob names!"
  end.

End methods.
End GoogleStorageDownload.

(** ** A fragment of [re]

    Patterns made of literal characters, escaped punctuation, [.], [^] and
    [$], without flags; every other pattern is outside the fragment and is
    given no compiled form here. *)

Module FragmentRe.

Inductive atom :=
| Lit (c : ascii)
| AnyChar
| Bol
| Eol.

Definition newline : ascii := "010"%char.

Definition is_alnum (c : ascii) : bool :=
  let n := nat_of_ascii c in
  ((48 <=? n) && (n <=? 57) || (65 <=? n) && (n <=? 90)
   || (97 <=? n) && (n <=? 122) || (n =? 95))%nat.

(** The characters that build operators, classes and groups. *)
Definition is_operator (c : ascii) : bool :=
  existsb (Ascii.eqb c) ["*"; "+"; "?"; "{"; "}"; "["; "]"; "("; ")"; "|"]%char.

Definition atom_of (c : ascii) : atom :=
  if Ascii.eqb c "." then AnyChar
  else if Ascii.eqb c "^" then Bol
  else if Ascii.eqb c "$" then Eol
  else Lit c.

(** The pattern as a sequence of atoms; [escaped] says that the character
    before was a backslash. *)
Fixpoint parse (escaped : bool) (p : string) : option (list atom) :=
  match p with
  | EmptyString => if escaped then None else Some []
  | String c p' =>
      if escaped then
        if is_alnum c then None else cons (Lit c) <$> parse false p'
      else if Ascii.eqb c "\" then parse true p'
      else if is_operator c then None
      else cons (atom_of c) <$> parse false p'
  end.

(** A match of the atoms that starts at the head of [s]; [at_start] says
    that this head is the start of the whole string. [$] matches at the
    end and before a newline that ends the string. *)
Fixpoint match_here (atoms : list atom) (at_start : bool) (s : string) : bool :=
  match atoms with
  | [] => true
  | Bol :: atoms' => at_start && match_here atoms' at_start s
  | Eol :: atoms' =>
      (String.eqb s "" || String.eqb s (String newline ""))
      && match_here atoms' at_start s
  | Lit c :: atoms' =>
      match s with
      | String d s' => Ascii.eqb d c && match_here atoms' false s'
      | EmptyString => false
      end
  | AnyChar :: atoms' =>
      match s with
      | String d s' => negb (Ascii.eqb d newline) && match_here atoms' false s'
      | EmptyString => false
      end
  end.

(** [pattern.search(s)]: a match that starts somewhere in [s]. *)
Fixpoint search_from (atoms : list atom) (at_start : bool) (s : string) : bool :=
  match_here atoms at_start s
  || match s with
     | String _ s' => search_from atoms false s'
     | EmptyString => false
     end.

Definition compile (p : string) : option (string → bool) :=
  (λ atoms, search_from atoms true) <$> parse false p.

Definition regex : Regex := compile.

End FragmentRe.

(** ** The filter as the specification words it

    An include pattern, when given, keeps the names it finds a match in; an
    exclude pattern, when given, drops the names it finds a match in; a
    pattern that is [None] or empty is not given. *)

Section filter_spec.
Context {R : Regex}.

(** The test a pattern stands for: none when the pattern is not given, an
    exception when it cannot be compiled. *)
Definition pattern_search (pattern : pyval) : result (option (string → bool)) :=
  if truthy pattern then
    match pattern with
    | PStr p =>
        match re_compile p with
        | Some search => Ok (Some search)
        | None => Raise ReError
        end
    | _ => Raise TypeError
    end
  else Ok None.

Definition passes (include exclude : option (string → bool)) (name : string) : bool :=
  match include with Some search => search name | None => true end
  && match exclude with Some search => negb (search name) | None => true end.

Definition filter_spec (objects : list object_info)
    (include_pattern exclude_pattern : pyval) : result (list object_info) :=
  match pattern_search include_pattern with
  | Raise e => Raise e
  | Ok include =>
      match pattern_search exclude_pattern with
      | Raise e => Raise e
      | Ok exclude => Ok (List.filter (λ o, passes include exclude (o_name o)) objects)
      end
  end.
End filter_spec.

(** The names of the example of the specification. *)
Definition named (name : string) : object_info :=
  {| o_bucket := "bucket"; o_name := name; o_size := 1 |}.

(** ** The cached bucket handle, as the specification words it *)

(** The cached handle is a handle for [name]. *)
Definition cached_is (name : string) (st : state) : bool :=
  match bucket st with
  | Some b => String.eqb (h_name b) name
  | None => false
  end.

(** The client after the cached handle was replaced by a new handle object
    for [name]. *)
Definition rebind (name : string) (st : state) : state :=
  set_bucket (Some {| h_name := name; h_id := next_id st |})
    (set_next_id (S (next_id st)) st).

(** Every handle object made so far has an identity below [next_id]. *)
Definition cache_wf (st : state) : Prop :=
  ∀ b, bucket st = Some b → h_id b < next_id st.

(** What the specification asks of a [_get_bucket], here [G]: after any run
    of calls, a call for the name the cached handle has leaves the client
    as it is, a call for another name puts a new handle object for that
    name in the place of the old one, and in both cases the cached handle
    is one for the name just resolved. *)
Definition cache_law (G : string → M unit) (names : list string) (name : string)
    (st : state) : Prop :=
  ∃ st1 st2,
    for_each G names st = (st1, Ok tt)
    ∧ G name st1 = (st2, Ok tt)
    ∧ (cached_is name st1 = true → st2 = st1)
    ∧ (cached_is name st1 = false →
         bucket st2 = Some {| h_name := name; h_id := next_id st1 |}
         ∧ ∀ b, bucket st1 = Some b → h_id b ≠ next_id st1)
    ∧ (h_name <$> bucket st2) = Some name.

(** ** A sample world

    A connected client that has not resolved a bucket yet, an empty disk but
    for the directory [/out], and a service that builds every handle, lists
    two scenes under [scenes/2020/] and delivers every object but those
    whose key starts with [lost]. *)

Definition posix : OsPath :=
  PosixPath.ops (λ user, if String.eqb user "" then Some "/home/user" else None).

Definition fresh_client : state :=
  {| conn := true; bucket := None; next_id := 0;
     fs := {[ "/out" := Dir ]}; events := [] |}.

Definition sample_service : service :=
  {| svc_bucket := λ _, None;
     svc_list := λ b prefix,
       Ok (List.filter (λ o, PyStr.startswith (o_name o) prefix)
             [ {| o_bucket := b; o_name := "scenes/2020/001/img1.tif"; o_size := 4 |};
               {| o_bucket := b; o_name := "scenes/2020/002/img2.tif"; o_size := 4 |} ]);
     svc_fetch := λ _ key,
       if PyStr.startswith key "lost" then FetchFailed (Some "par") NotFound
       else Fetched ("data of " ++ key) |}.

(** ** What a run leaves behind *)

(** The trace grew by events that all satisfy [Q]. *)
Definition extends (Q : event → Prop) (st st' : state) : Prop :=
  ∃ evs, events st' = (events st ++ evs)%list ∧ Forall Q evs.

(** Every run of [m] relates the state before to the state after. *)
Definition keeps {A} (Rel : state → state → Prop) (m : M A) : Prop :=
  ∀ st st' r, m st = (st', r) → Rel st st'.

Definition is_log (e : event) : Prop :=
  match e with ELog _ _ => True | _ => False end.

Definition is_log_or_list (e : event) : Prop :=
  match e with ELog _ _ | EList _ _ => True | _ => False end.

Definition not_list (e : event) : Prop :=
  match e with EList _ _ => False | _ => True end.

(** Nothing was written, made or fetched: the disk is as it was and the
    trace grew by log records and listing calls only. *)
Definition quiet (st st' : state) : Prop :=
  fs st' = fs st ∧ extends is_log_or_list st st'.

(** A log record, or the listing call for [prefix] in [bucket]. *)
Definition only_listing (bucket prefix : string) (e : event) : Prop :=
  is_log e ∨ e = EList bucket prefix.

(** What the specification asks of a call [m] when the listing fails: a run
    of [m] in which the service is asked to list and raises returns
    [nothing], leaves the disk as it was, and has only log records and
    listing calls in its trace: no directory made, no object fetched. *)
Definition ends_on_failed_listing {A} (S : service) (m : M A) (nothing : A) : Prop :=
  ∀ st st' r evs b p e,
    m st = (st', r) →
    events st' = (events st ++ evs)%list →
    EList b p ∈ evs → svc_list S b p = Raise e →
    r = Ok nothing ∧ fs st' = fs st ∧ Forall is_log_or_list evs.

(** A service whose listing is denied. *)
Definition closed_service : service :=
  {| svc_bucket := λ _, None;
     svc_list := λ _ _, Raise (ClientError "403");
     svc_fetch := λ _ _, FetchFailed None (ClientError "403") |}.

(** The client after it resolved the bucket [bucket]. *)
Definition resolved_client : state :=
  {| conn := true; bucket := Some {| h_name := "bucket"; h_id := 0 |}; next_id := 1;
     fs := {[ "/out" := Dir ]}; events := [] |}.

(** ** The scheduler, as the specification words it *)

(** The log records of a skipped task. *)
Definition s3_skipped : event := ELog INFO "already EXISTS - skipped".
Definition gs_skipped : event := ELog INFO "already EXISTS - skipped downloading".

(** The events that stand for the attempt at a task: the fetch, or the
    record that the task was skipped (the only record at level [INFO] that
    [_download] of [S3Download] writes). *)
Definition is_attempt (e : event) : bool :=
  match e with
  | EFetch _ _ _ | ELog INFO _ => true
  | _ => false
  end.

(** [e] is the attempt at [task] by a client whose bucket is [b]: the fetch
    of the key of the task to the destination of the task, or the skip of
    a task that does not overwrite. *)
Definition attempt_of (b : handle) (task : string * string * bool) (e : event) : Prop :=
  let '(src_key, dst_path, overwrite) := task in
  e = EFetch (h_name b) src_key dst_path ∨ (overwrite = false ∧ e = s3_skipped).

(** The destination of a task, as the file system sees it. *)
Definition destination {P : OsPath} (task : string * string * bool) : string :=
  key task.1.2.

(** A task that does not overwrite and whose destination exists. *)
Definition settled {P : OsPath} (st : state) (task : string * string * bool) : Prop :=
  task.2 = false ∧ is_Some (fs st !! destination task).

(** A run of the scheduler [D] over [tasks] that fetches and writes
    nothing: it ends normally, the disk is as it was, and the trace grew by
    one record [skipped] for each task. *)
Definition all_skipped (D : string * string * bool → M unit) (skipped : event)
    (tasks : list (string * string * bool)) (st : state) : Prop :=
  ∃ st',
    for_each D tasks st = (st', Ok tt)
    ∧ fs st' = fs st
    ∧ events st' = (events st ++ ((λ _, skipped) <$> tasks))%list.

(** Five tasks of which the second asks for a key the service has lost. *)
Definition five_tasks : list (string * string * bool) :=
  [("k1", "/out/1", true); ("lost2", "/out/2", true); ("k3", "/out/3", true);
   ("k4", "/out/4", true); ("k5", "/out/5", true)].

(** A client whose destination directory holds one scene already. *)
Definition populated_client : state :=
  {| conn := true; bucket := Some {| h_name := "bucket"; h_id := 0 |}; next_id := 1;
     fs := {[ "/out" := Dir; "/out/img1.tif" := File "old bytes" ]}; events := [] |}.

(** The length of [sep.join(comps)] for the separator of paths. *)
Definition join_length (comps : list string) : nat :=
  String.length (PyStr.join "/" comps).

(** [old in s]: [old] occurs in [s] as a substring. *)
Fixpoint occurs (old s : string) : bool :=
  String.prefix old s
  || match s with
     | EmptyString => false
     | String _ s' => occurs old s'
     end.

(** A service that refuses to build a handle for the bucket [private],
    raising [e], and otherwise answers as [sample_service]. *)
Definition guarded_service (e : exn) : service :=
  {| svc_bucket := λ b, if String.eqb b "private" then Some e else None;
     svc_list := svc_list sample_service;
     svc_fetch := svc_fetch sample_service |}.

(** What a listing becomes when the patterns are applied to it: a listing
    that failed or returned [None] stays as it is. *)
Definition filtered {R : Regex} (listing : result (option (list object_info)))
    (include_pattern exclude_pattern : pyval) : result (option (list object_info)) :=
  match listing with
  | Ok (Some objects) =>
      match filter_spec objects include_pattern exclude_pattern with
      | Ok kept => Ok (Some kept)
      | Raise e => Raise e
      end
  | other => other
  end.

(** [pattern] is [None] or a [str]. *)
Definition pattern_typed (pattern : pyval) : bool :=
  is_none pattern || is_str pattern.

(** A directory path with the separator of the platform at its end. *)
Definition with_separator (is_windows : bool) (dir : string) : string :=
  if is_windows
  then (if PyStr.endswith dir "\" then dir else dir ++ "\")
  else (if PyStr.endswith dir "/" then dir else dir ++ "/").

(** The destination of an object when the folders are not mapped: the
    last component of its name, in the base directory. *)
Definition flat_destination {P : OsPath} (base name : string) : string :=
  path_join (path_expanduser (path_normpath base)) (PyStr.last (PyStr.split "/" name)).

Definition not_makedirs (e : event) : Prop :=
  match e with EMakeDirs _ => False | _ => True end.

(** No directory was made: [os.makedirs] was not called, and every
    directory of the disk was one before. *)
Definition no_new_directory (st st' : state) : Prop :=
  extends not_makedirs st st'
  ∧ ∀ p, fs st' !! p = Some Dir → fs st !! p = Some Dir.

(** The temporary path of a task of [GoogleStorageDownload], as the file
    system sees it. *)
Definition temporary {P : OsPath} (task : string * string * bool) : string :=
  key (task.1.2 ++ ".000").

(** ** The callers of [recursive_download]

    [_download_tif] of [L7DownloadContent] and of [SentinelDownloadContent]
    compute the prefix they pass as [prefix_to_replace] from the locator of
    a scene: ['/'.join(file_path.split('/')[3:-1])] and
    ['/'.join(file_path.replace('gs://', '').split('/')[1:-1])]. *)

(** [l[i:-1]] *)
Definition slice_to_last {A} (i : nat) (l : list A) : list A :=
  removelast (skipn i l).

Definition l7_prefix (file_path : string) : string :=
  PyStr.join "/" (slice_to_last 3 (PyStr.split "/" file_path)).

Definition sentinel_prefix (file_path : string) : string :=
  PyStr.join "/"
    (slice_to_last 1 (PyStr.split "/" (PyStr.replace file_path "gs://" ""))).

(** What the worker of [S3Download] leaves behind at one task, on a client
    whose bucket is [b]: no path touched but the destination of the task,
    and either the task is skipped (it does not overwrite and its
    destination exists: the record of the skip, the disk as it was), or
    the service is asked once to fetch it, and then the object is at the
    destination when the fetch delivers, and the error is logged, right
    behind the fetch, when it fails. *)
Definition task_outcome {P : OsPath} (S : service) (b : handle)
    (task : string * string * bool) (st st1 : state) : Prop :=
  let '(src_key, dst, overwrite) := task in
  let fetch := EFetch (h_name b) src_key dst in
  bucket st1 = Some b
  ∧ (∀ p, p ≠ key dst → fs st1 !! p = fs st !! p)
  ∧ ((overwrite = false ∧ is_Some (fs st !! key dst)
      ∧ fs st1 = fs st ∧ events st1 = (events st ++ [s3_skipped])%list)
     ∨ ((overwrite = true ∨ fs st !! key dst = None)
        ∧ ((∃ data, svc_fetch S (h_name b) src_key = Fetched data
              ∧ fs st1 !! key dst = Some (File data)
              ∧ events st1 = (events st ++ [fetch])%list)
           ∨ (∃ written e msg,
                svc_fetch S (h_name b) src_key = FetchFailed written e
                ∧ events st1 = (events st ++ [fetch; ELog ERROR msg])%list)))).

(** A run of the scheduler as the specification words it: the tasks one
    after the other, in the order of the list, each with the outcome of a
    worker, from the state the task before it left. *)
Fixpoint scheduled {P : OsPath} (S : service) (b : handle)
    (tasks : list (string * string * bool)) (st st' : state) : Prop :=
  match tasks with
  | [] => st' = st
  | task :: tasks =>
      ∃ st1, task_outcome S b task st st1 ∧ scheduled S b tasks st1 st'
  end.

(** ** A run that does not overwrite, as the specification words it *)

(** What a run of [S3Download] without [overwrite] leaves behind: every
    path that was on the disk is as it was, and every fetch went to a path
    that was not on the disk when the run began. *)
Definition only_missing {P : OsPath} (st st' : state) : Prop :=
  (∀ p, is_Some (fs st !! p) → fs st' !! p = fs st !! p)
  ∧ ∃ evs, events st' = (events st ++ evs)%list
           ∧ ∀ bk k p, EFetch bk k p ∈ evs → fs st !! key p = None.

(** The path [p] is one the service was asked to write to in [evs]. *)
Definition fetched_to {P : OsPath} (evs : list event) (p : string) : Prop :=
  ∃ bk k q, EFetch bk k q ∈ evs ∧ key q = p.

(** The same for [GoogleStorageDownload], whose fetches go to temporary
    paths: every path that was on the disk is as it was, but for the
    temporary paths the run fetched to; and every fetch went to the
    temporary path of a destination that was not on the disk when the run
    began, or that the run had fetched to as a temporary path itself. *)
Definition only_missing_tmp {P : OsPath} (st st' : state) : Prop :=
  ∃ evs, events st' = (events st ++ evs)%list
    ∧ (∀ p, is_Some (fs st !! p) → fs st' !! p = fs st !! p ∨ fetched_to evs p)
    ∧ (∀ bk k q, EFetch bk k q ∈ evs →
         ∃ dst, q = dst ++ ".000"
                ∧ (fs st !! key dst = None ∨ fetched_to evs (key dst))).

Definition is_fetch (e : event) : bool :=
  match e with EFetch _ _ _ => true | _ => false end.

(** The second half of the claim as the specification words it: after a
    run of [run], a second run asks the service for no fetch and leaves the
    disk as it is. *)
Definition second_run_writes_nothing (run : M unit) (st : state) : Prop :=
  ∀ st1 r1 st2 r2 evs,
    run st = (st1, r1) → run st1 = (st2, r2) →
    events st2 = (events st1 ++ evs)%list →
    fs st2 = fs st1 ∧ List.filter is_fetch evs = [].

(** A service as [sample_service], but for the second scene, whose fetch
    is refused every time. *)
Definition lossy_service : service :=
  {| svc_bucket := λ _, None;
     svc_list := svc_list sample_service;
     svc_fetch := λ _ key,
       if String.eqb key "scenes/2020/002/img2.tif"
       then FetchFailed None (ClientError "500")
       else Fetched ("data of " ++ key) |}.

Definition not_fetch (e : event) : Prop := is_fetch e = false.

(** Nothing that was on the disk has changed and nothing was fetched. *)
Definition frozen (st st' : state) : Prop :=
  (∀ p, is_Some (fs st !! p) → fs st' !! p = fs st !! p)
  ∧ extends not_fetch st st'.

(** [_make_local_path] cannot make the directory [d] on the disk [m]: the
    directory is asked for (its own directory has a name) and missing, and
    a file stands where a directory above it is needed. *)
Definition makedirs_blocked {P : OsPath} (m : gmap string node) (d : string) : bool :=
  negb (String.eqb (path_dirname d) "")
  && negb (bool_decide (is_Some (m !! key d)))
  && existsb (is_file m) (ancestors (String.length (key d)) (key d)).

(** * Theorems *)

(** ** Facts about the methods of [str] *)

Module PyStrFacts.
Import PyStr.

Lemma app_cons (c : ascii) (s t : string) : String c s ++ t = String c (s ++ t).
Proof. reflexivity. Qed.

Lemma app_nil_l (t : string) : "" ++ t = t.
Proof. reflexivity. Qed.

Lemma length_app (s t : string) :
  String.length (s ++ t) = String.length s + String.length t.
Proof.
  induction s as [|c s IH]; [done |].
  rewrite app_cons. simpl. by rewrite IH.
Qed.

Lemma app_empty_r (s : string) : s ++ "" = s.
Proof. induction s as [|c s IH]; [done |]. by rewrite app_cons, IH. Qed.

Lemma app_assoc (s t u : string) : (s ++ t) ++ u = s ++ t ++ u.
Proof. induction s as [|c s IH]; [done |]. by rewrite !app_cons, IH. Qed.

Lemma prefix_app (p s : string) : String.prefix p (p ++ s) = true.
Proof.
  induction p as [|c p IH]; [by destruct s |].
  rewrite app_cons. simpl. destruct (ascii_dec c c); [done | congruence].
Qed.

Lemma has_char_app (c : ascii) (s t : string) :
  has_char c (s ++ t) = (has_char c s || has_char c t)%bool.
Proof.
  induction s as [|d s IH]; [done |].
  rewrite app_cons. simpl. rewrite IH. by destruct (Ascii.eqb d c).
Qed.

(** Every character of a prefix is a character of the string. *)
Lemma prefix_has_char (c : ascii) (p s : string) :
  String.prefix p s = true → has_char c p = true → has_char c s = true.
Proof.
  revert s. induction p as [|d p IH]; intros s Hp Hc; [done |].
  destruct s as [|e s]; simpl in Hp; [done |].
  destruct (ascii_dec d e) as [<- | ]; [| done].
  simpl in *. destruct (Ascii.eqb d c); [done |].
  simpl in *. by apply IH.
Qed.

(** Nothing is replaced in a string that lacks a character of [old]. *)
Lemma replace_scan_absent (c : ascii) (old new s : string) :
  has_char c old = true → has_char c s = false →
  replace_scan old new 0 s = s.
Proof.
  intros Hold. induction s as [|d s IH]; intros Hs; [done |].
  cbn [replace_scan].
  destruct (String.prefix old (String d s)) eqn:Hp.
  - by rewrite (prefix_has_char c _ _ Hp Hold) in Hs.
  - simpl in Hs. apply orb_false_iff in Hs as [_ Hs]. by rewrite IH.
Qed.

(** The scan passes over the characters it was told to skip. *)
Lemma replace_scan_skip (old new l s : string) :
  replace_scan old new (String.length l) (l ++ s) = replace_scan old new 0 s.
Proof.
  induction l as [|c l IH]; [by destruct s |].
  rewrite app_cons. simpl. apply IH.
Qed.

(** An occurrence at the head is replaced and the scan goes on behind it. *)
Lemma replace_head (old new s : string) :
  old ≠ "" →
  replace (old ++ s) old new = new ++ replace s old new.
Proof.
  intros Hne. destruct old as [|c old]; [done |].
  unfold replace. rewrite app_cons. cbn [replace_scan].
  rewrite <- app_cons, prefix_app.
  replace (String.length (String c old) - 1) with (String.length old)
    by (simpl; lia).
  by rewrite replace_scan_skip.
Qed.

Lemma replace_absent (c : ascii) (old new s : string) :
  has_char c old = true → has_char c s = false → replace s old new = s.
Proof.
  intros Hold Hs. destruct old as [|d old]; [done |].
  unfold replace. by apply (replace_scan_absent c).
Qed.

Lemma split_no_sep (c : ascii) (s : string) :
  has_char c s = false → split c s = [s].
Proof.
  induction s as [|d s IH]; intros Hs; [done |].
  simpl in *. apply orb_false_iff in Hs as [-> Hs]. by rewrite IH.
Qed.

End PyStrFacts.

(** ** The path parsers *)

(** Unfolds the operations of the monad. *)
Ltac run :=
  cbv beta iota zeta delta
    [mbind mret M_bind M_ret try_except log modify get raise as_str arg_str].

Section parsers.
Import PyStr PyStrFacts.

(** What both parsers compute behind the scheme marker. *)
Lemma bare_container_tail (scheme r : string) :
  has_char "/" scheme = true → has_char "/" r = false →
  replace (scheme ++ r) scheme "" = r
  ∧ first (split "/" r) = r
  ∧ replace r (r ++ "/") "" = r.
Proof.
  intros Hs Hr. split_and!.
  - rewrite replace_head by (by intros ->).
    rewrite app_nil_l. by apply (replace_absent "/").
  - by rewrite split_no_sep.
  - apply (replace_absent "/"); [| done].
    rewrite has_char_app. by rewrite orb_true_r.
Qed.

(** C10. A locator that carries the scheme marker and has no ['/'] after
    it is parsed, by both parsers, into the container name and an object
    prefix that is the container name again, not the empty string: the
    text ["container/"] that the parsers remove does not occur. *)
Theorem parsers_bare_container (r : string) (st : state) :
  has_char "/" r = false →
  S3Download._s3_path_parser (PStr ("s3://" ++ r)) st
    = (st, Ok {| bucket_name := r; object_name := r |})
  ∧ GoogleStorageDownload._parse_gs_path (PStr ("gs://" ++ r)) st
    = (st, Ok (Some r, Some r)).
Proof.
  intros Hr. split.
  - destruct (bare_container_tail "s3://" r eq_refl Hr) as (H1 & H2 & H3).
    unfold S3Download._s3_path_parser. run.
    unfold startswith. rewrite prefix_app.
    by rewrite H1, H2, H3.
  - destruct (bare_container_tail "gs://" r eq_refl Hr) as (H1 & H2 & H3).
    unfold GoogleStorageDownload._parse_gs_path. run.
    unfold startswith. rewrite prefix_app. cbn [negb].
    by rewrite H1, H2, H3.
Qed.

Lemma parsers_bare_container_witness :
  has_char "/" "bucket" = false
  ∧ ∀ st,
      S3Download._s3_path_parser (PStr "s3://bucket") st
        = (st, Ok {| bucket_name := "bucket"; object_name := "bucket" |})
      ∧ GoogleStorageDownload._parse_gs_path (PStr "gs://bucket") st
        = (st, Ok (Some "bucket", Some "bucket")).
Proof.
  split; [reflexivity |].
  intros st. apply (parsers_bare_container "bucket" st). reflexivity.
Defined.

(** C1. At the locator [scheme://data/maps/data/x.tif], whose prefix has a
    segment equal to the container name, both parsers return the prefix
    [maps/x.tif]: every occurrence of ["data/"] is removed, not only the
    one at the head, so the remainder [maps/data/x.tif] behind the first
    ['/'] is not what is returned. *)
Theorem parsers_drop_repeated_container (st : state) :
  S3Download._s3_path_parser (PStr "s3://data/maps/data/x.tif") st
    = (st, Ok {| bucket_name := "data"; object_name := "maps/x.tif" |})
  ∧ GoogleStorageDownload._parse_gs_path (PStr "gs://data/maps/data/x.tif") st
    = (st, Ok (Some "data", Some "maps/x.tif")).
Proof. split; reflexivity. Qed.

End parsers.

(** ** The filter *)

Section filter.
Context {R : Regex}.

Lemma filter_filter {A} (f g : A → bool) (l : list A) :
  List.filter g (List.filter f l) = List.filter (λ x, f x && g x) l.
Proof.
  induction l as [|x l IH]; [done |].
  simpl. destruct (f x); simpl; [destruct (g x) |]; by rewrite IH.
Qed.

Lemma filter_true {A} (l : list A) : List.filter (λ _, true) l = l.
Proof. induction l as [|x l IH]; [done |]. simpl. by rewrite IH. Qed.

Lemma filter_object_names_spec (keys : list object_info) (inc exc : pyval)
    (st : state) :
  S3Download._filter_object_names keys inc exc st = (st, filter_spec keys inc exc).
Proof.
  unfold S3Download._filter_object_names, filter_spec, pattern_search, compile.
  run. unfold passes.
  destruct (truthy inc) eqn:Hi, (truthy exc) eqn:He.
  - destruct inc as [|p| |]; try done. destruct (re_compile p); [| done].
    destruct exc as [|q| |]; try done. destruct (re_compile q); [| done].
    by rewrite filter_filter.
  - destruct inc as [|p| |]; try done. destruct (re_compile p); [| done].
    do 2 f_equal. apply filter_ext. intros k. by rewrite andb_true_r.
  - destruct exc as [|q| |]; try done. destruct (re_compile q); done.
  - by rewrite filter_true.
Qed.

End filter.

(** C8. Both filters return the objects whose name the include pattern,
    when given, finds a match in and the exclude pattern, when given, finds
    none in, in the order of the listing (the include pattern is applied
    first, the exclude pattern to what it left); they return the listing as
    it is when neither pattern is given; and on the names [a.tif], [a.ovr],
    [b.tif] the include pattern [\.tif$] leaves [a.tif] and [b.tif], the
    exclude pattern [^a] added to it leaves [b.tif]. *)
Theorem filter_include_then_exclude :
  (∀ (R : Regex) (keys : list object_info) (inc exc : pyval) (st : state),
     S3Download._filter_object_names keys inc exc st = (st, filter_spec keys inc exc)
     ∧ GoogleStorageDownload._filter_blob_names keys inc exc st
       = (st, filter_spec keys inc exc))
  ∧ (∀ (R : Regex) (keys : list object_info) (st : state),
       S3Download._filter_object_names keys PNone PNone st = (st, Ok keys)
       ∧ GoogleStorageDownload._filter_blob_names keys PNone PNone st = (st, Ok keys))
  ∧ (∀ st,
       let objects := [named "a.tif"; named "a.ovr"; named "b.tif"] in
       let R := FragmentRe.regex in
       S3Download._filter_object_names objects (PStr "\.tif$") PNone st
         = (st, Ok [named "a.tif"; named "b.tif"])
       ∧ S3Download._filter_object_names objects (PStr "\.tif$") (PStr "^a") st
         = (st, Ok [named "b.tif"])
       ∧ GoogleStorageDownload._filter_blob_names objects (PStr "\.tif$") PNone st
         = (st, Ok [named "a.tif"; named "b.tif"])
       ∧ GoogleStorageDownload._filter_blob_names objects (PStr "\.tif$") (PStr "^a") st
         = (st, Ok [named "b.tif"])).
Proof.
  split_and!.
  - intros R keys inc exc st.
    split; exact (filter_object_names_spec keys inc exc st).
  - intros R keys st. split; reflexivity.
  - intros st. cbn zeta. split_and!; reflexivity.
Qed.

(** ** The cached bucket handle *)

Section cache.
Context (S : service).

Lemma s3_get_bucket_step (name : string) (st : state) :
  conn st = true → svc_bucket S name = None →
  S3Download._get_bucket S name st
  = (if cached_is name st then st else rebind name st, Ok tt).
Proof.
  intros Hc Hs. unfold S3Download._get_bucket, S3Download.conn_Bucket, cached_is.
  run.
  destruct (bucket st) as [b|]; [destruct (String.eqb (h_name b) name) |];
    cbn [negb]; [done | |]; by rewrite Hc, Hs.
Qed.

Lemma gs_get_bucket_step (name : string) (st : state) :
  conn st = true → svc_bucket S name = None →
  GoogleStorageDownload._get_bucket S name st
  = (if cached_is name st then st else rebind name st, Ok tt).
Proof.
  intros Hc Hs.
  unfold GoogleStorageDownload._get_bucket, GoogleStorageDownload.storage_Bucket,
    cached_is.
  run. rewrite Hc. cbn [negb].
  destruct (bucket st) as [b|] eqn:Hb.
  - destruct (String.eqb (h_name b) name); cbn [negb]; run.
    + by rewrite Hb.
    + cbn [bucket set_bucket]. by rewrite Hs.
  - run. by rewrite Hb, Hs.
Qed.

Lemma step_keeps (name : string) (st : state) :
  let st' := if cached_is name st then st else rebind name st in
  conn st' = conn st ∧ (cache_wf st → cache_wf st') ∧ cached_is name st' = true.
Proof.
  cbn zeta. destruct (cached_is name st) eqn:Hc; [done |].
  split_and!; [done | |].
  - intros _ b [= <-]. simpl. lia.
  - unfold cached_is. simpl. apply String.eqb_refl.
Qed.

(** Any run of calls that all build their handle ends normally, with the
    client still connected and the identities still in order. *)
Lemma get_bucket_run (G : string → M unit) (names : list string) :
  (∀ name st, conn st = true → svc_bucket S name = None →
     G name st = (if cached_is name st then st else rebind name st, Ok tt)) →
  Forall (λ n, svc_bucket S n = None) names →
  ∀ st, conn st = true → cache_wf st →
  ∃ st', for_each G names st = (st', Ok tt) ∧ conn st' = true ∧ cache_wf st'
         ∧ (∀ n, last names = Some n → cached_is n st' = true).
Proof.
  intros HG. induction 1 as [|n names Hn Hall IH]; intros st Hc Hwf.
  - exists st. by split_and!.
  - cbn [for_each]. run. rewrite (HG n st Hc Hn).
    destruct (step_keeps n st) as (Hc' & Hwf' & Hn').
    destruct (IH _ (eq_trans Hc' Hc) (Hwf' Hwf)) as (st' & Hrun & Hc'' & Hwf'' & Hlast).
    exists st'. rewrite Hrun. split_and!; [done..|].
    intros m Hm. destruct names as [|n' names'].
    + simpl in Hm. injection Hm as <-. simpl in Hrun. by injection Hrun as <-.
    + apply Hlast. by rewrite last_cons_cons in Hm.
Qed.

(** [_get_bucket] of [S3Download] logs a failed construction and leaves
    the cached handle as it was. *)
Lemma s3_get_bucket_fails (name : string) (st : state) (e : exn) :
  conn st = true → cached_is name st = false → svc_bucket S name = Some e →
  S3Download._get_bucket S name st
  = (add_event (ELog ERROR "Could not connect to the S3 bucket!") st, Ok tt).
Proof.
  intros Hc Hcached Hs. unfold S3Download._get_bucket, S3Download.conn_Bucket.
  unfold cached_is in Hcached. run.
  destruct (bucket st) as [b|]; [rewrite Hcached |]; cbn [negb]; by rewrite Hc, Hs.
Qed.

(** [_get_bucket] of [GoogleStorageDownload] drops the cached handle before
    it builds the new one: when the constructor raises, the client is left
    without a handle, after a log for [NotFound] and with the exception on
    its way out for any other. *)
Lemma gs_get_bucket_fails (name : string) (st : state) (e : exn) :
  conn st = true → cached_is name st = false → svc_bucket S name = Some e →
  ∃ st',
    GoogleStorageDownload._get_bucket S name st
    = (st', match e with NotFound => Ok tt | _ => Raise e end)
    ∧ bucket st' = None ∧ fs st' = fs st
    ∧ events st'
      = (events st ++ match e with
                      | NotFound => [ELog ERROR "Could not get the bucket"]
                      | _ => []
                      end)%list.
Proof.
  intros Hc Hcached Hs.
  unfold GoogleStorageDownload._get_bucket, GoogleStorageDownload.storage_Bucket.
  unfold cached_is in Hcached. run. rewrite Hc. cbn [negb].
  destruct (bucket st) as [b|] eqn:Hb.
  - rewrite Hcached. cbn [negb bucket set_bucket]. rewrite Hs.
    destruct e; eexists; (split_and!; [done.. |]); cbn [events set_bucket add_event];
      by rewrite ?app_nil_r.
  - rewrite Hb, Hs.
    destruct e; eexists; (split_and!; [done.. |]); cbn [events set_bucket add_event];
      by rewrite ?app_nil_r.
Qed.

(** A client without connection resolves nothing. *)
Lemma get_bucket_unconnected (name : string) (st : state) :
  conn st = false →
  (∃ st', S3Download._get_bucket S name st = (st', Ok tt) ∧ bucket st' = bucket st)
  ∧ GoogleStorageDownload._get_bucket S name st = (st, Ok tt).
Proof.
  intros Hc. split.
  - unfold S3Download._get_bucket, S3Download.conn_Bucket. run.
    destruct (match bucket st with
              | Some b => negb (String.eqb (h_name b) name)
              | None => true
              end); [| by eexists].
    rewrite Hc. cbn [negb]. by eexists.
  - unfold GoogleStorageDownload._get_bucket. run. by rewrite Hc.
Qed.

End cache.

(** C9, the claim as it stands: it fails for a name whose handle cannot
    be built. [_get_bucket] of [GoogleStorageDownload], asked for a bucket
    the service answers [NotFound] for, leaves the client without a handle:
    the cached handle is not one for the name just asked for. *)
Lemma unbuilt_handle_is_not_cached :
  ¬ cache_law (GoogleStorageDownload._get_bucket (guarded_service NotFound))
      [] "private" resolved_client.
Proof.
  intros (st1 & st2 & Hrun & Hcall & _ & _ & Hname).
  injection Hrun as <-. vm_compute in Hcall. injection Hcall as <-.
  discriminate Hname.
Qed.

(** C9. From a connected client, after any run of [_get_bucket] calls whose
    handles the service builds, one more call, for [name], ends with the
    cached handle being one for [name]: when the cached handle was one for
    [name] already, the client is left as it was; otherwise a new handle
    object for [name], of an identity no handle had before, has taken the
    place of the old one. This holds of [S3Download._get_bucket] and of
    [GoogleStorageDownload._get_bucket]. A name whose handle the service
    does not build is not resolved: [GoogleStorageDownload], asked for a
    name other than the cached one, is left without a handle, after a log
    for [NotFound] and with any other exception raised; and a client
    without connection resolves nothing, its handle stays what it was. *)
Theorem bucket_cache_invariant (S : service) (names : list string) (name : string)
    (st : state) :
  (conn st = true → cache_wf st →
   Forall (λ n, svc_bucket S n = None) (names ++ [name]) →
   cache_law (S3Download._get_bucket S) names name st
   ∧ cache_law (GoogleStorageDownload._get_bucket S) names name st)
  ∧ (∀ e, conn st = true → cached_is name st = false → svc_bucket S name = Some e →
       ∃ st',
         GoogleStorageDownload._get_bucket S name st
         = (st', match e with NotFound => Ok tt | _ => Raise e end)
         ∧ bucket st' = None)
  ∧ (conn st = false →
     (∃ st', S3Download._get_bucket S name st = (st', Ok tt) ∧ bucket st' = bucket st)
     ∧ GoogleStorageDownload._get_bucket S name st = (st, Ok tt)).
Proof.
  split_and!.
  - intros Hc Hwf Hall. apply Forall_app in Hall as [Hnames Hname].
    apply Forall_inv in Hname.
    assert (∀ G,
      (∀ name st, conn st = true → svc_bucket S name = None →
         G name st = (if cached_is name st then st else rebind name st, Ok tt)) →
      cache_law G names name st) as Hlaw.
    { intros G HG.
      destruct (get_bucket_run S G names HG Hnames st Hc Hwf)
        as (st1 & Hrun & Hc1 & Hwf1 & _).
      exists st1, (if cached_is name st1 then st1 else rebind name st1).
      split_and!; [done | by apply HG | | |].
      - by intros ->.
      - intros ->. split; [done |].
        intros b Hb. specialize (Hwf1 b Hb). lia.
      - destruct (step_keeps name st1) as (_ & _ & Hn).
        revert Hn. generalize (if cached_is name st1 then st1 else rebind name st1).
        intros st2. unfold cached_is. destruct (bucket st2) as [b|]; [| done].
        intros Hn%String.eqb_eq. simpl. by rewrite Hn. }
    split; apply Hlaw; intros;
      [by apply s3_get_bucket_step | by apply gs_get_bucket_step].
  - intros e Hc Hcached Hs.
    destruct (gs_get_bucket_fails S name st e Hc Hcached Hs) as (st' & Hrun & Hb & _).
    by exists st'.
  - by apply get_bucket_unconnected.
Qed.

Lemma bucket_cache_invariant_witness :
  cache_law (S3Download._get_bucket sample_service) ["a"; "b"; "b"] "c" fresh_client
  ∧ cache_law (GoogleStorageDownload._get_bucket sample_service) ["a"; "b"; "b"] "c"
      fresh_client.
Proof.
  apply (proj1 (bucket_cache_invariant sample_service ["a"; "b"; "b"] "c" fresh_client)).
  - reflexivity.
  - intros b Hb. discriminate Hb.
  - repeat constructor.
Defined.

(** ** Path mapping and the checks of [recursive_download] at given inputs *)

Section evaluations.
#[local] Existing Instance posix.
#[local] Existing Instance FragmentRe.regex.

(** C2. For the object name [scenes/x/scenes/img.tif] and the prefix
    [scenes/], a literal prefix of it that occurs a second time further
    on, [_make_local_path] of both clients returns [/out/x/img.tif] under
    the base directory [/out]: both occurrences are taken out of the
    name, the one at the head and the later one, so the path is not the
    name with only its head stripped, [/out/x/scenes/img.tif]. *)
Theorem make_local_path_strips_every_occurrence :
  let name := "scenes/x/scenes/img.tif" in
  let s3 := S3Download._make_local_path false name (PStr "scenes/") (PStr "/out")
              fresh_client in
  let gs := GoogleStorageDownload._make_local_path false name (PStr "scenes/")
              (PStr "/out") fresh_client in
  PyStr.startswith name "scenes/" = true
  ∧ snd s3 = Ok (Some "/out/x/img.tif")
  ∧ snd gs = Ok (Some "/out/x/img.tif")
  ∧ snd s3 ≠ Ok (Some "/out/x/scenes/img.tif")
  ∧ snd gs ≠ Ok (Some "/out/x/scenes/img.tif").
Proof. cbn zeta. split_and!; [vm_compute; reflexivity.. | |]; by vm_compute. Qed.

(** C4. Handed the number 42 as [base_dst_dir], [recursive_download] of
    [S3Download] logs the input error and goes on: it lists the bucket
    and only ends, with an [AttributeError], when it maps the first path;
    [recursive_download] of [GoogleStorageDownload] does not look at the
    type at all and lists as well. The same happens for a
    [prefix_to_replace] that is a number. *)
Theorem recursive_download_lists_after_malformed_input :
  let s3 base prefix :=
    S3Download.recursive_download sample_service false
      (PStr "s3://bucket/scenes/2020/") base true false prefix PNone PNone
      fresh_client in
  let gs base prefix :=
    GoogleStorageDownload.recursive_download sample_service false
      (PStr "gs://bucket/scenes/2020/") base true false prefix PNone PNone
      fresh_client in
  (events (fst (s3 (PInt 42) PNone))
     = [ELog ERROR "Invalid input types!"; EList "bucket" "scenes/2020/";
        ELog INFO "Number of found objects under the input AWS S3 path"]
   ∧ snd (s3 (PInt 42) PNone) = Raise AttributeError)
  ∧ (events (fst (gs (PInt 42) PNone))
       = [EList "bucket" "scenes/2020/";
          ELog INFO "Number of found blobs under the input Google storage path"]
     ∧ snd (gs (PInt 42) PNone) = Raise AttributeError)
  ∧ (events (fst (s3 (PStr "/out") (PInt 7)))
       = [ELog ERROR "Invalid input types!"; EList "bucket" "scenes/2020/";
          ELog INFO "Number of found objects under the input AWS S3 path"]
     ∧ snd (s3 (PStr "/out") (PInt 7)) = Raise TypeError)
  ∧ (events (fst (gs (PStr "/out") (PInt 7)))
       = [EList "bucket" "scenes/2020/";
          ELog INFO "Number of found blobs under the input Google storage path"]
     ∧ snd (gs (PStr "/out") (PInt 7)) = Raise TypeError).
Proof. cbn zeta. split_and!; vm_compute; reflexivity. Qed.

End evaluations.

(** ** Rules for what a run leaves behind *)

Section keeps.
Context (Rel : state → state → Prop) `{!PreOrder Rel}.

Lemma keeps_ret {A} (a : A) : keeps Rel (mret a).
Proof. intros st st' r [= <- _]. reflexivity. Qed.

Lemma keeps_raise {A} (e : exn) : keeps Rel (raise (A:=A) e).
Proof. intros st st' r [= <- _]. reflexivity. Qed.

Lemma keeps_get : keeps Rel get.
Proof. intros st st' r [= <- _]. reflexivity. Qed.

Lemma keeps_modify (f : state → state) :
  (∀ st, Rel st (f st)) → keeps Rel (modify f).
Proof. intros Hf st st' r [= <- _]. apply Hf. Qed.

Lemma keeps_bind {A B} (m : M A) (f : A → M B) :
  keeps Rel m → (∀ a, keeps Rel (f a)) → keeps Rel (m ≫= f).
Proof.
  intros Hm Hf st st' r. run.
  destruct (m st) as [st1 [a|e]] eqn:Hrun.
  - intros Hk. etrans; [by eapply Hm | by eapply Hf].
  - intros [= <- _]. by eapply Hm.
Qed.

Lemma keeps_try {A} (m : M A) (h : exn → M A) :
  keeps Rel m → (∀ e, keeps Rel (h e)) → keeps Rel (try_except m h).
Proof.
  intros Hm Hh st st' r. run.
  destruct (m st) as [st1 [a|e]] eqn:Hrun.
  - intros [= <- _]. by eapply Hm.
  - intros Hk. etrans; [by eapply Hm | by eapply Hh].
Qed.

Lemma keeps_for_each {A} (f : A → M unit) (l : list A) :
  (∀ x, keeps Rel (f x)) → keeps Rel (for_each f l).
Proof.
  intros Hf. induction l as [|x l IH]; [by apply keeps_ret |].
  apply keeps_bind; [apply Hf | intros _; apply IH].
Qed.

End keeps.

(** A run of [m ≫= f] is a run of [m] that returns, followed by a run of
    [f], or a run of [m] that raises. *)
Lemma bind_inv {A B} (m : M A) (f : A → M B) (st st' : state) (r : result B) :
  (m ≫= f) st = (st', r) →
  (∃ st1 a, m st = (st1, Ok a) ∧ f a st1 = (st', r))
  ∨ (∃ e, m st = (st', Raise e) ∧ r = Raise e).
Proof.
  run. destruct (m st) as [st1 [a|e]].
  - intros Hf. left. by exists st1, a.
  - intros [= <- <-]. right. by exists e.
Qed.

#[global] Instance extends_preorder (Q : event → Prop) : PreOrder (extends Q).
Proof.
  split.
  - intros st. exists []. by rewrite app_nil_r.
  - intros st1 st2 st3 (evs1 & H1 & HQ1) (evs2 & H2 & HQ2).
    exists (evs1 ++ evs2)%list. rewrite H2, H1, <- List.app_assoc. split; [done |].
    by apply Forall_app.
Qed.

#[global] Instance quiet_preorder : PreOrder quiet.
Proof.
  split.
  - intros st. split; [done | reflexivity].
  - intros st1 st2 st3 [H1 E1] [H2 E2]. split; [congruence | by etrans].
Qed.

Lemma extends_add_event (Q : event → Prop) (e : event) (st : state) :
  Q e → extends Q st (add_event e st).
Proof. intros He. exists [e]. split; [done | by constructor]. Qed.

Lemma extends_same_events (Q : event → Prop) (st st' : state) :
  events st' = events st → extends Q st st'.
Proof. intros He. exists []. by rewrite app_nil_r. Qed.

Lemma quiet_add_event (e : event) (st : state) :
  is_log_or_list e → quiet st (add_event e st).
Proof. intros He. split; [done | by apply extends_add_event]. Qed.

Lemma quiet_same (st st' : state) :
  fs st' = fs st → events st' = events st → quiet st st'.
Proof. intros Hf He. split; [done | by apply extends_same_events]. Qed.

(** One step of a proof that a method keeps a relation: the rule of the
    construct at the head, or a case split on what it branches on. *)
Ltac keeps_step :=
  lazymatch goal with
  | |- keeps _ (mbind _ _) => apply keeps_bind; [apply _ | | intros ?]
  | |- keeps _ (mret _) => apply keeps_ret; apply _
  | |- keeps _ (raise _) => apply keeps_raise; apply _
  | |- keeps _ get => apply keeps_get; apply _
  | |- keeps _ (try_except _ _) => apply keeps_try; [apply _ | | intros ?]
  | |- keeps _ (for_each _ _) => apply keeps_for_each; [apply _ | intros ?]
  | |- keeps _ (if ?b then _ else _) => destruct b
  | |- keeps _ (match ?x with _ => _ end) => destruct x
  end.

(** Closes the leaves of such a proof for the relations [extends] and
    [quiet]: a changed field that is not the trace, or one more event. *)
Ltac keeps_leaf :=
  lazymatch goal with
  | |- keeps (extends _) (log _ _) =>
      apply keeps_modify; intros ?; by apply extends_add_event
  | |- keeps quiet (log _ _) =>
      apply keeps_modify; intros ?; by apply quiet_add_event
  | |- keeps (extends _) (modify (add_event _)) =>
      apply keeps_modify; intros ?; by apply extends_add_event
  | |- keeps quiet (modify (add_event _)) =>
      apply keeps_modify; intros ?; by apply quiet_add_event
  | |- keeps (extends _) (modify _) =>
      apply keeps_modify; intros ?; by apply extends_same_events
  | |- keeps quiet (modify _) =>
      apply keeps_modify; intros ?; by apply quiet_same
  end.

Ltac keeps_auto := repeat first [keeps_leaf | keeps_step].

(** ** A listing that fails *)

Section listing.
Context (S : service) {P : OsPath} {R : Regex} (is_windows : bool).

Lemma path_exists_keeps (Rel : state → state → Prop) `{!PreOrder Rel} (p : string) :
  keeps Rel (path_exists p).
Proof. unfold path_exists. keeps_auto. Qed.

Lemma s3_get_bucket_quiet (name : string) :
  keeps quiet (S3Download._get_bucket S name).
Proof.
  unfold S3Download._get_bucket, S3Download.conn_Bucket. keeps_auto.
Qed.

Lemma gs_get_bucket_quiet (name : string) :
  keeps quiet (GoogleStorageDownload._get_bucket S name).
Proof.
  unfold GoogleStorageDownload._get_bucket, GoogleStorageDownload.storage_Bucket.
  keeps_auto.
Qed.

Lemma os_makedirs_no_list (d : string) : keeps (extends not_list) (os_makedirs d).
Proof. unfold os_makedirs. keeps_auto. Qed.

Lemma s3_make_local_path_no_list (name : string) (prefix base : pyval) :
  keeps (extends not_list) (S3Download._make_local_path is_windows name prefix base).
Proof.
  unfold S3Download._make_local_path, S3Download._standardize_dir_path,
    arg_str, as_str.
  keeps_auto; try apply path_exists_keeps; try apply _; apply os_makedirs_no_list.
Qed.

Lemma extends_weaken (Q Q' : event → Prop) (st st' : state) :
  (∀ e, Q e → Q' e) → extends Q st st' → extends Q' st st'.
Proof.
  intros HQ (evs & He & Hall). exists evs. split; [done |].
  eapply Forall_impl; [done | by auto].
Qed.

(** An event of a run made of two parts belongs to one of the parts. *)
Lemma extends_split (Q1 Q2 : event → Prop) (st st1 st2 : state)
    (evs : list event) (e : event) :
  extends Q1 st st1 → extends Q2 st1 st2 →
  events st2 = (events st ++ evs)%list → e ∈ evs → Q1 e ∨ Q2 e.
Proof.
  intros (evs1 & H1 & HQ1) (evs2 & H2 & HQ2) He Hin.
  rewrite H2, H1, <- List.app_assoc in He. apply app_inv_head in He as <-.
  apply elem_of_app in Hin as [Hin | Hin]; [left | right].
  - by eapply Forall_forall in HQ1.
  - by eapply Forall_forall in HQ2.
Qed.

Lemma s3_get_bucket_ok (name : string) (st : state) :
  ∃ st', S3Download._get_bucket S name st = (st', Ok tt) ∧ extends is_log st st'.
Proof.
  unfold S3Download._get_bucket, S3Download.conn_Bucket. run.
  destruct (match bucket st with
            | Some b => negb (String.eqb (h_name b) name)
            | None => true
            end); [| by eexists].
  destruct (negb (conn st)).
  { eexists. split; [done |]. by apply extends_add_event. }
  destruct (svc_bucket S name).
  { eexists. split; [done |]. by apply extends_add_event. }
  eexists. split; [done |]. by apply extends_same_events.
Qed.

Lemma s3_list_quiet (s3_path inc exc : pyval) :
  keeps quiet (S3Download.list S s3_path inc exc).
Proof.
  unfold S3Download.list, S3Download._s3_path_parser, S3Download._list_objects,
    S3Download._filter_object_names, compile, arg_str, as_str.
  keeps_auto; apply s3_get_bucket_quiet.
Qed.

(** [list] of [S3Download] returns [None], or the service has listed. *)
Lemma s3_list_outcome (s3_path inc exc : pyval) (st st1 : state)
    (r1 : result (option (list object_info))) :
  S3Download.list S s3_path inc exc st = (st1, r1) →
  r1 = Ok None
  ∨ ∃ b0 p0 keys, svc_list S b0 p0 = Ok keys ∧ extends (only_listing b0 p0) st st1.
Proof.
  unfold S3Download.list.
  destruct (_ || _ || _)%bool eqn:Htypes.
  { run. intros [= _ <-]. by left. }
  destruct s3_path as [|s| |]; try done.
  run. destruct (negb (conn st)); [intros [= _ <-]; by left |].
  unfold S3Download._s3_path_parser. run. cbn [is_str negb].
  set (loc := {| bucket_name := _ |}).
  destruct (s3_get_bucket_ok (bucket_name loc) st) as (st2 & -> & Hext).
  destruct (bucket st2) as [b|] eqn:Hb; [| intros [= _ <-]; by left].
  unfold S3Download._list_objects. run. rewrite Hb.
  destruct (svc_list S (h_name b) (object_name loc)) as [keys|e] eqn:Hlist;
    [| intros [= _ <-]; by left].
  intros Hrun. right. exists (h_name b), (object_name loc), keys.
  split; [done |].
  assert (st1 = add_event (EList (h_name b) (object_name loc)) st2) as ->.
  { destruct (truthy inc || truthy exc)%bool; [| by injection Hrun as <-].
    rewrite filter_object_names_spec in Hrun.
    destruct (filter_spec keys inc exc); by injection Hrun as <-. }
  etrans; [by eapply extends_weaken; [| done]; left |].
  apply extends_add_event. by right.
Qed.

Lemma extends_events (Q : event → Prop) (st st' : state) (evs : list event) :
  extends Q st st' → events st' = (events st ++ evs)%list → Forall Q evs.
Proof.
  intros (evs' & He' & HQ) He. rewrite He' in He.
  by apply app_inv_head in He as <-.
Qed.

Lemma quiet_events (st st' : state) (evs : list event) :
  quiet st st' → events st' = (events st ++ evs)%list →
  fs st' = fs st ∧ Forall is_log_or_list evs.
Proof. intros [Hfs Hext] He. split; [done | by eapply extends_events]. Qed.

(** A failed listing is not the listing the service answered. *)
Lemma failed_listing_absurd (b0 p0 b p : string) (keys : list object_info)
    (e : exn) (Q : Prop) :
  svc_list S b0 p0 = Ok keys → svc_list S b p = Raise e →
  only_listing b0 p0 (EList b p) ∨ Q → Q.
Proof.
  intros Hok Hfail [[[] | [= -> ->]] | HQ]; [| done].
  rewrite Hok in Hfail. discriminate.
Qed.

Lemma s3_download_no_list (inp : string * string * bool) :
  keeps (extends not_list) (S3Download._download S inp).
Proof.
  unfold S3Download._download, S3Download.bucket_download_file, write_file,
    path_exists.
  keeps_auto.
Qed.

Lemma s3_download_args_no_list (keys : list object_info) (folder_map overwrite : bool)
    (prefix base : pyval) :
  keeps (extends not_list)
    (S3Download.download_args is_windows keys folder_map overwrite prefix base).
Proof.
  induction keys as [|k keys IH]; cbn [S3Download.download_args]; [keeps_auto |].
  unfold arg_str.
  keeps_auto; first [apply s3_make_local_path_no_list | apply IH].
Qed.

Lemma s3_list_ends (s3_path inc exc : pyval) :
  ends_on_failed_listing S (S3Download.list S s3_path inc exc) None.
Proof.
  intros st st' r evs b p e Hrun Hevs Hin Hfail.
  pose proof (s3_list_quiet _ _ _ _ _ _ Hrun) as Hq.
  destruct (s3_list_outcome _ _ _ _ _ _ Hrun) as [-> | (b0 & p0 & keys & Hok & Hext)].
  { split; [done |]. by eapply quiet_events. }
  exfalso. eapply (failed_listing_absurd b0 p0 b p); [done.. |].
  left. pose proof (extends_events _ _ _ _ Hext Hevs) as Hall.
  by eapply Forall_forall in Hall.
Qed.

Lemma s3_recursive_download_ends (s3_path base : pyval) (folder_map overwrite : bool)
    (prefix inc exc : pyval) :
  ends_on_failed_listing S
    (S3Download.recursive_download S is_windows s3_path base folder_map overwrite
       prefix inc exc) tt.
Proof.
  intros st st' r evs b p e Hrun Hevs Hin Hfail.
  unfold S3Download.recursive_download in Hrun.
  apply bind_inv in Hrun as [(st0 & [] & Hcheck & Hrun) | (e0 & Hcheck & _)];
    [| by destruct (_ || _)%bool].
  assert (extends is_log st st0 ∧ quiet st st0) as [Hlog0 Hq0].
  { destruct (_ || _)%bool; injection Hcheck as <-.
    - split; [by apply extends_add_event | by apply quiet_add_event].
    - split; reflexivity. }
  apply bind_inv in Hrun as [(st1 & keys & Hlist & Hrun) | (e1 & Hlist & ->)].
  - pose proof (s3_list_quiet _ _ _ _ _ _ Hlist) as Hq1.
    assert (quiet st (add_event (ELog INFO
      "No object is found under the input AWS S3 path to recursively download!")
      st1)) as Hnone.
    { etrans; [done |]. etrans; [done |]. by apply quiet_add_event. }
    destruct keys as [[|k ks]|];
      [injection Hrun as <- <-; split; [done | by eapply quiet_events] | |
       injection Hrun as <- <-; split; [done | by eapply quiet_events]].
    exfalso.
    destruct (s3_list_outcome _ _ _ _ _ _ Hlist)
      as [[=] | (b0 & p0 & keys & Hok & Hext)].
    eapply (failed_listing_absurd b0 p0 b p); [done.. |].
    eapply (extends_split _ not_list st st1 st'); [| | done..].
    + etrans; [| done]. eapply extends_weaken; [| done]. by left.
    + revert Hrun. generalize st1 st' r.
      lazymatch goal with
      | |- ∀ st1 st' r, ?m st1 = (st', r) → _ =>
          change (keeps (extends not_list) m)
      end.
      unfold S3Download._s3_path_parser, as_str.
      keeps_auto;
        first [apply s3_download_args_no_list | apply s3_download_no_list].
  - exfalso.
    destruct (s3_list_outcome _ _ _ _ _ _ Hlist)
      as [[=] | (b0 & p0 & keys & Hok & Hext)].
    eapply (failed_listing_absurd b0 p0 b p _ _ False); [done.. |].
    left. assert (extends (only_listing b0 p0) st st') as Hall.
    { etrans; [| done]. eapply extends_weaken; [| done]. by left. }
    apply (extends_events _ _ _ _ Hall) in Hevs.
    by eapply Forall_forall in Hevs.
Qed.

Lemma gs_make_local_path_no_list (name : string) (prefix base : pyval) :
  keeps (extends not_list)
    (GoogleStorageDownload._make_local_path is_windows name prefix base).
Proof.
  unfold GoogleStorageDownload._make_local_path,
    GoogleStorageDownload._normalize_dir_path, arg_str, as_str.
  keeps_auto; try apply path_exists_keeps; try apply _; apply os_makedirs_no_list.
Qed.

Lemma gs_download_no_list (inp : string * string * bool) :
  keeps (extends not_list) (GoogleStorageDownload._download S inp).
Proof.
  unfold GoogleStorageDownload._download,
    GoogleStorageDownload.blob_download_to_filename,
    GoogleStorageDownload.log_bucket, write_file, os_rename, os_remove,
    path_exists.
  keeps_auto.
Qed.

Lemma gs_download_args_no_list (blobs : list object_info)
    (folder_map overwrite : bool) (prefix base : pyval) :
  keeps (extends not_list)
    (GoogleStorageDownload.download_args is_windows blobs folder_map overwrite
       prefix base).
Proof.
  induction blobs as [|k blobs IH]; cbn [GoogleStorageDownload.download_args];
    [keeps_auto |].
  unfold arg_str.
  keeps_auto; first [apply gs_make_local_path_no_list | apply IH].
Qed.

Lemma gs_parse_keeps (Rel : state → state → Prop) `{!PreOrder Rel} (gs_path : pyval) :
  (∀ lvl msg st, Rel st (add_event (ELog lvl msg) st)) →
  keeps Rel (GoogleStorageDownload._parse_gs_path gs_path).
Proof.
  intros Hlog. unfold GoogleStorageDownload._parse_gs_path, log.
  keeps_auto; by apply keeps_modify.
Qed.

Lemma gs_get_bucket_logs (name : string) :
  keeps (extends is_log) (GoogleStorageDownload._get_bucket S name).
Proof.
  unfold GoogleStorageDownload._get_bucket, GoogleStorageDownload.storage_Bucket.
  keeps_auto.
Qed.

Lemma gs_list_quiet (gs_path inc exc : pyval) :
  keeps quiet (GoogleStorageDownload.list S gs_path inc exc).
Proof.
  unfold GoogleStorageDownload.list, GoogleStorageDownload._list,
    GoogleStorageDownload._filter_blob_names, GoogleStorageDownload.log_bucket,
    compile, arg_str, as_str.
  keeps_auto;
    first [apply gs_get_bucket_quiet
          | apply gs_parse_keeps; [apply _ | intros; by apply quiet_add_event]].
Qed.

(** [_list] returns [None], or the service has listed and [_list] returns
    what it listed, or [_list] raises before it asks the service. *)
Lemma gs__list_outcome (gs_path : pyval) (st st1 : state)
    (r1 : result (option (list object_info))) :
  GoogleStorageDownload._list S gs_path st = (st1, r1) →
  r1 = Ok None
  ∨ (∃ b0 p0 keys, svc_list S b0 p0 = Ok keys ∧ r1 = Ok (Some keys)
                   ∧ extends (only_listing b0 p0) st st1)
  ∨ ((∃ e, r1 = Raise e) ∧ extends is_log st st1).
Proof.
  unfold GoogleStorageDownload._list. intros Hrun.
  apply bind_inv in Hrun as [(st0 & [bn bp] & Hparse & Hrun) | (e0 & Hparse & ->)].
  2: { right; right. split; [by eexists |].
       eapply gs_parse_keeps; [apply _ | | done].
       intros. by apply extends_add_event. }
  assert (extends is_log st st0) as Hlog0.
  { eapply gs_parse_keeps; [apply _ | | done]. intros. by apply extends_add_event. }
  destruct bn as [bn|]; [destruct bp as [[|c bp]|] |];
    try (apply bind_inv in Hrun as [(? & ? & _ & [= _ <-]) | (? & _ & ->)];
         [by left | right; right; split; [by eexists |]]; fail).
  all: try (revert Hrun; run; intros [= _ <-]; by left).
  apply bind_inv in Hrun as [(st2 & [] & Hget & Hrun) | (e2 & Hget & ->)].
  2: { right; right. split; [by eexists |]. etrans; [done |].
       by eapply gs_get_bucket_logs. }
  assert (extends is_log st st2) as Hlog2.
  { etrans; [done |]. by eapply gs_get_bucket_logs. }
  revert Hrun. run. unfold GoogleStorageDownload.log_bucket. run.
  destruct (bucket st2) as [b|] eqn:Hb; [| intros [= _ <-]; by left].
  cbn [bucket add_event]. 
  destruct (svc_list S (h_name b) (String c bp)) as [keys|e] eqn:Hlist.
  - intros [= <- <-]. right; left. exists (h_name b), (String c bp), keys.
    split_and!; [done.. |].
    etrans; [by eapply extends_weaken; [| done]; left |].
    apply extends_add_event. by right.
  - destruct e; cbn [bucket add_event]; rewrite Hb; intros [= _ <-]; by left.
Qed.

(** The listing a run asked for and got is not one that failed, and a
    run that only logged asked for none. *)
Lemma listed_or_silent_absurd (st st' : state) (evs : list event) (b p : string)
    (e : exn) :
  events st' = (events st ++ evs)%list → EList b p ∈ evs →
  svc_list S b p = Raise e →
  (∃ b0 p0 keys, svc_list S b0 p0 = Ok keys ∧ extends (only_listing b0 p0) st st')
  ∨ extends is_log st st' →
  False.
Proof.
  intros Hevs Hin Hfail [(b0 & p0 & keys & Hok & Hext) | Hext];
    apply (extends_events _ _ _ _ Hext) in Hevs;
    eapply Forall_forall in Hevs; [| done | | done].
  - by eapply (failed_listing_absurd b0 p0 b p _ _ False); [..| left].
  - done.
Qed.

Lemma gs_list_outcome (gs_path inc exc : pyval) (st st1 : state)
    (r1 : result (option (list object_info))) :
  GoogleStorageDownload.list S gs_path inc exc st = (st1, r1) →
  r1 = Ok None
  ∨ (∃ b0 p0 keys, svc_list S b0 p0 = Ok keys ∧ extends (only_listing b0 p0) st st1)
  ∨ extends is_log st st1.
Proof.
  unfold GoogleStorageDownload.list.
  destruct (_ || _ || _)%bool.
  { run. intros [= _ <-]. by left. }
  intros Hrun.
  apply bind_inv in Hrun as [(st0 & blobs & Hlist & Hrun) | (e0 & Hlist & ->)].
  - destruct (gs__list_outcome _ _ _ _ Hlist)
      as [[= ->] | [(b0 & p0 & keys & Hok & [= ->] & Hext) | [[e [=]] _]]].
    { injection Hrun as _ <-. by left. }
    right; left. exists b0, p0, keys. split; [done |].
    assert (st1 = st0) as ->; [| done].
    destruct (truthy inc || truthy exc)%bool.
    + revert Hrun. run.
      change (GoogleStorageDownload._filter_blob_names keys inc exc st0)
        with (S3Download._filter_object_names keys inc exc st0).
      rewrite filter_object_names_spec.
      destruct (filter_spec keys inc exc); by intros [= <- _].
    + by injection Hrun as <-.
  - destruct (gs__list_outcome _ _ _ _ Hlist)
      as [[=] | [(b0 & p0 & keys & Hok & [=] & Hext) | [_ Hext]]].
    by right; right.
Qed.

Lemma gs_list_ends (gs_path inc exc : pyval) :
  ends_on_failed_listing S (GoogleStorageDownload.list S gs_path inc exc) None.
Proof.
  intros st st' r evs b p e Hrun Hevs Hin Hfail.
  pose proof (gs_list_quiet _ _ _ _ _ _ Hrun) as Hq.
  destruct (gs_list_outcome _ _ _ _ _ _ Hrun) as [-> | Hout].
  { split; [done |]. by eapply quiet_events. }
  exfalso. by eapply listed_or_silent_absurd.
Qed.

Lemma gs_recursive_download_ends (gs_path base : pyval) (folder_map overwrite : bool)
    (prefix inc exc : pyval) :
  ends_on_failed_listing S
    (GoogleStorageDownload.recursive_download S is_windows gs_path base folder_map
       overwrite prefix inc exc) tt.
Proof.
  intros st st' r evs b p e Hrun Hevs Hin Hfail.
  unfold GoogleStorageDownload.recursive_download in Hrun.
  apply bind_inv in Hrun as [(st1 & keys & Hlist & Hrun) | (e1 & Hlist & ->)].
  - pose proof (gs_list_quiet _ _ _ _ _ _ Hlist) as Hq1.
    assert (quiet st (add_event (ELog INFO
      "No blob is found under the input Google storage path to recursively download!")
      st1)) as Hnone.
    { etrans; [done |]. by apply quiet_add_event. }
    destruct keys as [[|k ks]|];
      [injection Hrun as <- <-; split; [done | by eapply quiet_events] | |
       injection Hrun as <- <-; split; [done | by eapply quiet_events]].
    exfalso.
    destruct (gs_list_outcome _ _ _ _ _ _ Hlist) as [[=] | Hout].
    assert (extends not_list st1 st') as Hrest.
    { revert Hrun. generalize st1 st' r.
      lazymatch goal with
      | |- ∀ st1 st' r, ?m st1 = (st', r) → _ =>
          change (keeps (extends not_list) m)
      end.
      keeps_auto;
        first [apply gs_download_args_no_list | apply gs_download_no_list
              | apply gs_parse_keeps; [apply _ | intros; by apply extends_add_event]]. }
    destruct Hout as [(b0 & p0 & keys & Hok & Hext) | Hext].
    + eapply (failed_listing_absurd b0 p0 b p); [done.. |].
      by eapply (extends_split _ not_list st st1 st').
    + by destruct (extends_split is_log not_list st st1 st' evs (EList b p)).
  - exfalso. destruct (gs_list_outcome _ _ _ _ _ _ Hlist) as [[=] | Hout].
    by eapply listed_or_silent_absurd.
Qed.

End listing.

(** C7. When the service is asked to list and raises, [list] of both
    clients returns [None], never a part of a listing, and
    [recursive_download] of both clients returns at once: in either case the
    disk is left as it was and the trace of the call holds nothing but log
    records and the listing call itself, so no path was mapped to a new
    directory and no object was fetched. *)
Theorem failed_listing_ends_the_call (S : service) (P : OsPath) (R : Regex)
    (is_windows : bool) (path base : pyval) (folder_map overwrite : bool)
    (prefix inc exc : pyval) :
  ends_on_failed_listing S (S3Download.list S path inc exc) None
  ∧ ends_on_failed_listing S
      (S3Download.recursive_download S is_windows path base folder_map overwrite
         prefix inc exc) tt
  ∧ ends_on_failed_listing S (GoogleStorageDownload.list S path inc exc) None
  ∧ ends_on_failed_listing S
      (GoogleStorageDownload.recursive_download S is_windows path base folder_map
         overwrite prefix inc exc) tt.
Proof.
  split_and!.
  - apply s3_list_ends.
  - apply s3_recursive_download_ends.
  - apply gs_list_ends.
  - apply gs_recursive_download_ends.
Qed.

Lemma failed_listing_ends_the_call_witness :
  let run :=
    S3Download.recursive_download (P:=posix) (R:=FragmentRe.regex) closed_service false
      (PStr "s3://bucket/scenes/") (PStr "/out") true false PNone PNone PNone
      fresh_client in
  snd run = Ok tt ∧ fs (fst run) = fs fresh_client
  ∧ Forall is_log_or_list (events (fst run)).
Proof.
  cbn zeta.
  apply (proj1 (proj2 (failed_listing_ends_the_call closed_service posix
                         FragmentRe.regex false (PStr "s3://bucket/scenes/")
                         (PStr "/out") true false PNone PNone PNone))
           fresh_client _ _ _ "bucket" "scenes/" (ClientError "403")).
  - apply surjective_pairing.
  - vm_compute. reflexivity.
  - vm_compute. apply list_elem_of_In. left. reflexivity.
  - reflexivity.
Defined.

(** ** The temporary path does not name the destination *)

Module PosixPathFacts.
Import PyStr PyStrFacts PosixPath.

(** A run of slashes is a prefix of [d ++ x] exactly when it is one of
    [d], for an [x] without slash. *)
Lemma prefix_cons (c e : ascii) (q d : string) :
  String.prefix (String c q) (String e d)
  = if ascii_dec c e then String.prefix q d else false.
Proof. reflexivity. Qed.

Lemma prefix_seps_app (q d x : string) :
  all_sep q = true → has_char "/" x = false → x ≠ "" →
  String.prefix q (d ++ x) = String.prefix q d.
Proof.
  intros Hq Hx Hne. revert d. induction q as [|c q IH]; intros d.
  - by destruct d, x.
  - cbn [all_sep] in Hq. apply andb_true_iff in Hq as [Hc Hq].
    apply Ascii.eqb_eq in Hc as ->.
    destruct d as [|e d].
    + rewrite app_nil_l. destruct x as [|y x]; [done |].
      cbn [has_char] in Hx. apply orb_false_iff in Hx as [Hy _].
      rewrite prefix_cons. destruct (ascii_dec "/" y) as [<- |]; [| done].
      by rewrite Ascii.eqb_refl in Hy.
    + rewrite app_cons, !prefix_cons.
      destruct (ascii_dec "/" e); [by apply IH | done].
Qed.

Lemma initial_slashes_app (d x : string) :
  has_char "/" x = false → x ≠ "" →
  initial_slashes (d ++ x) = initial_slashes d.
Proof.
  intros Hx Hne. unfold initial_slashes, startswith.
  by rewrite !prefix_seps_app.
Qed.

(** Appending text without separator extends the last component. *)
Lemma split_app_no_sep (d x : string) :
  has_char "/" x = false →
  ∃ init l, split "/" d = (init ++ [l])%list
            ∧ split "/" (d ++ x) = (init ++ [l +:+ x])%list.
Proof.
  intros Hx. induction d as [|c d (init & l & Hd & Hdx)].
  - exists [], "". rewrite app_nil_l. split; [done | by apply split_no_sep].
  - rewrite app_cons. simpl. rewrite Hd, Hdx.
    destruct (Ascii.eqb c "/").
    + by exists ("" :: init), l.
    + destruct init as [|h init]; simpl.
      * by exists [], (String c l).
      * by exists (String c h :: init), l.
Qed.

Lemma join_length_cons (c : string) (comps : list string) :
  join_length (c :: comps)
  = String.length c + match comps with [] => 0 | _ => 1 + join_length comps end.
Proof.
  unfold join_length, PyStr.join. destruct comps as [|c' comps]; simpl; [lia |].
  rewrite length_app. simpl. by rewrite app_nil_l.
Qed.

Lemma join_length_snoc (comps : list string) (c : string) :
  join_length (comps ++ [c])
  = match comps with [] => 0 | _ => join_length comps + 1 end + String.length c.
Proof.
  induction comps as [|c' comps IH]; [unfold join_length; simpl; lia |].
  rewrite <- app_comm_cons, !join_length_cons, IH.
  destruct comps; simpl; lia.
Qed.

Lemma join_length_removelast (comps : list string) :
  (join_length (removelast comps) ≤ join_length comps)%nat.
Proof.
  induction comps as [|c comps IH]; [done |].
  destruct comps as [|c' comps]; [unfold join_length; simpl; lia |].
  change (removelast (c :: c' :: comps)) with (c :: removelast (c' :: comps)).
  rewrite (join_length_cons c (c' :: comps)), (join_length_cons c (removelast _)).
  destruct (removelast (c' :: comps)); lia.
Qed.

(** A step of [normpath] adds at most the component and a separator. *)
Lemma norm_step_length (n : nat) (comps : list string) (c : string) :
  (join_length (norm_step n comps c)
   ≤ match comps with [] => 0 | _ => join_length comps + 1 end + String.length c)%nat.
Proof.
  unfold norm_step. assert (join_length [] = 0) as Hnil by done.
  destruct (_ || _)%bool; [destruct comps; lia |].
  destruct (_ || _ || _)%bool.
  - by rewrite join_length_snoc.
  - pose proof (join_length_removelast comps). destruct comps; [simpl; lia | lia].
Qed.

Lemma render_length (n : nat) (comps : list string) :
  (String.length (norm_render n comps)
   ≤ Nat.max 1 (String.length (slashes n) + join_length comps))%nat.
Proof.
  unfold norm_render, join_length.
  destruct (String.eqb _ _); [simpl; lia |]. rewrite length_app. lia.
Qed.

Lemma long_component (c : string) :
  (3 ≤ String.length c)%nat →
  String.eqb c "" = false ∧ String.eqb c "." = false ∧ String.eqb c ".." = false.
Proof.
  intros Hlen. split_and!; apply String.eqb_neq; intros ->; simpl in Hlen; lia.
Qed.

(** [normpath] tells a path from the path with a suffix of three or more
    characters, none a separator, added to its name. *)
Lemma normpath_sibling (d x : string) :
  has_char "/" x = false → (3 ≤ String.length x)%nat →
  normpath (d ++ x) ≠ normpath d.
Proof.
  intros Hx Hlen Heq. apply (f_equal String.length) in Heq.
  assert (x ≠ "") as Hne by (intros ->; simpl in Hlen; lia).
  destruct (split_app_no_sep d x Hx) as (init & l & Hd & Hdx).
  unfold normpath in Heq.
  assert (String.eqb (d ++ x) "" = false) as Hnonempty.
  { apply String.eqb_neq. intros H0. apply (f_equal String.length) in H0.
    rewrite length_app in H0. simpl in H0. lia. }
  rewrite Hnonempty, initial_slashes_app, Hd, Hdx, !fold_left_app in Heq by done.
  cbn [fold_left] in Heq.
  set (n := initial_slashes d) in *.
  set (st := fold_left (norm_step n) init []) in *.
  assert (3 ≤ String.length (l ++ x))%nat as Hlong by (rewrite length_app; lia).
  destruct (long_component _ Hlong) as (H1 & H2 & H3).
  assert (norm_step n st (l ++ x) = (st ++ [l +:+ x])%list) as Hstep.
  { unfold norm_step. by rewrite H1, H2, H3. }
  rewrite Hstep in Heq.
  assert (String.length (norm_render n (st ++ [l +:+ x]))
          = String.length (slashes n) + join_length (st ++ [l +:+ x])) as Hrender.
  { unfold norm_render, join_length. cbv zeta.
    destruct (String.eqb (slashes n +:+ _) _) eqn:Hempty; [| by rewrite length_app].
    apply String.eqb_eq in Hempty. apply (f_equal String.length) in Hempty.
    rewrite length_app in Hempty. fold (join_length (st ++ [l +:+ x])) in Hempty.
    rewrite join_length_snoc in Hempty. simpl in Hempty. lia. }
  rewrite Hrender, join_length_snoc, length_app in Heq.
  destruct (String.eqb d ""); [simpl in Heq; lia |].
  pose proof (render_length n (norm_step n st l)) as Hr.
  pose proof (norm_step_length n st l) as Hs.
  lia.
Qed.

End PosixPathFacts.

(** ** The download with a temporary file *)

(** On a POSIX host the temporary path and the destination are two paths. *)
Lemma key_temporary (home_of : string → option string) (dst : string) :
  key (P:=PosixPath.ops home_of) (dst ++ ".000") ≠ key (P:=PosixPath.ops home_of) dst.
Proof. apply PosixPathFacts.normpath_sibling; [reflexivity | simpl; lia]. Qed.

(** On a POSIX host [os.rename] is refused by a directory only. *)
Lemma posix_takes_rename (home_of : string → option string)
    (m : gmap string node) (dst : string) :
  takes_rename (P:=PosixPath.ops home_of) m dst = true →
  m !! key (P:=PosixPath.ops home_of) dst ≠ Some Dir.
Proof. unfold takes_rename. by destruct (m !! _) as [[|]|]. Qed.

Lemma posix_refuses_rename (home_of : string → option string)
    (m : gmap string node) (dst : string) :
  takes_rename (P:=PosixPath.ops home_of) m dst = false →
  m !! key (P:=PosixPath.ops home_of) dst = Some Dir.
Proof. unfold takes_rename. by destruct (m !! _) as [[|]|]. Qed.

Section atomic.
Context (S : service) {P : OsPath}.

Ltac fields := cbn [bucket conn next_id fs events add_event set_fs].

Lemma there_Some {A} (x : A) : bool_decide (is_Some (Some x)) = true.
Proof. reflexivity. Qed.

Lemma there_None {A} : bool_decide (is_Some (@None A)) = false.
Proof. reflexivity. Qed.

Lemma takes_rename_insert_ne (m : gmap string node) (p dst : string) (x : node) :
  p ≠ key dst → takes_rename (<[p := x]> m) dst = takes_rename m dst.
Proof. intros Hp. unfold takes_rename. by rewrite lookup_insert_ne. Qed.

Lemma gs_download_cases (st : state) (b : handle) (blob dst : string)
    (overwrite : bool) :
  key (dst ++ ".000") ≠ key dst →
  bucket st = Some b →
  let tmp := dst ++ ".000" in
  let fetch := EFetch (h_name b) blob tmp in
  ∃ st', GoogleStorageDownload._download S (blob, dst, overwrite) st = (st', Ok tt)
    ∧ bucket st' = Some b
    ∧ ((overwrite = false ∧ is_Some (fs st !! key dst)
        ∧ st' = add_event (ELog INFO "already EXISTS - skipped downloading") st)
       ∨ ((overwrite = true ∨ fs st !! key dst = None)
          ∧ ∃ logs, events st' = (events st ++ fetch :: logs)%list
              ∧ Forall is_log logs
              ∧ ((∃ data, svc_fetch S (h_name b) blob = Fetched data
                    ∧ takes_rename (fs st) dst = true
                    ∧ logs = [ELog INFO "File is downloaded"]
                    ∧ fs st' = <[key dst := File data]> (delete (key tmp) (fs st)))
                 ∨ (∃ data, svc_fetch S (h_name b) blob = Fetched data
                      ∧ takes_rename (fs st) dst = false
                      ∧ logs = [ELog ERROR "Could NOT download the Google Cloud blob!"]
                      ∧ fs st' = delete (key tmp) (fs st))
                 ∨ (∃ written e, svc_fetch S (h_name b) blob = FetchFailed written e
                      ∧ (fs st' = delete (key tmp) (fs st)
                         ∨ (written = None ∧ fs st' = fs st
                            ∧ ∀ data, fs st !! key tmp ≠ Some (File data))))))).
Proof.
  intros Hkey Hb tmp fetch.
  unfold GoogleStorageDownload._download, path_exists,
    GoogleStorageDownload.blob_download_to_filename, os_rename, os_remove,
    write_file, GoogleStorageDownload.log_bucket.
  run. fold tmp.
  destruct (negb overwrite && bool_decide (is_Some (fs st !! key dst)))%bool eqn:Hskip.
  { apply andb_true_iff in Hskip as [Ho Hthere].
    apply negb_true_iff in Ho. apply bool_decide_eq_true in Hthere.
    eexists. split_and!; [done.. |]. by left. }
  assert (overwrite = true ∨ fs st !! key dst = None) as Hgo.
  { apply andb_false_iff in Hskip as [Ho | Hthere].
    - left. by apply negb_false_iff in Ho.
    - right. apply bool_decide_eq_false in Hthere.
      by apply eq_None_not_Some. }
  rewrite Hb. fields.
  destruct (svc_fetch S (h_name b) blob) as [data | [part|] e] eqn:Hfetch.
  - fields. rewrite lookup_insert_eq.
    assert (String.eqb (key tmp) (key dst) = false) as -> by (by apply String.eqb_neq).
    rewrite takes_rename_insert_ne by done.
    destruct (takes_rename (fs st) dst) eqn:Htakes.
    + fields. rewrite Hb. fields.
      rewrite lookup_insert_ne, lookup_delete_eq by done.
      rewrite bool_decide_eq_false_2 by (by intros [? ?]).
      eexists. split_and!; [done.. |]. right. split; [done |].
      exists [ELog INFO "File is downloaded"]. fields.
      split_and!; [by rewrite <- List.app_assoc | by repeat constructor |].
      left. exists data. by rewrite delete_insert_eq.
    + fields. rewrite Hb. fields. rewrite lookup_insert_eq, there_Some.
      fields. rewrite lookup_insert_eq.
      eexists. split_and!; [done.. |]. right. split; [done |].
      exists [ELog ERROR "Could NOT download the Google Cloud blob!"]. fields.
      split_and!; [by rewrite <- List.app_assoc | by repeat constructor |].
      right. left. exists data. by rewrite delete_insert_eq.
  - destruct e; fields; rewrite Hb; fields; rewrite lookup_insert_eq;
      rewrite there_Some; fields; rewrite lookup_insert_eq;
      (eexists; split_and!; [done.. |]; right; split; [done |];
       eexists [ELog ERROR _]; fields;
       split_and!; [by rewrite <- List.app_assoc | by repeat constructor |];
       right; right; do 2 eexists; split; [done |]; left; by rewrite delete_insert_eq).
  - assert (fs st !! key tmp = None
            ∨ (∃ data, fs st !! key tmp = Some (File data))
            ∨ fs st !! key tmp = Some Dir) as Htmp.
    { destruct (fs st !! key tmp) as [[data|]|]; eauto. }
    destruct Htmp as [Htmp | [[data Htmp] | Htmp]];
      destruct e; fields; rewrite Hb; fields; rewrite Htmp;
      rewrite ?there_Some, ?there_None; fields; rewrite ?Htmp; fields;
      (eexists; split_and!; [done.. |]; right; split; [done |]);
      (eexists; fields;
       split_and!; [by rewrite <- !List.app_assoc | by repeat constructor |]);
      (right; right; do 2 eexists; split; [done |]);
      first [by left | right; by split_and!].
Qed.

Lemma fetch_in_trace (st st' : state) (fetch : event) (logs : list event)
    (bk k p : string) :
  events st' = (events st ++ fetch :: logs)%list → Forall is_log logs →
  EFetch bk k p ∈ events st' →
  EFetch bk k p ∈ events st ∨ EFetch bk k p = fetch.
Proof.
  intros -> Hlogs [Hin | [-> | Hin]%elem_of_cons]%elem_of_app; [by left | by right |].
  rewrite Forall_forall in Hlogs. by apply Hlogs in Hin.
Qed.

End atomic.

(** C3. [_download] of [GoogleStorageDownload] on a POSIX host, on a
    client that has resolved its bucket, returns normally and
    - asks the service to write to no other path than the temporary path,
      the destination extended by [.000];
    - changes no path of the disk but the destination and the temporary
      path;
    - leaves the destination as it was unless the fetch delivered the whole
      object, and then the destination holds that object: it gets its
      content by the rename only;
    - whenever it went to fetch, leaves no file at the temporary path,
      whether the fetch, the rename or nothing failed;
    - after a fetch that delivered: when the destination is a directory the
      rename fails, the error is logged, the directory stays and the
      temporary file is removed; otherwise the destination holds the
      object and the temporary path is gone;
    - so that after a fetch that raised with some bytes written, to a
      destination that did not exist, neither the destination nor the
      temporary path exists. *)
Theorem atomic_download (S : service) (home_of : string → option string)
    (st : state) (b : handle) (blob dst : string) (overwrite : bool) :
  let P := PosixPath.ops home_of in
  let tmp := dst ++ ".000" in
  bucket st = Some b →
  ∃ st',
    GoogleStorageDownload._download S (blob, dst, overwrite) st = (st', Ok tt)
    ∧ (∀ bk k p, EFetch bk k p ∈ events st' → EFetch bk k p ∈ events st ∨ p = tmp)
    ∧ (∀ p, p ≠ key dst → p ≠ key tmp → fs st' !! p = fs st !! p)
    ∧ (fs st' !! key dst = fs st !! key dst
       ∨ ∃ data, svc_fetch S (h_name b) blob = Fetched data
                 ∧ fs st' !! key dst = Some (File data))
    ∧ (overwrite = true ∨ fs st !! key dst = None →
       ∀ data, fs st' !! key tmp ≠ Some (File data))
    ∧ (overwrite = true ∨ fs st !! key dst = None →
       ∀ data, svc_fetch S (h_name b) blob = Fetched data →
         (fs st !! key dst = Some Dir →
            fs st' !! key dst = Some Dir ∧ fs st' !! key tmp = None
            ∧ ELog ERROR "Could NOT download the Google Cloud blob!" ∈ events st')
         ∧ (fs st !! key dst ≠ Some Dir →
              fs st' !! key dst = Some (File data) ∧ fs st' !! key tmp = None))
    ∧ (∀ part e, svc_fetch S (h_name b) blob = FetchFailed (Some part) e →
       fs st !! key dst = None →
       fs st' !! key dst = None ∧ fs st' !! key tmp = None).
Proof.
  intros P tmp Hb. subst P tmp. pose proof (key_temporary home_of dst) as Hkey.
  destruct (gs_download_cases S st b blob dst overwrite Hkey Hb)
    as (st' & Hrun & _ & Hcases).
  exists st'. split; [done |].
  destruct Hcases as [(Ho & Hthere & ->) | (Hgo & logs & Hev & Hlogs & Hfs)].
  { split_and!; [| done | by left | | |].
    - intros bk k p [Hin | [=]%list_elem_of_singleton]%elem_of_app. by left.
    - intros [-> | Hnone]; [done |]. rewrite Hnone in Hthere. by destruct Hthere.
    - intros [-> | Hnone]; [done |]. rewrite Hnone in Hthere. by destruct Hthere.
    - intros part e _ Hnone. rewrite Hnone in Hthere. by destruct Hthere. }
  split.
  { intros bk k p Hin.
    destruct (fetch_in_trace _ _ _ _ _ _ _ Hev Hlogs Hin) as [? | [= _ _ ->]];
      [by left | by right]. }
  destruct Hfs as [(data & Hfetch & Htakes & -> & ->)
                  | [(data & Hfetch & Htakes & -> & ->)
                    | (w & e & Hfetch & [-> | (-> & -> & Htmp)])]].
  - apply posix_takes_rename in Htakes.
    split_and!.
    + intros p Hd Ht. by rewrite lookup_insert_ne, lookup_delete_ne.
    + right. exists data. by rewrite lookup_insert_eq.
    + intros _ data'. by rewrite lookup_insert_ne, lookup_delete_eq.
    + intros _ data'. rewrite Hfetch. intros [= <-]. split; [done |].
      intros _. by rewrite lookup_insert_eq, lookup_insert_ne, lookup_delete_eq.
    + intros part e. by rewrite Hfetch.
  - apply posix_refuses_rename in Htakes.
    split_and!.
    + intros p Hd Ht. by rewrite lookup_delete_ne.
    + left. by rewrite lookup_delete_ne.
    + intros _ data'. by rewrite lookup_delete_eq.
    + intros _ data'. rewrite Hfetch. intros [= <-]. split; [| done].
      intros _. rewrite lookup_delete_ne, lookup_delete_eq by done.
      split_and!; [done.. |]. rewrite Hev.
      apply elem_of_app. right. apply elem_of_cons. right.
      by apply list_elem_of_singleton.
    + intros part e. by rewrite Hfetch.
  - split_and!.
    + intros p Hd Ht. by rewrite lookup_delete_ne.
    + left. by rewrite lookup_delete_ne.
    + intros _ data'. by rewrite lookup_delete_eq.
    + intros _ data'. by rewrite Hfetch.
    + intros part e' _ Hnone. by rewrite lookup_delete_ne, lookup_delete_eq.
  - split_and!; [done | by left | done | |].
    + intros _ data'. by rewrite Hfetch.
    + intros part e'. by rewrite Hfetch.
Qed.

Lemma atomic_download_witness :
  (∃ st',
     GoogleStorageDownload._download (P:=posix) sample_service
       ("lost/x.tif", "/out/x.tif", false) resolved_client = (st', Ok tt)
     ∧ fs st' !! "/out/x.tif" = None ∧ fs st' !! "/out/x.tif.000" = None)
  ∧ (∃ st',
       GoogleStorageDownload._download (P:=posix) sample_service
         ("scenes/2020/", "/out/", true) resolved_client = (st', Ok tt)
       ∧ fs st' !! "/out" = Some Dir ∧ fs st' !! "/out/.000" = None
       ∧ ELog ERROR "Could NOT download the Google Cloud blob!" ∈ events st').
Proof.
  split.
  - destruct (atomic_download sample_service
                (λ user, if String.eqb user "" then Some "/home/user" else None)
                resolved_client {| h_name := "bucket"; h_id := 0 |}
                "lost/x.tif" "/out/x.tif" false eq_refl)
      as (st' & Hrun & _ & _ & _ & _ & _ & Hfail).
    exists st'. split; [exact Hrun |].
    apply (Hfail "par" NotFound); reflexivity.
  - destruct (atomic_download sample_service
                (λ user, if String.eqb user "" then Some "/home/user" else None)
                resolved_client {| h_name := "bucket"; h_id := 0 |}
                "scenes/2020/" "/out/" true eq_refl)
      as (st' & Hrun & _ & _ & _ & _ & Hdelivered & _).
    exists st'. split; [exact Hrun |].
    apply (proj1 (Hdelivered (or_introl eq_refl) "data of scenes/2020/" eq_refl)).
    reflexivity.
Defined.

(** ** The download that writes to the destination *)

Section direct.
Context (S : service) {P : OsPath}.

Ltac fields := cbn [bucket conn next_id fs events add_event set_fs].

(** The three ways [_download] of [S3Download] ends: the task is skipped,
    the client has no bucket, or the service was asked to fetch. *)
Lemma s3_download_cases (st : state) (src_key dst : string) (overwrite : bool) :
  ∃ st', S3Download._download S (src_key, dst, overwrite) st = (st', Ok tt)
    ∧ bucket st' = bucket st
    ∧ ((overwrite = false ∧ is_Some (fs st !! key dst)
        ∧ st' = add_event s3_skipped st)
       ∨ ((overwrite = true ∨ fs st !! key dst = None)
          ∧ ((bucket st = None
              ∧ st' = add_event (ELog ERROR "Failed to download!") st)
             ∨ ∃ b, bucket st = Some b
                 ∧ ((∃ data, svc_fetch S (h_name b) src_key = Fetched data
                       ∧ fs st' = <[key dst := File data]> (fs st)
                       ∧ events st'
                         = (events st ++ [EFetch (h_name b) src_key dst])%list)
                    ∨ (∃ written e msg,
                         svc_fetch S (h_name b) src_key = FetchFailed written e
                         ∧ fs st' = match written with
                                    | Some part => <[key dst := File part]> (fs st)
                                    | None => fs st
                                    end
                         ∧ events st'
                           = (events st ++ [EFetch (h_name b) src_key dst;
                                            ELog ERROR msg])%list))))).
Proof.
  unfold S3Download._download, path_exists, S3Download.bucket_download_file,
    write_file.
  run.
  destruct (negb overwrite && bool_decide (is_Some (fs st !! key dst)))%bool eqn:Hskip.
  { apply andb_true_iff in Hskip as [Ho Hthere].
    apply negb_true_iff in Ho. apply bool_decide_eq_true in Hthere.
    eexists. split_and!; [done.. |]. by left. }
  assert (overwrite = true ∨ fs st !! key dst = None) as Hgo.
  { apply andb_false_iff in Hskip as [Ho | Hthere].
    - left. by apply negb_false_iff in Ho.
    - right. apply bool_decide_eq_false in Hthere.
      by apply eq_None_not_Some. }
  destruct (bucket st) as [b|] eqn:Hb.
  2: { eexists. split_and!; [done.. |]. right. split; [done |]. by left. }
  fields.
  destruct (svc_fetch S (h_name b) src_key) as [data | written e] eqn:Hfetch.
  - eexists. split_and!; [done.. |]. right. split; [done |]. right.
    exists b. split; [done |]. left. by exists data.
  - destruct written as [part|], e as [| | | | |code| |]; fields;
      try destruct (String.eqb code "404");
      (eexists; split_and!; [done.. |]; right; split; [done |]; right;
       exists b; split; [done |]; right; do 3 eexists;
       split_and!; [done | done |]; fields; by rewrite <- List.app_assoc).
Qed.

(** One task: one attempt in the trace, no other path touched, and the
    object at the destination when the fetch of the task delivers it. *)
Lemma s3_download_step (st : state) (b : handle) (src_key dst : string)
    (overwrite : bool) :
  bucket st = Some b →
  ∃ st1 evs,
    S3Download._download S (src_key, dst, overwrite) st = (st1, Ok tt)
    ∧ bucket st1 = Some b
    ∧ events st1 = (events st ++ evs)%list
    ∧ (∃ e, List.filter is_attempt evs = [e]
            ∧ attempt_of b (src_key, dst, overwrite) e)
    ∧ (∀ p, p ≠ key dst → fs st1 !! p = fs st !! p)
    ∧ (∀ data, overwrite = true ∨ fs st !! key dst = None →
         svc_fetch S (h_name b) src_key = Fetched data →
         fs st1 !! key dst = Some (File data)).
Proof.
  intros Hb.
  destruct (s3_download_cases st src_key dst overwrite)
    as (st1 & Hrun & Hb1 & Hcases).
  rewrite Hb in Hb1.
  destruct Hcases as [(Ho & Hthere & ->) | (Hgo & [[Hnone _] | (b' & Hb' & Hfetch)])].
  - exists (add_event s3_skipped st), [s3_skipped].
    split_and!; [done.. | | done |].
    + exists s3_skipped. split; [done |]. by right.
    + intros data [-> | Hnone] _; [done |].
      rewrite Hnone in Hthere. by destruct Hthere.
  - by rewrite Hb in Hnone.
  - rewrite Hb in Hb'. injection Hb' as <-.
    destruct Hfetch as [(data & Hfetch & Hfs & Hev)
                       | (written & e & msg & Hfetch & Hfs & Hev)].
    + exists st1, [EFetch (h_name b) src_key dst].
      split_and!; [done.. | | |].
      * eexists. split; [done |]. by left.
      * intros p Hp. by rewrite Hfs, lookup_insert_ne.
      * intros data' _. rewrite Hfetch. intros [= <-].
        by rewrite Hfs, lookup_insert_eq.
    + exists st1, [EFetch (h_name b) src_key dst; ELog ERROR msg].
      split_and!; [done.. | | |].
      * eexists. split; [done |]. by left.
      * intros p Hp. rewrite Hfs. destruct written; [| done].
        by rewrite lookup_insert_ne.
      * intros data' _. by rewrite Hfetch.
Qed.

(** One task, as the specification words the outcome of a worker. *)
Lemma s3_task_outcome (st : state) (b : handle) (src_key dst : string)
    (overwrite : bool) :
  bucket st = Some b →
  ∃ st1,
    S3Download._download S (src_key, dst, overwrite) st = (st1, Ok tt)
    ∧ task_outcome S b (src_key, dst, overwrite) st st1.
Proof.
  intros Hb.
  destruct (s3_download_cases st src_key dst overwrite)
    as (st1 & Hrun & Hb1 & Hcases).
  rewrite Hb in Hb1. exists st1. split; [done |]. split; [done |].
  destruct Hcases as [(Ho & Hthere & ->) | (Hgo & [[Hnone _] | (b' & Hb' & Hfetch)])].
  - split; [done |]. left. by split_and!.
  - by rewrite Hb in Hnone.
  - rewrite Hb in Hb'. injection Hb' as <-.
    destruct Hfetch as [(data & Hfetch & Hfs & Hev)
                       | (written & e & msg & Hfetch & Hfs & Hev)].
    + split.
      * intros p Hp. by rewrite Hfs, lookup_insert_ne.
      * right. split; [done |]. left. exists data.
        split_and!; [done | | done]. by rewrite Hfs, lookup_insert_eq.
    + split.
      * intros p Hp. rewrite Hfs. destruct written; [| done].
        by rewrite lookup_insert_ne.
      * right. split; [done |]. right. by exists written, e, msg.
Qed.

End direct.

(** C6. The scheduler of [S3Download], the run of [_download] over the
    list of tasks that [recursive_download] hands to the pool, ends
    normally whatever the fetches do, for every list. The run is the tasks
    one after the other, each with the outcome of one worker: skipped, or
    fetched once, with the object at its destination when its fetch
    delivers and with the error logged right behind the fetch when it
    fails; a failure changes nothing for the task behind it but the disk
    it finds. Its trace holds, task by task and in the order of the list,
    exactly one attempt for every task: the fetch of that task or the
    record that it was skipped, never a second fetch. And the tasks do not
    depend on each other's fetches: when the destinations are distinct,
    every task that was due (it overwrites, or its destination did not
    exist) and whose own fetch delivers the object has the object at its
    destination in the end, whichever other tasks failed. *)
Theorem scheduler_isolates_failures (S : service) (P : OsPath)
    (tasks : list (string * string * bool)) (st : state) (b : handle) :
  bucket st = Some b →
  ∃ st' evs,
    for_each (S3Download._download S) tasks st = (st', Ok tt)
    ∧ scheduled S b tasks st st'
    ∧ events st' = (events st ++ evs)%list
    ∧ Forall2 (attempt_of b) tasks (List.filter is_attempt evs)
    ∧ (∀ p, p ∉ destination <$> tasks → fs st' !! p = fs st !! p)
    ∧ (NoDup (destination <$> tasks) →
       ∀ src_key dst overwrite data,
         (src_key, dst, overwrite) ∈ tasks →
         overwrite = true ∨ fs st !! key dst = None →
         svc_fetch S (h_name b) src_key = Fetched data →
         fs st' !! key dst = Some (File data)).
Proof.
  revert st. induction tasks as [|[[k d] ow] tasks IH]; intros st Hb.
  { exists st, []. split_and!; [done | done | by rewrite app_nil_r | constructor | done |].
    intros _ ???? Hin. by apply not_elem_of_nil in Hin. }
  destruct (s3_download_step S st b k d ow Hb)
    as (st1 & evs1 & Hrun1 & Hb1 & Hev1 & (e & Hfilter & Hattempt) & Hframe1 & Hdone1).
  destruct (s3_task_outcome S st b k d ow Hb) as (st1' & Hrun1' & Houtcome).
  rewrite Hrun1 in Hrun1'. injection Hrun1' as <-.
  destruct (IH st1 Hb1) as (st' & evs & Hrun & Hsched & Hev & Hattempts & Hframe & Hdone).
  exists st', (evs1 ++ evs)%list. split_and!.
  - cbn [for_each]. run. by rewrite Hrun1.
  - by exists st1.
  - by rewrite Hev, Hev1, <- List.app_assoc.
  - rewrite List.filter_app, Hfilter. by constructor.
  - intros p Hp. rewrite fmap_cons in Hp.
    apply not_elem_of_cons in Hp as [Hp1 Hp].
    rewrite Hframe by done. by apply Hframe1.
  - rewrite fmap_cons. intros [Hfresh Hnodup]%NoDup_cons k0 d0 ow0 data Hin Hdue Hfetch.
    apply elem_of_cons in Hin as [[= -> -> ->] | Hin].
    + rewrite Hframe by done. by apply Hdone1.
    + assert (key d0 ≠ key d) as Hne.
      { intros Heq. apply Hfresh. unfold destination at 1. cbn [fst snd].
        rewrite <- Heq. by apply (list_elem_of_fmap_2 destination _ (k0, d0, ow0)). }
      apply (Hdone Hnodup k0 d0 ow0); [done | | done].
      by rewrite Hframe1.
Qed.

Lemma scheduler_isolates_failures_witness :
  ∃ st',
    for_each (S3Download._download (P:=posix) sample_service) five_tasks
      resolved_client = (st', Ok tt)
    ∧ fs st' !! "/out/1" = Some (File "data of k1")
    ∧ fs st' !! "/out/3" = Some (File "data of k3")
    ∧ fs st' !! "/out/4" = Some (File "data of k4")
    ∧ fs st' !! "/out/5" = Some (File "data of k5").
Proof.
  destruct (scheduler_isolates_failures sample_service posix five_tasks
              resolved_client {| h_name := "bucket"; h_id := 0 |} eq_refl)
    as (st' & evs & Hrun & _ & _ & _ & _ & Hdone).
  assert (NoDup (destination (P:=posix) <$> five_tasks)) as Hnodup.
  { apply (bool_decide_unpack _). vm_compute. exact I. }
  exists st'. split; [exact Hrun |].
  split_and!.
  - apply (Hdone Hnodup "k1" "/out/1" true); [| by left | reflexivity].
    apply list_elem_of_In. vm_compute. tauto.
  - apply (Hdone Hnodup "k3" "/out/3" true); [| by left | reflexivity].
    apply list_elem_of_In. vm_compute. tauto.
  - apply (Hdone Hnodup "k4" "/out/4" true); [| by left | reflexivity].
    apply list_elem_of_In. vm_compute. tauto.
  - apply (Hdone Hnodup "k5" "/out/5" true); [| by left | reflexivity].
    apply list_elem_of_In. vm_compute. tauto.
Defined.

(** ** Tasks whose destination exists *)

Section skipping.
Context (S : service) {P : OsPath}.

Lemma s3_download_skips (st : state) (src_key dst : string) :
  is_Some (fs st !! key dst) →
  S3Download._download S (src_key, dst, false) st = (add_event s3_skipped st, Ok tt).
Proof.
  intros Hthere. unfold S3Download._download, path_exists. run.
  by rewrite bool_decide_eq_true_2.
Qed.

Lemma gs_download_skips (st : state) (blob dst : string) :
  is_Some (fs st !! key dst) →
  GoogleStorageDownload._download S (blob, dst, false) st
  = (add_event gs_skipped st, Ok tt).
Proof.
  intros Hthere. unfold GoogleStorageDownload._download, path_exists. run.
  by rewrite bool_decide_eq_true_2.
Qed.

(** A scheduler that skips every settled task skips a list of them. *)
Lemma all_skipped_intro (D : string * string * bool → M unit) (skipped : event)
    (tasks : list (string * string * bool)) (st : state) :
  (∀ st k d, is_Some (fs st !! key d) →
     D (k, d, false) st = (add_event skipped st, Ok tt)) →
  Forall (settled st) tasks → all_skipped D skipped tasks st.
Proof.
  intros HD. revert st. induction tasks as [|[[k d] ow] tasks IH]; intros st Hall.
  { exists st. by rewrite app_nil_r. }
  apply Forall_cons in Hall as [[Ho Hthere] Hall]. cbn in Ho, Hthere. subst ow.
  destruct (IH (add_event skipped st)) as (st' & Hrun & Hfs & Hev).
  { eapply Forall_impl; [done |]. by intros t [??]. }
  exists st'. split_and!.
  - cbn [for_each]. run. by rewrite HD.
  - done.
  - rewrite Hev. cbn [events add_event fmap list_fmap].
    by rewrite <- List.app_assoc.
Qed.

End skipping.

(** ** A run that does not overwrite *)

Lemma lookup_made (m : gmap string node) (l : list string) (q : string) :
  foldr (λ p m, <[p := Dir]> m) m l !! q
  = if bool_decide (q ∈ l) then Some Dir else m !! q.
Proof.
  induction l as [|p l IH]; [done |].
  cbn [foldr]. destruct (decide (p = q)) as [-> | Hne].
  - rewrite lookup_insert_eq, bool_decide_eq_true_2; [done | by left].
  - rewrite lookup_insert_ne, IH by done.
    rewrite (bool_decide_ext (q ∈ p :: l) (q ∈ l)); [done |].
    rewrite elem_of_cons. clear IH. intuition congruence.
Qed.

Lemma keeps_for_each_where {A} (Rel : state → state → Prop) `{!PreOrder Rel}
    (f : A → M unit) (Q : A → Prop) (l : list A) :
  (∀ x, Q x → keeps Rel (f x)) → Forall Q l → keeps Rel (for_each f l).
Proof.
  intros Hf. induction 1 as [|x l Hx Hl IH]; [by apply keeps_ret |].
  apply keeps_bind; [done | by apply Hf | intros _; apply IH].
Qed.

Lemma keeps_bind_where {A B} (Rel : state → state → Prop) `{!PreOrder Rel}
    (m : M A) (f : A → M B) (Q : A → Prop) :
  keeps Rel m → (∀ st st1 a, m st = (st1, Ok a) → Q a) →
  (∀ a, Q a → keeps Rel (f a)) → keeps Rel (m ≫= f).
Proof.
  intros Hm HQ Hf st st' r. run.
  destruct (m st) as [st1 [a|e]] eqn:Hrun.
  - intros Hk. etrans; [by eapply Hm |]. eapply Hf; [by eapply HQ | done].
  - intros [= <- _]. by eapply Hm.
Qed.

Lemma keeps_weaken {A} (Rel Rel' : state → state → Prop) (m : M A) :
  (∀ st st', Rel st st' → Rel' st st') → keeps Rel m → keeps Rel' m.
Proof. intros Himp Hm st st' r Hrun. eapply Himp, Hm, Hrun. Qed.

#[global] Instance frozen_preorder : PreOrder frozen.
Proof.
  split.
  - intros st. split; [done | reflexivity].
  - intros st1 st2 st3 [H1 E1] [H2 E2]. split; [| by etrans].
    intros p Hp. rewrite H2; [by apply H1 |]. by rewrite H1.
Qed.

Lemma frozen_event (e : event) (st : state) :
  not_fetch e → frozen st (add_event e st).
Proof. intros He. split; [done | by apply extends_add_event]. Qed.

Lemma quiet_frozen (st st' : state) : quiet st st' → frozen st st'.
Proof.
  intros [Hfs Hext]. split; [intros p _; by rewrite Hfs |].
  eapply extends_weaken; [| done]. by intros [].
Qed.

Section rerun.
Context (S : service) {P : OsPath} {R : Regex} (is_windows : bool).

#[local] Instance only_missing_preorder : PreOrder only_missing.
Proof.
  split.
  - intros st. split; [done |]. exists []. rewrite app_nil_r. split; [done |].
    intros ??? Hin. by apply not_elem_of_nil in Hin.
  - intros st1 st2 st3 [H1 (evs1 & E1 & F1)] [H2 (evs2 & E2 & F2)]. split.
    + intros p Hp. rewrite H2; [by apply H1 |]. by rewrite H1.
    + exists (evs1 ++ evs2)%list. rewrite E2, E1, <- List.app_assoc.
      split; [done |]. intros bk k p [Hin | Hin]%elem_of_app; [by eapply F1 |].
      apply F2 in Hin. destruct (fs st1 !! key p) eqn:Hp; [| done].
      rewrite H1 in Hin by (by rewrite Hp). congruence.
Qed.

Lemma only_missing_event (e : event) (st : state) :
  is_fetch e = false → only_missing st (add_event e st).
Proof.
  intros He. split; [done |]. exists [e]. split; [done |].
  intros bk k p <-%list_elem_of_singleton. done.
Qed.

Lemma frozen_only_missing (st st' : state) : frozen st st' → only_missing st st'.
Proof.
  intros [Hfs (evs & Hev & Hall)]. split; [done |].
  exists evs. split; [done |]. intros bk k p Hin.
  rewrite Forall_forall in Hall. by apply Hall in Hin.
Qed.

Lemma os_makedirs_frozen (d : string) : keeps frozen (os_makedirs d).
Proof.
  intros st st' r. unfold os_makedirs. run. cbn [fs add_event].
  destruct (bool_decide (is_Some (fs st !! key d))) eqn:Hthere;
    [intros [= <- <-]; by apply frozen_event |].
  destruct (existsb (is_file (fs st)) _) eqn:Hfiles;
    [intros [= <- <-]; by apply frozen_event |].
  intros [= <- <-]. etrans; [by apply (frozen_event (EMakeDirs d)) |].
  split; [| by apply extends_same_events].
  intros q Hq. cbn [fs set_fs add_event] in *.
  pose proof (lookup_made (fs st) (key d :: ancestors (String.length (key d)) (key d)) q)
    as Hl.
  cbn [foldr] in Hl. rewrite Hl. clear Hl.
  destruct (bool_decide (q ∈ _)) eqn:Hin; [| done].
  apply bool_decide_eq_true in Hin. apply elem_of_cons in Hin as [-> | Hin].
  { apply bool_decide_eq_false in Hthere. by destruct Hthere. }
  destruct Hq as [[data|] Hq]; [| done].
  assert (existsb (is_file (fs st)) (ancestors (String.length (key d)) (key d)) = true)
    as Habs; [| congruence].
  apply existsb_exists. exists q. split; [by apply list_elem_of_In |].
  unfold is_file. by rewrite Hq.
Qed.

Lemma make_local_path_frozen (name : string) (prefix base : pyval) :
  keeps frozen (S3Download._make_local_path is_windows name prefix base).
Proof.
  unfold S3Download._make_local_path, S3Download._standardize_dir_path,
    arg_str, as_str, log.
  repeat first
    [ keeps_step
    | apply path_exists_keeps; apply _
    | apply os_makedirs_frozen
    | apply keeps_modify; intros ?; by apply frozen_event ].
Qed.

(** The tasks [download_args] makes carry the [overwrite] it was given. *)
Lemma download_args_flags (keys : list object_info) (folder_map overwrite : bool)
    (prefix base : pyval) (st st1 : state) (args : list (string * string * bool)) :
  S3Download.download_args is_windows keys folder_map overwrite prefix base st
    = (st1, Ok args) →
  Forall (λ t, t.2 = overwrite) args.
Proof.
  revert st st1 args. induction keys as [|k keys IH]; intros st st1 args.
  { intros [= _ <-]. constructor. }
  cbn [S3Download.download_args].
  intros [(sa & dst & _ & Hrest) | (e & _ & [=])]%bind_inv.
  apply bind_inv in Hrest as [(sb & rest & Hrest & Hret) | (e & _ & [=])].
  apply IH in Hrest. injection Hret as _ <-.
  destruct dst as [p|]; [| done]. destruct (S3Download.path_given _); [| done].
  by constructor.
Qed.

Lemma download_args_frozen (keys : list object_info)
    (folder_map overwrite : bool) (prefix base : pyval) :
  keeps frozen
    (S3Download.download_args is_windows keys folder_map overwrite prefix base).
Proof.
  induction keys as [|k keys IH]; cbn [S3Download.download_args];
    [keeps_step |].
  unfold arg_str.
  repeat first
    [ keeps_step | apply make_local_path_frozen | apply IH ].
Qed.

(** A task that does not overwrite is fetched only to a destination that
    is not there, and changes no path that is. *)
Lemma s3_download_only_missing (task : string * string * bool) :
  task.2 = false → keeps only_missing (S3Download._download S task).
Proof.
  destruct task as [[k d] ow]. cbn [snd]. intros -> st st' r Hrun.
  destruct (s3_download_cases S st k d false) as (st1 & Hrun1 & _ & Hcases).
  rewrite Hrun in Hrun1. injection Hrun1 as <- _.
  destruct Hcases as [(_ & _ & ->) | ([[=] | Hnone] & Hcase)];
    [by apply only_missing_event |].
  destruct Hcase as [[_ ->] | (b & _ & Hfetch)]; [by apply only_missing_event |].
  assert (∀ p, is_Some (fs st !! p) → p ≠ key d) as Hother.
  { intros p Hp ->. rewrite Hnone in Hp. by destruct Hp. }
  destruct Hfetch as [(data & _ & Hfs & Hev) | (written & e & msg & _ & Hfs & Hev)].
  - split.
    + intros p Hp. rewrite Hfs, lookup_insert_ne; [done |].
      intros <-. by eapply Hother.
    + eexists. split; [done |]. by intros bk k0 p [= _ _ ->]%list_elem_of_singleton.
  - split.
    + intros p Hp. rewrite Hfs. destruct written; [| done].
      rewrite lookup_insert_ne; [done |]. intros <-. by eapply Hother.
    + eexists. split; [done |].
      intros bk k0 p [[= _ _ ->] | [=]%list_elem_of_singleton]%elem_of_cons. done.
Qed.

Lemma s3_recursive_download_only_missing (path base prefix inc exc : pyval)
    (folder_map : bool) :
  keeps only_missing
    (S3Download.recursive_download S is_windows path base folder_map false
       prefix inc exc).
Proof.
  unfold S3Download.recursive_download, S3Download._s3_path_parser, as_str, log.
  repeat first
    [ lazymatch goal with
      | |- keeps _ (mbind _ (S3Download.download_args _ _ _ _ _ _)) =>
          apply (keeps_bind_where _ _ _ (Forall (λ t, t.2 = false)));
            [ apply (keeps_weaken frozen);
                [apply frozen_only_missing | apply download_args_frozen]
            | intros ???; apply download_args_flags
            | intros args Hargs;
              by apply (keeps_for_each_where _ _ (λ t, t.2 = false));
                [apply s3_download_only_missing |] ]
      | |- keeps _ (S3Download.list _ _ _ _) =>
          apply (keeps_weaken quiet);
            [intros ???; by apply frozen_only_missing, quiet_frozen | apply s3_list_quiet]
      end
    | keeps_step
    | apply keeps_modify; intros ?; by apply only_missing_event ].
Qed.

End rerun.

Section gs_rerun.
Context (S : service) (home_of : string → option string) {R : Regex}
  (is_windows : bool).

#[local] Instance rerun_path : OsPath := PosixPath.ops home_of.

Lemma fetched_to_app (evs1 evs2 : list event) (p : string) :
  fetched_to evs1 p ∨ fetched_to evs2 p → fetched_to (evs1 ++ evs2) p.
Proof.
  intros [(bk & k & q & Hin & Hq) | (bk & k & q & Hin & Hq)];
    exists bk, k, q; (split; [| done]); apply elem_of_app; [by left | by right].
Qed.

#[local] Instance only_missing_tmp_preorder : PreOrder only_missing_tmp.
Proof.
  split.
  - intros st. exists []. rewrite app_nil_r. split_and!; [done | by left |].
    intros ??? Hin. by apply not_elem_of_nil in Hin.
  - intros st1 st2 st3 (evs1 & E1 & A1 & B1) (evs2 & E2 & A2 & B2).
    exists (evs1 ++ evs2)%list. rewrite E2, E1, <- List.app_assoc.
    split_and!; [done | |].
    + intros p Hp. destruct (A1 p Hp) as [Heq | Hf];
        [| right; apply fetched_to_app; by left].
      destruct (A2 p) as [Heq2 | Hf]; [by rewrite Heq | left; congruence |].
      right. apply fetched_to_app. by right.
    + intros bk k q [Hin | Hin]%elem_of_app.
      * destruct (B1 _ _ _ Hin) as (dst & -> & [Hnone | Hf]); exists dst;
          (split; [done |]); [by left |]. right. apply fetched_to_app. by left.
      * destruct (B2 _ _ _ Hin) as (dst & -> & [Hnone | Hf]); exists dst;
          (split; [done |]); [| right; apply fetched_to_app; by right].
        destruct (fs st1 !! key dst) eqn:Hd; [| by left]. right.
        destruct (A1 (key dst)) as [Heq | Hf]; [by rewrite Hd | congruence |].
        apply fetched_to_app. by left.
Qed.

Lemma frozen_only_missing_tmp (st st' : state) :
  frozen st st' → only_missing_tmp st st'.
Proof.
  intros [Hfs (evs & Hev & Hall)]. exists evs. split_and!; [done | |].
  - intros p Hp. left. by apply Hfs.
  - intros bk k q Hin. rewrite Forall_forall in Hall. by apply Hall in Hin.
Qed.

Lemma only_missing_tmp_event (e : event) (st : state) :
  not_fetch e → only_missing_tmp st (add_event e st).
Proof. intros He. by apply frozen_only_missing_tmp, frozen_event. Qed.

(** A task that does not overwrite is fetched only when its destination
    is not there; the fetch goes to its temporary path and nothing else
    that was on the disk changes. *)
Lemma gs_download_only_missing (task : string * string * bool) :
  task.2 = false → keeps only_missing_tmp (GoogleStorageDownload._download S task).
Proof.
  destruct task as [[k d] ow]. cbn [snd]. intros -> st st' r Hrun.
  destruct (bucket st) as [b|] eqn:Hb.
  2: { revert Hrun.
       unfold GoogleStorageDownload._download, path_exists,
         GoogleStorageDownload.blob_download_to_filename,
         GoogleStorageDownload.log_bucket.
       run. cbn [negb andb].
       destruct (bool_decide (is_Some (fs st !! key d)));
         [intros [= <- _]; by apply only_missing_tmp_event |].
       rewrite Hb. cbv beta iota. rewrite Hb. intros [= <- _]. reflexivity. }
  assert (key (d ++ ".000") ≠ key d) as Hkey by apply key_temporary.
  destruct (gs_download_cases S st b k d false Hkey Hb) as (st1 & Hrun1 & _ & Hcases).
  rewrite Hrun in Hrun1. injection Hrun1 as <- _.
  destruct Hcases as [(_ & _ & ->) | ([[=] | Hnone] & logs & Hev & Hlogs & Hcase)];
    [by apply only_missing_tmp_event |].
  exists (EFetch (h_name b) k (d ++ ".000") :: logs). split; [done |].
  assert (fetched_to (EFetch (h_name b) k (d ++ ".000") :: logs) (key (d ++ ".000")))
    as Htmp.
  { exists (h_name b), k, (d ++ ".000"). split; [by left | done]. }
  split.
  - intros p Hp. destruct (decide (p = key (d ++ ".000"))) as [-> | Hpt]; [by right |].
    left. assert (p ≠ key d) as Hpd.
    { intros ->. rewrite Hnone in Hp. by destruct Hp. }
    destruct Hcase as [(data & _ & _ & _ & ->)
                      | [(data & _ & _ & _ & ->)
                        | (w & e & _ & [-> | (_ & -> & _)])]];
      by rewrite ?lookup_insert_ne, ?lookup_delete_ne.
  - intros bk k0 q [[= _ _ ->] | Hin]%elem_of_cons.
    + exists d. split; [done | by left].
    + rewrite Forall_forall in Hlogs. by apply Hlogs in Hin.
Qed.

Lemma gs_recursive_download_only_missing (path base prefix inc exc : pyval)
    (folder_map : bool) :
  keeps only_missing_tmp
    (GoogleStorageDownload.recursive_download S is_windows path base folder_map false
       prefix inc exc).
Proof.
  unfold GoogleStorageDownload.recursive_download, log.
  repeat first
    [ lazymatch goal with
      | |- keeps _ (mbind _ (GoogleStorageDownload.download_args _ _ _ _ _ _)) =>
          apply (keeps_bind_where _ _ _ (Forall (λ t, t.2 = false)));
            [ apply (keeps_weaken frozen);
                [apply frozen_only_missing_tmp | apply (download_args_frozen _ _ _ _ _ _)]
            | intros ???; apply (download_args_flags _ _ _)
            | intros args Hargs;
              by apply (keeps_for_each_where _ _ (λ t, t.2 = false));
                [apply gs_download_only_missing |] ]
      | |- keeps _ (GoogleStorageDownload.list _ _ _ _) =>
          apply (keeps_weaken quiet);
            [ intros ???; by apply frozen_only_missing_tmp, quiet_frozen
            | apply gs_list_quiet ]
      | |- keeps _ (GoogleStorageDownload._parse_gs_path _) =>
          apply gs_parse_keeps; [apply _ |]; intros; by apply only_missing_tmp_event
      end
    | keeps_step
    | apply keeps_modify; intros ?; by apply only_missing_tmp_event ].
Qed.

End gs_rerun.

(** C5, the claim as it stands: a second run fetches again what the first
    run did not leave on the disk. With a service that refuses the second
    of two scenes every time, the second run of [recursive_download]
    without [overwrite] asks the service for that scene again. *)
Lemma second_run_fetches_again :
  ¬ second_run_writes_nothing
      (S3Download.recursive_download (P:=posix) (R:=FragmentRe.regex) lossy_service false
         (PStr "s3://bucket/scenes/2020/") (PStr "/out") true false PNone PNone PNone)
      fresh_client.
Proof.
  intros Hclaim.
  set (run := S3Download.recursive_download (P:=posix) (R:=FragmentRe.regex)
                lossy_service false (PStr "s3://bucket/scenes/2020/") (PStr "/out")
                true false PNone PNone PNone) in *.
  set (st1 := (run fresh_client).1).
  destruct (Hclaim st1 (run fresh_client).2 (run st1).1 (run st1).2
              [EList "bucket" "scenes/2020/";
               ELog INFO "Number of found objects under the input AWS S3 path";
               ELog INFO "already EXISTS - skipped";
               EFetch "bucket" "scenes/2020/002/img2.tif" "/out/002/img2.tif";
               ELog ERROR "Failed to download!"])
    as [_ Hnone]; try (vm_compute; reflexivity).
  vm_compute in Hnone. discriminate.
Qed.

(** C5. A task that does not overwrite and whose destination exists is
    skipped by [_download] of both clients: the service is not asked to
    fetch and the disk, the existing file with it, is left as it was; the
    only effect is the log record of the skip. A task that does not
    overwrite and whose destination does not exist is fetched, by a client
    that has resolved its bucket. Hence a run of the scheduler over tasks
    whose destinations all exist writes nothing and ends every task as
    skipped. And hence every run of [recursive_download] without
    [overwrite], the second after a first among them, whatever the service
    answers and whether the run returns or raises:
    - of [S3Download], leaves every path that was on the disk as it was and
      fetches only to paths that were not on the disk when it began;
    - of [GoogleStorageDownload], on a POSIX host, leaves every path that
      was on the disk as it was, but for the temporary paths it fetched to,
      and fetches only to the temporary path of a destination that was not
      on the disk when it began (or that it had itself fetched to as a
      temporary path).
    What a first run left at its destinations is not fetched again; what
    it did not leave there is. *)
Theorem skip_existing_writes_nothing (S : service) (R : Regex) (is_windows : bool)
    (st : state) :
  (∀ P : OsPath,
     (∀ src_key dst, is_Some (fs st !! key dst) →
        S3Download._download S (src_key, dst, false) st
          = (add_event s3_skipped st, Ok tt)
        ∧ GoogleStorageDownload._download S (src_key, dst, false) st
          = (add_event gs_skipped st, Ok tt))
     ∧ (∀ tasks, Forall (settled st) tasks →
          all_skipped (S3Download._download S) s3_skipped tasks st
          ∧ all_skipped (GoogleStorageDownload._download S) gs_skipped tasks st)
     ∧ (∀ path base folder_map prefix inc exc st' r,
          S3Download.recursive_download S is_windows path base folder_map false
            prefix inc exc st = (st', r) →
          only_missing st st')
     ∧ (∀ b src_key dst, bucket st = Some b → fs st !! key dst = None →
          ∃ st' logs,
            S3Download._download S (src_key, dst, false) st = (st', Ok tt)
            ∧ events st' = (events st ++ EFetch (h_name b) src_key dst :: logs)%list
            ∧ Forall is_log logs))
  ∧ (∀ home_of,
       let P := PosixPath.ops home_of in
       (∀ path base folder_map prefix inc exc st' r,
          GoogleStorageDownload.recursive_download S is_windows
            path base folder_map false prefix inc exc st = (st', r) →
          only_missing_tmp st st')
       ∧ (∀ b blob dst, bucket st = Some b → fs st !! key dst = None →
            ∃ st' logs,
              GoogleStorageDownload._download S (blob, dst, false) st = (st', Ok tt)
              ∧ events st'
                = (events st ++ EFetch (h_name b) blob (dst ++ ".000") :: logs)%list
              ∧ Forall is_log logs)).
Proof.
  split; [intros P; split_and! | intros home_of P; split].
  - intros k d Hthere. split; [by apply s3_download_skips | by apply gs_download_skips].
  - intros tasks Hall. split; apply all_skipped_intro; try done.
    + intros. by apply s3_download_skips.
    + intros. by apply gs_download_skips.
  - intros path base folder_map prefix inc exc st' r Hrun.
    by eapply s3_recursive_download_only_missing.
  - intros b k d Hb Hnone.
    destruct (s3_download_cases S st k d false) as (st' & Hrun & _ & Hcases).
    destruct Hcases as [(_ & Hthere & _) | (_ & [[Hno _] | (b' & Hb' & Hfetch)])].
    + rewrite Hnone in Hthere. by destruct Hthere.
    + congruence.
    + rewrite Hb in Hb'. injection Hb' as <-.
      destruct Hfetch as [(data & _ & _ & Hev) | (written & e & msg & _ & _ & Hev)].
      * exists st', []. by split_and!.
      * exists st', [ELog ERROR msg]. split_and!; [done.. |]. by repeat constructor.
  - intros path base folder_map prefix inc exc st' r Hrun.
    by eapply gs_recursive_download_only_missing.
  - intros b k d Hb Hnone.
    assert (key (d ++ ".000") ≠ key d) as Hkey by apply key_temporary.
    destruct (gs_download_cases S st b k d false Hkey Hb) as (st' & Hrun & _ & Hcases).
    destruct Hcases as [(_ & Hthere & _) | (_ & logs & Hev & Hlogs & _)].
    + rewrite Hnone in Hthere. by destruct Hthere.
    + by exists st', logs.
Qed.

Lemma skip_existing_writes_nothing_witness :
  let run :=
    S3Download.recursive_download (P:=posix) (R:=FragmentRe.regex) sample_service false
      (PStr "s3://bucket/scenes/2020/") (PStr "/out") true false PNone PNone PNone in
  let st1 := (run fresh_client).1 in
  let st2 := (run st1).1 in
  (S3Download._download (P:=posix) sample_service
     ("scenes/img1.tif", "/out/img1.tif", false) populated_client
   = (add_event s3_skipped populated_client, Ok tt)
   ∧ GoogleStorageDownload._download (P:=posix) sample_service
       ("scenes/img1.tif", "/out/img1.tif", false) populated_client
     = (add_event gs_skipped populated_client, Ok tt))
  ∧ only_missing (P:=posix) st1 st2
  ∧ fs st1 !! "/out/001/img1.tif" = Some (File "data of scenes/2020/001/img1.tif")
  ∧ List.filter is_fetch (drop (length (events st1)) (events st2)) = [].
Proof.
  intros run st1 st2. split; [| split_and!].
  - apply (proj1 (proj1 (skip_existing_writes_nothing sample_service FragmentRe.regex
                           false populated_client) posix)
             "scenes/img1.tif" "/out/img1.tif").
    exists (File "old bytes"). reflexivity.
  - apply (proj1 (proj2 (proj2 (proj1 (skip_existing_writes_nothing sample_service
                                         FragmentRe.regex false st1) posix)))
             (PStr "s3://bucket/scenes/2020/") (PStr "/out") true PNone PNone PNone
             st2 (run st1).2).
    vm_compute. reflexivity.
  - vm_compute. reflexivity.
  - vm_compute. reflexivity.
Defined.

(** * Further properties of the clients *)

(** ** The parsers on locators that do not repeat the container *)

Section parsers_more.
Import PyStr PyStrFacts.

Lemma occurs_cons (old : string) (c : ascii) (s : string) :
  occurs old (String c s) = (String.prefix old (String c s) || occurs old s)%bool.
Proof. reflexivity. Qed.

(** Nothing is replaced in a string in which [old] does not occur. *)
Lemma replace_scan_no_occurrence (old new s : string) :
  occurs old s = false → replace_scan old new 0 s = s.
Proof.
  induction s as [|c s IH]; intros Ho; [done |].
  rewrite occurs_cons in Ho. apply orb_false_iff in Ho as [Hp Ho].
  cbn [replace_scan]. by rewrite Hp, IH.
Qed.

Lemma replace_no_occurrence (old new s : string) :
  old ≠ "" → occurs old s = false → replace s old new = s.
Proof.
  intros Hne Ho. destruct old as [|c old]; [done |].
  by apply replace_scan_no_occurrence.
Qed.

Lemma occurs_prefix (old s : string) :
  occurs old s = false → String.prefix old s = false.
Proof. destruct s; simpl; by intros [? _]%orb_false_iff. Qed.

(** The first component of a string ends at its first separator. *)
Lemma first_split_app (b rest : string) :
  has_char "/" b = false → first (split "/" (b ++ "/" ++ rest)) = b.
Proof.
  intros Hb. induction b as [|c b IH]; [done |].
  cbn [has_char] in Hb. apply orb_false_iff in Hb as [Hc Hb].
  rewrite app_cons. cbn [split]. rewrite Hc.
  specialize (IH Hb). destruct (split "/" (b ++ "/" ++ rest)); simpl in *; by subst.
Qed.

(** The first component of a string holds no separator. *)
Lemma first_split_no_sep (s : string) : has_char "/" (first (split "/" s)) = false.
Proof.
  induction s as [|c s IH]; [done |].
  cbn [split]. destruct (Ascii.eqb c "/") eqn:Hc; [done |].
  destruct (split "/" s); simpl in *; by rewrite Hc.
Qed.

(** What both parsers compute behind the scheme marker of a locator whose
    prefix does not repeat the container. *)
Lemma container_and_remainder (scheme b rest : string) :
  scheme ≠ "" →
  has_char "/" b = false → occurs (b ++ "/") rest = false →
  occurs scheme (b ++ "/" ++ rest) = false →
  let s := replace (scheme ++ b ++ "/" ++ rest) scheme "" in
  s = b ++ "/" ++ rest
  ∧ first (split "/" (b ++ "/" ++ rest)) = b
  ∧ replace (b ++ "/" ++ rest) (b ++ "/") "" = rest.
Proof.
  intros Hne Hb Hrest Hscheme. cbn zeta. split_and!.
  - rewrite replace_head by done. rewrite app_nil_l.
    by apply replace_no_occurrence.
  - by apply first_split_app.
  - rewrite <- app_assoc, replace_head by (by destruct b).
    rewrite app_nil_l. apply replace_no_occurrence; [by destruct b | done].
Qed.

(** X1. For a container name without ['/'] and a prefix in which neither
    the text ["container/"] nor the scheme marker occurs, both parsers
    return the container and the prefix as they stand in the locator;
    [_s3_path_parser] does so with and without the marker [s3://]. *)
Theorem parsers_split_at_first_separator (b rest : string) (st : state) :
  has_char "/" b = false →
  occurs (b ++ "/") rest = false →
  (occurs "s3://" (b ++ "/" ++ rest) = false →
     S3Download._s3_path_parser (PStr ("s3://" ++ b ++ "/" ++ rest)) st
       = (st, Ok {| bucket_name := b; object_name := rest |})
     ∧ S3Download._s3_path_parser (PStr (b ++ "/" ++ rest)) st
       = (st, Ok {| bucket_name := b; object_name := rest |}))
  ∧ (occurs "gs://" (b ++ "/" ++ rest) = false →
     GoogleStorageDownload._parse_gs_path (PStr ("gs://" ++ b ++ "/" ++ rest)) st
       = (st, Ok (Some b, Some rest))).
Proof.
  intros Hb Hrest. split; intros Hscheme.
  - destruct (container_and_remainder "s3://" b rest) as (H1 & H2 & H3); [done.. |].
    unfold S3Download._s3_path_parser. run. unfold startswith.
    rewrite prefix_app, (occurs_prefix _ _ Hscheme), H1, H2, H3. done.
  - destruct (container_and_remainder "gs://" b rest) as (H1 & H2 & H3); [done.. |].
    unfold GoogleStorageDownload._parse_gs_path. run. unfold startswith.
    rewrite prefix_app. cbn [negb]. by rewrite H1, H2, H3.
Qed.

Lemma parsers_split_at_first_separator_witness :
  S3Download._s3_path_parser (PStr "s3://landsat-pds/c1/L8/scene_list.gz") fresh_client
    = (fresh_client,
       Ok {| bucket_name := "landsat-pds"; object_name := "c1/L8/scene_list.gz" |})
  ∧ S3Download._s3_path_parser (PStr "landsat-pds/c1/L8/scene_list.gz") fresh_client
    = (fresh_client,
       Ok {| bucket_name := "landsat-pds"; object_name := "c1/L8/scene_list.gz" |}).
Proof.
  apply (proj1 (parsers_split_at_first_separator "landsat-pds" "c1/L8/scene_list.gz"
                  fresh_client eq_refl eq_refl)).
  reflexivity.
Defined.

(** X2. The container name a parser returns never holds a ['/'], whatever
    the string; [_parse_gs_path] returns a container and a blob name
    together or not at all, and returns them exactly for the strings that
    start with [gs://]; neither parser changes the client or the disk. *)
Theorem parsers_container_has_no_separator (v : pyval) (st : state) :
  (∀ st' loc, S3Download._s3_path_parser v st = (st', Ok loc) →
     st' = st ∧ has_char "/" (bucket_name loc) = false)
  ∧ (∃ st' r, GoogleStorageDownload._parse_gs_path v st = (st', Ok r)
       ∧ fs st' = fs st ∧ bucket st' = bucket st
       ∧ ((r = (None, None) ∧ ¬ ∃ s, v = PStr s ∧ startswith s "gs://" = true)
          ∨ (∃ b p, r = (Some b, Some p) ∧ has_char "/" b = false ∧ st' = st
                    ∧ ∃ s, v = PStr s ∧ startswith s "gs://" = true))).
Proof.
  split.
  - intros st' loc. unfold S3Download._s3_path_parser. run.
    destruct v as [|s| |]; cbn [is_str negb]; try done.
    intros [= <- <-]. split; [done |]. apply first_split_no_sep.
  - unfold GoogleStorageDownload._parse_gs_path. run.
    destruct v as [|s| |];
      try (do 2 eexists; split_and!; [done.. |]; left; split; [done |];
           by intros (? & ? & ?)).
    destruct (startswith s "gs://") eqn:Hs; cbn [negb].
    + do 2 eexists. split_and!; [done.. |]. right. do 2 eexists.
      split_and!; [done | apply first_split_no_sep | done |]. by exists s.
    + do 2 eexists. split_and!; [done.. |]. left. split; [done |].
      intros (s' & [= <-] & Hs'). congruence.
Qed.

End parsers_more.

(** ** A bucket that cannot be resolved *)

Lemma bind_ok {A B} (m : M A) (f : A → M B) (st st1 : state) (a : A) :
  m st = (st1, Ok a) → (m ≫= f) st = f a st1.
Proof. intros Hm. run. by rewrite Hm. Qed.

Lemma bind_raise {A B} (m : M A) (f : A → M B) (st st1 : state) (e : exn) :
  m st = (st1, Raise e) → (m ≫= f) st = (st1, Raise e).
Proof. intros Hm. run. by rewrite Hm. Qed.

Section unresolved.
Context (S : service) {P : OsPath} {R : Regex}.

(** X3. When the constructor of the handle raises, [_get_bucket] of
    [S3Download] keeps the handle of the bucket resolved before, and [list]
    goes on with it: asked for a path in one bucket, it lists the prefix of
    that path in the other bucket and returns those keys. *)
Theorem s3_list_after_failed_resolution (s : string) (loc : s3_location)
    (old : handle) (e : exn) (keys : list object_info) (st : state) :
  S3Download._s3_path_parser (PStr s) st = (st, Ok loc) →
  conn st = true → bucket st = Some old → h_name old ≠ bucket_name loc →
  svc_bucket S (bucket_name loc) = Some e →
  svc_list S (h_name old) (object_name loc) = Ok keys →
  ∃ st',
    S3Download.list S (PStr s) PNone PNone st = (st', Ok (Some keys))
    ∧ bucket st' = Some old
    ∧ events st'
      = (events st ++ [ELog ERROR "Could not connect to the S3 bucket!";
                       EList (h_name old) (object_name loc)])%list.
Proof.
  intros Hparse Hc Hb Hne Hs Hlist.
  assert (cached_is (bucket_name loc) st = false) as Hcached.
  { unfold cached_is. rewrite Hb. by apply String.eqb_neq. }
  unfold S3Download.list. cbn [is_str is_none negb orb andb].
  rewrite (bind_ok get _ st st st) by done. rewrite Hc. cbn [negb].
  rewrite (bind_ok _ _ _ _ _ Hparse).
  rewrite (bind_ok _ _ _ _ _ (s3_get_bucket_fails S _ _ _ Hc Hcached Hs)).
  set (st1 := add_event _ st).
  rewrite (bind_ok get _ st1 st1 st1) by done.
  assert (bucket st1 = Some old) as Hb1 by done. rewrite Hb1.
  unfold S3Download._list_objects. run. rewrite Hb1, Hlist. cbn [truthy orb].
  eexists. split_and!; [done.. |]. subst st1. cbn [events add_event].
  by rewrite <- List.app_assoc.
Qed.

(** X4. When the constructor of the handle raises, [_get_bucket] of
    [GoogleStorageDownload] has dropped the handle it had: [list] asks the
    service for no listing. For [NotFound] it logs and returns [None]; any
    other exception leaves [list] uncaught. *)
Theorem gs_list_after_failed_resolution (s b p : string) (e : exn) (st : state) :
  GoogleStorageDownload._parse_gs_path (PStr s) st = (st, Ok (Some b, Some p)) →
  p ≠ "" → conn st = true → cached_is b st = false → svc_bucket S b = Some e →
  ∃ st',
    GoogleStorageDownload.list S (PStr s) PNone PNone st
    = (st', match e with NotFound => Ok None | _ => Raise e end)
    ∧ bucket st' = None ∧ fs st' = fs st
    ∧ events st'
      = (events st ++ match e with
                      | NotFound => [ELog ERROR "Could not get the bucket"]
                      | _ => []
                      end)%list.
Proof.
  intros Hparse Hp Hc Hcached Hs.
  destruct (gs_get_bucket_fails S b st e Hc Hcached Hs) as (st1 & Hget & Hb1 & Hfs & Hev).
  exists st1. split; [| done].
  assert (GoogleStorageDownload._list S (PStr s) st
          = (st1, match e with NotFound => Ok None | _ => Raise e end)) as Hlist.
  { unfold GoogleStorageDownload._list.
    rewrite (bind_ok _ _ _ _ _ Hparse). destruct p as [|c p]; [done |].
    destruct e;
      first [ rewrite (bind_ok _ _ _ _ _ Hget); run; by rewrite Hb1
            | by rewrite (bind_raise _ _ _ _ _ Hget) ]. }
  unfold GoogleStorageDownload.list. cbn [is_str is_none negb orb andb].
  destruct e;
    first [ by rewrite (bind_ok _ _ _ _ _ Hlist)
          | by rewrite (bind_raise _ _ _ _ _ Hlist) ].
Qed.

End unresolved.

Lemma s3_list_after_failed_resolution_witness :
  ∃ st',
    S3Download.list (R:=FragmentRe.regex) (guarded_service (ClientError "403"))
      (PStr "s3://private/scenes/2020/") PNone PNone resolved_client
    = (st', Ok (Some [ {| o_bucket := "bucket"; o_name := "scenes/2020/001/img1.tif";
                          o_size := 4 |};
                       {| o_bucket := "bucket"; o_name := "scenes/2020/002/img2.tif";
                          o_size := 4 |} ]))
    ∧ bucket st' = Some {| h_name := "bucket"; h_id := 0 |}
    ∧ events st'
      = (events resolved_client
           ++ [ELog ERROR "Could not connect to the S3 bucket!";
               EList "bucket" "scenes/2020/"])%list.
Proof.
  apply (s3_list_after_failed_resolution (R:=FragmentRe.regex)
           (guarded_service (ClientError "403")) "s3://private/scenes/2020/"
           {| bucket_name := "private"; object_name := "scenes/2020/" |}
           {| h_name := "bucket"; h_id := 0 |} (ClientError "403"));
    [reflexivity | reflexivity | reflexivity | discriminate | reflexivity | reflexivity].
Defined.

Lemma gs_list_after_failed_resolution_witness :
  ∃ st',
    GoogleStorageDownload.list (R:=FragmentRe.regex) (guarded_service NotFound)
      (PStr "gs://private/scenes/2020/") PNone PNone resolved_client
    = (st', Ok None)
    ∧ bucket st' = None ∧ fs st' = fs resolved_client
    ∧ events st'
      = (events resolved_client ++ [ELog ERROR "Could not get the bucket"])%list.
Proof.
  apply (gs_list_after_failed_resolution (R:=FragmentRe.regex)
           (guarded_service NotFound) "gs://private/scenes/2020/"
           "private" "scenes/2020/" NotFound resolved_client);
    [reflexivity | discriminate | reflexivity | reflexivity | reflexivity].
Defined.

(** ** The patterns of [list] *)

Section patterns.
Context (S : service) {P : OsPath} {R : Regex}.

Lemma filter_spec_not_given (objects : list object_info) (inc exc : pyval) :
  (truthy inc || truthy exc)%bool = false → filter_spec objects inc exc = Ok objects.
Proof.
  intros [Hi He]%orb_false_iff. unfold filter_spec, pattern_search.
  rewrite Hi, He. unfold passes. cbn [andb]. by rewrite filter_true.
Qed.

Lemma types_checked (path inc exc : pyval) :
  pattern_typed inc = true → pattern_typed exc = true →
  (negb (is_str path)
   || (negb (is_none inc) && negb (is_str inc))
   || (negb (is_none exc) && negb (is_str exc)))%bool
  = negb (is_str path).
Proof. unfold pattern_typed. by destruct path, inc, exc. Qed.

(** The end of both [list] methods, from the listing on. *)
Lemma filter_listing (keys : list object_info) (inc exc : pyval) (st : state) :
  (if (truthy inc || truthy exc)%bool
   then keys ← S3Download._filter_object_names keys inc exc; mret (Some keys)
   else mret (Some keys)) st
  = (st, filtered (Ok (Some keys)) inc exc).
Proof.
  cbn [filtered]. destruct (truthy inc || truthy exc)%bool eqn:Hgiven.
  - run. rewrite filter_object_names_spec. by destruct (filter_spec keys inc exc).
  - by rewrite filter_spec_not_given.
Qed.

(** X5. The patterns of [list] take no part in what the client asks of the
    service: for patterns that are [None] or strings, a call of [list] with
    patterns leaves the client, the disk and the trace as the call without
    patterns does, and returns the listing of that call with the patterns
    applied to it; a pattern that does not compile raises out of [list],
    after the service has listed. *)
Theorem list_filters_the_plain_listing (path inc exc : pyval) (st st1 : state)
    (r : result (option (list object_info))) :
  pattern_typed inc = true → pattern_typed exc = true →
  (S3Download.list S path PNone PNone st = (st1, r) →
   S3Download.list S path inc exc st = (st1, filtered r inc exc))
  ∧ (GoogleStorageDownload.list S path PNone PNone st = (st1, r) →
     GoogleStorageDownload.list S path inc exc st = (st1, filtered r inc exc)).
Proof.
  intros Hinc Hexc. split.
  - unfold S3Download.list. rewrite (types_checked path inc exc) by done.
    rewrite (types_checked path PNone PNone) by done.
    destruct path as [|s| |]; cbn [is_str negb];
      try (run; by intros [= <- <-]).
    run. destruct (negb (conn st)); [by intros [= <- <-] |].
    unfold S3Download._s3_path_parser. run. cbn [is_str negb].
    set (loc := {| bucket_name := _ |}).
    destruct (s3_get_bucket_ok S (bucket_name loc) st) as (st2 & -> & _).
    destruct (bucket st2) as [b|] eqn:Hb; [| by intros [= <- <-]].
    unfold S3Download._list_objects. run. rewrite Hb.
    destruct (svc_list S (h_name b) (object_name loc)) as [keys|e];
      [| by intros [= <- <-]].
    cbn [truthy orb]. intros [= <- <-]. apply filter_listing.
  - unfold GoogleStorageDownload.list. rewrite (types_checked path inc exc) by done.
    rewrite (types_checked path PNone PNone) by done.
    destruct (negb (is_str path)); [run; by intros [= <- <-] |].
    run. destruct (GoogleStorageDownload._list S path st) as [st2 [[blobs|]|e]];
      [| by intros [= <- <-] ..].
    cbn [truthy orb]. intros [= <- <-].
    pose proof (filter_listing blobs inc exc st2) as Hf. revert Hf. run.
    destruct (truthy inc || truthy exc)%bool; [| done].
    change (GoogleStorageDownload._filter_blob_names blobs inc exc st2)
      with (S3Download._filter_object_names blobs inc exc st2).
    by destruct (S3Download._filter_object_names blobs inc exc st2) as [? [?|?]].
Qed.

End patterns.

Lemma list_filters_the_plain_listing_witness :
  ∃ st1,
    S3Download.list (R:=FragmentRe.regex) sample_service
      (PStr "s3://bucket/scenes/2020/") (PStr "\.tif$") (PStr "001") fresh_client
    = (st1, Ok (Some [ {| o_bucket := "bucket"; o_name := "scenes/2020/002/img2.tif";
                          o_size := 4 |} ])).
Proof.
  eexists.
  apply (proj1 (list_filters_the_plain_listing (R:=FragmentRe.regex) sample_service
                  (PStr "s3://bucket/scenes/2020/") (PStr "\.tif$") (PStr "001")
                  fresh_client _
                  (Ok (Some [ {| o_bucket := "bucket";
                                 o_name := "scenes/2020/001/img1.tif"; o_size := 4 |};
                              {| o_bucket := "bucket";
                                 o_name := "scenes/2020/002/img2.tif"; o_size := 4 |} ]))
                  eq_refl eq_refl)).
  reflexivity.
Defined.

(** ** The root of a bucket *)

Section root.
Context (S : service) {P : OsPath} {R : Regex}.
Import PyStr PyStrFacts.

(** A scheme marker ends in two separators: it does not occur in a name
    without separator that is followed by one. *)
Lemma no_scheme_prefix (x y z : ascii) (b : string) :
  has_char "/" b = false →
  String.prefix (String x (String y (String z "//"))) (b ++ "/") = false.
Proof.
  intros Hb.
  destruct b as [|c1 [|c2 [|c3 [|c4 b]]]]; rewrite ?app_cons, ?app_nil_l;
    rewrite ?PosixPathFacts.prefix_cons;
    repeat (match goal with |- context [ascii_dec ?a ?b] => destruct (ascii_dec a b) end;
            try done).
  subst. cbn [has_char] in Hb. rewrite !orb_false_iff in Hb.
  destruct Hb as (_ & _ & _ & Hc & _). by rewrite Ascii.eqb_refl in Hc.
Qed.

Lemma no_scheme (x y z : ascii) (b : string) :
  has_char "/" b = false →
  occurs (String x (String y (String z "//"))) (b ++ "/") = false.
Proof.
  induction b as [|c b IH]; intros Hb.
  - rewrite app_nil_l. cbn [occurs]. rewrite !PosixPathFacts.prefix_cons.
    destruct (ascii_dec x "/"); [| done]. by rewrite orb_false_r.
  - rewrite app_cons, occurs_cons, <- app_cons, no_scheme_prefix by done.
    cbn [has_char] in Hb. apply orb_false_iff in Hb as [_ Hb]. by rewrite IH.
Qed.

Lemma root_parsed (scheme b : string) :
  scheme ≠ "" → has_char "/" b = false → occurs scheme (b ++ "/") = false →
  replace (scheme ++ b ++ "/") scheme "" = b ++ "/"
  ∧ first (split "/" (b ++ "/")) = b
  ∧ replace (b ++ "/") (b ++ "/") "" = "".
Proof.
  intros Hne Hb Hscheme.
  apply (container_and_remainder scheme b ""); [done | done | | done].
  destruct b; try done. 
Qed.

(** X6. The two clients differ on the root of a bucket. For a bucket name
    without ['/'], [list] of [GoogleStorageDownload] refuses [gs://bucket/]:
    it logs, returns [None] and asks the service nothing. [list] of
    [S3Download], on a connected client whose service builds the handle,
    asks for the listing of [s3://bucket/] with the empty prefix, every key
    of the bucket, and returns it. *)
Theorem root_of_a_bucket (b : string) (st : state) :
  has_char "/" b = false → conn st = true → svc_bucket S b = None →
  GoogleStorageDownload.list S (PStr ("gs://" ++ b ++ "/")) PNone PNone st
  = (add_event
       (ELog ERROR "The input Google storage path does not have valid bucket name and/or blob prefix!")
       st, Ok None)
  ∧ ∃ st',
      S3Download.list S (PStr ("s3://" ++ b ++ "/")) PNone PNone st
      = (st', match svc_list S b "" with
              | Ok keys => Ok (Some keys)
              | Raise _ => Ok None
              end)
      ∧ EList b "" ∈ events st'.
Proof.
  intros Hb Hc Hs. split.
  - destruct (root_parsed "gs://" b) as (H1 & H2 & H3); [done | done | by apply no_scheme |].
    unfold GoogleStorageDownload.list, GoogleStorageDownload._list,
      GoogleStorageDownload._parse_gs_path.
    cbn [is_str is_none negb orb andb]. unfold startswith.
    rewrite prefix_app. cbn [negb]. rewrite H1, H2, H3. done.
  - destruct (root_parsed "s3://" b) as (H1 & H2 & H3); [done | done | by apply no_scheme |].
    unfold S3Download.list. cbn [is_str is_none negb orb andb].
    rewrite (bind_ok get _ st st st) by done. rewrite Hc. cbn [negb].
    assert (S3Download._s3_path_parser (PStr ("s3://" ++ b ++ "/")) st
            = (st, Ok {| bucket_name := b; object_name := "" |})) as Hparse.
    { unfold S3Download._s3_path_parser. run. unfold startswith.
      by rewrite prefix_app, H1, H2, H3. }
    rewrite (bind_ok _ _ _ _ _ Hparse). cbn [bucket_name object_name].
    rewrite (bind_ok _ _ _ _ _ (s3_get_bucket_step S b st Hc Hs)).
    set (st1 := if cached_is b st then st else rebind b st).
    assert (∃ h, bucket st1 = Some h ∧ h_name h = b) as (h & Hh & Hname).
    { subst st1. unfold cached_is. destruct (bucket st) as [h|] eqn:Hbk.
      - destruct (String.eqb (h_name h) b) eqn:Heq; [| by eexists].
        exists h. split; [done |]. by apply String.eqb_eq.
      - by eexists. }
    rewrite (bind_ok get _ st1 st1 st1) by done. rewrite Hh.
    unfold S3Download._list_objects. run. rewrite Hh, Hname.
    destruct (svc_list S b "") as [keys|e]; cbn [truthy orb];
      eexists; (split; [done |]); cbn [events add_event]; set_solver.
Qed.

End root.

Lemma root_of_a_bucket_witness :
  GoogleStorageDownload.list (R:=FragmentRe.regex) sample_service
    (PStr "gs://bucket/") PNone PNone fresh_client
  = (add_event
       (ELog ERROR "The input Google storage path does not have valid bucket name and/or blob prefix!")
       fresh_client, Ok None)
  ∧ ∃ st',
      S3Download.list (R:=FragmentRe.regex) sample_service
        (PStr "s3://bucket/") PNone PNone fresh_client
      = (st', Ok (Some [ {| o_bucket := "bucket"; o_name := "scenes/2020/001/img1.tif";
                            o_size := 4 |};
                         {| o_bucket := "bucket"; o_name := "scenes/2020/002/img2.tif";
                            o_size := 4 |} ]))
      ∧ EList "bucket" "" ∈ events st'.
Proof.
  apply (root_of_a_bucket (R:=FragmentRe.regex) sample_service "bucket" fresh_client);
    reflexivity.
Defined.

(** ** The directories [_make_local_path] makes *)

Section directories.
Context (S : service) {P : OsPath} (is_windows : bool).

Lemma s3_make_local_path_settles (name : string) (prefix base : pyval)
    (st st1 : state) (p : string) :
  S3Download._make_local_path is_windows name prefix base st = (st1, Ok (Some p)) →
  S3Download._make_local_path is_windows name prefix base st1 = (st1, Ok (Some p))
  ∧ (∀ q, is_Some (fs st !! q) → fs st1 !! q = fs st !! q)
  ∧ (∀ q, fs st1 !! q = fs st !! q ∨ fs st1 !! q = Some Dir).
Proof.
  unfold S3Download._make_local_path, S3Download._standardize_dir_path,
    arg_str, as_str, path_exists, os_makedirs.
  destruct prefix as [|pre| |], base as [|bs| |]; run; try done.
  set (d := path_join _ _).
  destruct (negb (String.eqb (path_dirname d) "")
            && negb (bool_decide (is_Some (fs st !! key d))))%bool eqn:Hmake.
  2: { intros [= <- <-]. rewrite Hmake. split_and!; [done | done | by left]. }
  cbn [fs add_event events].
  apply andb_true_iff in Hmake as [Hdir Hthere].
  apply negb_true_iff in Hthere. rewrite Hthere.
  destruct (existsb _ _) eqn:Hfiles; [done |].
  cbn [fs set_fs add_event]. intros [= <- <-]. cbn [fs set_fs add_event].
  set (above := ancestors _ _).
  split_and!.
  - rewrite lookup_insert_eq, there_Some. by rewrite andb_false_r.
  - intros q Hq.
    pose proof (lookup_made (fs st) (key d :: above) q) as Hl.
    cbn [foldr] in Hl. rewrite Hl. clear Hl.
    destruct (bool_decide (q ∈ key d :: above)) eqn:Hin; [| done].
    apply bool_decide_eq_true in Hin. apply elem_of_cons in Hin as [-> | Hin].
    { apply bool_decide_eq_false in Hthere. by destruct Hthere. }
    destruct Hq as [[data|] Hq]; [| done].
    assert (existsb (is_file (fs st)) above = true) as Habs;
      [| subst above; congruence].
    apply existsb_exists. exists q. split; [by apply list_elem_of_In |].
    unfold is_file. by rewrite Hq.
  - intros q. pose proof (lookup_made (fs st) (key d :: above) q) as Hl.
    cbn [foldr] in Hl. rewrite Hl.
    destruct (bool_decide (q ∈ _)); [by right | by left].
Qed.

(** X7. A call of [_make_local_path] that returns a path has settled the
    disk for that path: the same call made again returns the same path and
    changes nothing, no log record and no call of [os.makedirs]. The call
    removes and overwrites nothing: every path that was on the disk is as
    it was, and a path that is new is a directory. *)
Theorem make_local_path_settles (name : string) (prefix base : pyval)
    (st st1 : state) (p : string) :
  (S3Download._make_local_path is_windows name prefix base st = (st1, Ok (Some p)) →
   S3Download._make_local_path is_windows name prefix base st1 = (st1, Ok (Some p))
   ∧ (∀ q, is_Some (fs st !! q) → fs st1 !! q = fs st !! q)
   ∧ (∀ q, fs st1 !! q = fs st !! q ∨ fs st1 !! q = Some Dir))
  ∧ (GoogleStorageDownload._make_local_path is_windows name prefix base st
       = (st1, Ok (Some p)) →
     GoogleStorageDownload._make_local_path is_windows name prefix base st1
       = (st1, Ok (Some p))
     ∧ (∀ q, is_Some (fs st !! q) → fs st1 !! q = fs st !! q)
     ∧ (∀ q, fs st1 !! q = fs st !! q ∨ fs st1 !! q = Some Dir)).
Proof.
  split; intros Hrun.
  - by apply s3_make_local_path_settles.
  - by apply (s3_make_local_path_settles name prefix base st st1 p).
Qed.

End directories.

Lemma make_local_path_settles_witness :
  let call :=
    S3Download._make_local_path (P:=posix) false "scenes/2020/001/img1.tif"
      (PStr "scenes/2020/") (PStr "/out") in
  let st1 := (call fresh_client).1 in
  call st1 = (st1, Ok (Some "/out/001/img1.tif"))
  ∧ (∀ q, is_Some (fs fresh_client !! q) → fs st1 !! q = fs fresh_client !! q)
  ∧ (∀ q, fs st1 !! q = fs fresh_client !! q ∨ fs st1 !! q = Some Dir).
Proof.
  intros call st1.
  apply (proj1 (make_local_path_settles (P:=posix) false "scenes/2020/001/img1.tif"
                  (PStr "scenes/2020/") (PStr "/out") fresh_client st1
                  "/out/001/img1.tif")).
  vm_compute. reflexivity.
Defined.

(** ** A fetch that fails after it wrote *)

Section partial.
Context (S : service) {P : OsPath}.

(** X8. [_download] of [S3Download] has the service write to the
    destination itself. When the fetch fails after it wrote some of the
    bytes, the call logs the error and returns normally, the destination
    holds those bytes in the place of what it held before, and the next
    call for the same task without [overwrite] takes them for the object:
    it skips the task and fetches nothing. *)
Theorem s3_partial_file_is_kept (st : state) (b : handle) (src_key dst part : string)
    (e : exn) (overwrite : bool) :
  bucket st = Some b →
  overwrite = true ∨ fs st !! key dst = None →
  svc_fetch S (h_name b) src_key = FetchFailed (Some part) e →
  ∃ st1 msg,
    S3Download._download S (src_key, dst, overwrite) st = (st1, Ok tt)
    ∧ fs st1 = <[key dst := File part]> (fs st)
    ∧ events st1 = (events st ++ [EFetch (h_name b) src_key dst; ELog ERROR msg])%list
    ∧ S3Download._download S (src_key, dst, false) st1
      = (add_event s3_skipped st1, Ok tt).
Proof.
  intros Hb Hgo Hfetch.
  destruct (s3_download_cases S st src_key dst overwrite)
    as (st1 & Hrun & Hb1 & Hcases).
  destruct Hcases as [(Ho & Hthere & _) | (_ & [[Hnone _] | (b' & Hb' & Hcase)])].
  - destruct Hgo as [-> | Hnone]; [done |]. rewrite Hnone in Hthere. by destruct Hthere.
  - congruence.
  - rewrite Hb in Hb'. injection Hb' as <-.
    destruct Hcase as [(data & Hdata & _) | (written & e' & msg & Hfailed & Hfs & Hev)];
      [congruence |].
    rewrite Hfetch in Hfailed. injection Hfailed as <- <-.
    exists st1, msg. split_and!; [done.. |].
    apply s3_download_skips. rewrite Hfs, lookup_insert_eq. by eexists.
Qed.

End partial.

Lemma s3_partial_file_is_kept_witness :
  ∃ st1 msg,
    S3Download._download (P:=posix) sample_service ("lost2", "/out/img1.tif", true)
      populated_client = (st1, Ok tt)
    ∧ fs st1 = <[key (P:=posix) "/out/img1.tif" := File "par"]> (fs populated_client)
    ∧ events st1
      = (events populated_client
           ++ [EFetch "bucket" "lost2" "/out/img1.tif"; ELog ERROR msg])%list
    ∧ S3Download._download (P:=posix) sample_service ("lost2", "/out/img1.tif", false) st1
      = (add_event s3_skipped st1, Ok tt).
Proof.
  apply (s3_partial_file_is_kept (P:=posix) sample_service populated_client
           {| h_name := "bucket"; h_id := 0 |} "lost2" "/out/img1.tif" "par" NotFound true);
    [reflexivity | left; reflexivity | reflexivity].
Defined.

(** ** One object into a directory *)

Section single.
Context (S : service) {P : OsPath} (is_windows : bool).
Import PyStr PyStrFacts.

Lemma rev_app_snoc (d acc : string) (c : ascii) :
  String.rev_app (d ++ String c "") acc = String c (String.rev_app d acc).
Proof.
  revert acc. induction d as [|a d IH]; intros acc; [done |].
  rewrite app_cons. cbn [String.rev_app]. apply IH.
Qed.

Lemma endswith_snoc (d : string) (c : ascii) :
  endswith (d ++ String c "") (String c "") = true.
Proof.
  unfold endswith, String.rev. rewrite rev_app_snoc.
  cbn [String.rev_app]. rewrite PosixPathFacts.prefix_cons.
  destruct (ascii_dec c c); [| done]. by destruct (String.rev_app d "").
Qed.

(** The separator is added once. *)
Lemma with_separator_twice (dir : string) :
  with_separator is_windows (with_separator is_windows dir)
  = with_separator is_windows dir.
Proof.
  unfold with_separator. destruct is_windows.
  - destruct (endswith dir "\") eqn:He; [by rewrite He |]. by rewrite endswith_snoc.
  - destruct (endswith dir "/") eqn:He; [by rewrite He |]. by rewrite endswith_snoc.
Qed.

Lemma standardize_dir_path_str (dir : string) (st : state) :
  S3Download._standardize_dir_path is_windows (PStr dir) st
  = (st, Ok (with_separator is_windows dir)).
Proof. reflexivity. Qed.

Lemma normalize_dir_path_str (dir : string) (st : state) :
  GoogleStorageDownload._normalize_dir_path is_windows (PStr dir) st
  = (st, Ok (with_separator is_windows dir)).
Proof. reflexivity. Qed.

(** The client after a [_get_bucket] that succeeded. *)
Lemma resolved (name : string) (st : state) :
  let st1 := if cached_is name st then st else rebind name st in
  ∃ h, bucket st1 = Some h ∧ h_name h = name
       ∧ fs st1 = fs st ∧ events st1 = events st.
Proof.
  cbn zeta. unfold cached_is. destruct (bucket st) as [h|] eqn:Hb.
  - destruct (String.eqb (h_name h) name) eqn:Heq; [| by eexists].
    exists h. split_and!; [done | by apply String.eqb_eq | done..].
  - by eexists.
Qed.

(** X9. [download] fetches from the bucket its path names, whatever
    bucket the client had resolved before, the object the path names, and
    on a fetch that delivers puts it into the directory under the last
    component of its name. [S3Download] normalises the directory and
    expands [~] in it, and changes no other path. [GoogleStorageDownload]
    joins the name to the directory as it was given and fetches to the
    temporary path: where [os.rename] takes the destination (it is not a
    directory, and not a file on a platform that does not replace), the
    object is at the destination and what was at the temporary path is
    gone; where it does not, the error is logged, the destination stays as
    it was and the temporary file is removed. *)
Theorem download_puts_the_object (s dir data : string) (overwrite : bool)
    (st : state) :
  conn st = true →
  (∀ loc,
     let dst := path_join (path_expanduser (path_normpath (with_separator is_windows dir)))
                  (last (split "/" (object_name loc))) in
     S3Download._s3_path_parser (PStr s) st = (st, Ok loc) →
     svc_bucket S (bucket_name loc) = None →
     svc_fetch S (bucket_name loc) (object_name loc) = Fetched data →
     overwrite = true ∨ fs st !! key dst = None →
     ∃ st',
       S3Download.download S is_windows (PStr s) (PStr dir) overwrite st = (st', Ok tt)
       ∧ cached_is (bucket_name loc) st' = true
       ∧ fs st' = <[key dst := File data]> (fs st)
       ∧ events st'
         = (events st ++ [EFetch (bucket_name loc) (object_name loc) dst])%list)
  ∧ (∀ b blob,
       let dst := path_join (with_separator is_windows dir) (last (split "/" blob)) in
       GoogleStorageDownload._parse_gs_path (PStr s) st = (st, Ok (Some b, Some blob)) →
       blob ≠ "" →
       svc_bucket S b = None →
       svc_fetch S b blob = Fetched data →
       overwrite = true ∨ fs st !! key dst = None →
       key (dst ++ ".000") ≠ key dst →
       ∃ st' logs,
         GoogleStorageDownload.download S is_windows (PStr s) (PStr dir) overwrite st
         = (st', Ok tt)
         ∧ cached_is b st' = true
         ∧ events st' = (events st ++ EFetch b blob (dst ++ ".000") :: logs)%list
         ∧ (if takes_rename (fs st) dst
            then fs st' = <[key dst := File data]> (delete (key (dst ++ ".000")) (fs st))
                 ∧ logs = [ELog INFO "File is downloaded"]
            else fs st' = delete (key (dst ++ ".000")) (fs st)
                 ∧ logs = [ELog ERROR "Could NOT download the Google Cloud blob!"])).
Proof.
  intros Hc. split.
  - intros loc dst Hparse Hs Hfetch Hgo.
    unfold S3Download.download. cbn [is_str negb orb].
    rewrite (bind_ok get _ st st st) by done. rewrite Hc. cbn [negb].
    rewrite (bind_ok _ _ _ _ _ Hparse).
    rewrite (bind_ok _ _ _ _ _ (s3_get_bucket_step S _ st Hc Hs)).
    destruct (resolved (bucket_name loc) st) as (h & Hh & Hname & Hfs & Hev).
    set (st1 := if cached_is _ st then st else rebind _ st) in *.
    rewrite (bind_ok get _ st1 st1 st1) by done. rewrite Hh.
    rewrite (bind_ok _ _ _ _ _ (standardize_dir_path_str dir st1)).
    fold dst.
    destruct (s3_download_cases S st1 (object_name loc) dst overwrite)
      as (st' & Hrun & Hb' & Hcases).
    exists st'. split; [done |].
    rewrite Hfs, Hev, Hh in *.
    destruct Hcases as [(Ho & Hthere & _) | (_ & [[Hnone _] | (b' & Hb1 & Hcase)])].
    { destruct Hgo as [-> | Hnone]; [done |]. rewrite Hnone in Hthere.
      by destruct Hthere. }
    { done. }
    injection Hb1 as <-. rewrite Hname in Hcase.
    destruct Hcase as [(data' & Hdata & Hfs' & Hev') | (? & ? & ? & Hfailed & _)];
      [| congruence].
    rewrite Hfetch in Hdata. injection Hdata as <-.
    split_and!; [| done..]. unfold cached_is. rewrite Hb', Hname.
    apply String.eqb_refl.
  - intros b blob dst Hparse Hblob Hs Hfetch Hgo Hkey.
    unfold GoogleStorageDownload.download.
    rewrite (bind_ok _ _ _ _ _ Hparse). destruct blob as [|c blob]; [done |].
    set (name := String c blob) in *.
    rewrite (bind_ok _ _ _ _ _ (gs_get_bucket_step S _ st Hc Hs)).
    destruct (resolved b st) as (h & Hh & Hname & Hfs & Hev).
    set (st1 := if cached_is _ st then st else rebind _ st) in *.
    rewrite (bind_ok get _ st1 st1 st1) by done. rewrite Hh.
    rewrite (bind_ok _ _ _ _ _ (normalize_dir_path_str dir st1)).
    rewrite (bind_ok _ _ _ _ _ (normalize_dir_path_str _ st1)).
    rewrite with_separator_twice. fold dst.
    destruct (gs_download_cases S st1 h name dst overwrite Hkey Hh)
      as (st' & Hrun & Hb' & Hcases).
    rewrite Hfs, Hev, Hname in *.
    destruct Hcases as [(Ho & Hthere & _) | (_ & logs & Hev' & Hlogs & Hcase)].
    { destruct Hgo as [-> | Hnone]; [done |]. rewrite Hnone in Hthere.
      by destruct Hthere. }
    assert (cached_is b st' = true) as Hcached.
    { unfold cached_is. rewrite Hb', Hname. apply String.eqb_refl. }
    exists st', logs. split_and!; [done.. |].
    destruct Hcase as [(data' & Hdata & -> & -> & Hfs')
                      | [(data' & Hdata & -> & -> & Hfs') | (? & ? & Hfailed & _)]];
      [| | congruence]; rewrite Hfetch in Hdata; by injection Hdata as <-.
Qed.

End single.

Lemma download_puts_the_object_witness :
  (∃ st',
     S3Download.download (P:=posix) sample_service false
       (PStr "s3://archive/scenes/2020/001/img1.tif") (PStr "/out") false resolved_client
     = (st', Ok tt)
     ∧ cached_is "archive" st' = true
     ∧ fs st' = <[ "/out/img1.tif" := File "data of scenes/2020/001/img1.tif" ]>
                  (fs resolved_client)
     ∧ events st'
       = (events resolved_client
            ++ [EFetch "archive" "scenes/2020/001/img1.tif" "/out/img1.tif"])%list)
  ∧ (∃ st' logs,
       GoogleStorageDownload.download (P:=posix) sample_service false
         (PStr "gs://archive/scenes/2020/001/img1.tif") (PStr "/out") false
         resolved_client
       = (st', Ok tt)
       ∧ cached_is "archive" st' = true
       ∧ events st'
         = (events resolved_client
              ++ EFetch "archive" "scenes/2020/001/img1.tif" "/out/img1.tif.000"
                 :: logs)%list
       ∧ fs st' = <[ "/out/img1.tif" := File "data of scenes/2020/001/img1.tif" ]>
                    (delete "/out/img1.tif.000" (fs resolved_client))
       ∧ logs = [ELog INFO "File is downloaded"])
  ∧ (∃ st' logs,
       GoogleStorageDownload.download (P:=posix) sample_service false
         (PStr "gs://archive/scenes/2020/") (PStr "/out") true resolved_client
       = (st', Ok tt)
       ∧ cached_is "archive" st' = true
       ∧ events st'
         = (events resolved_client
              ++ EFetch "archive" "scenes/2020/" "/out/.000" :: logs)%list
       ∧ fs st' = delete "/out/.000" (fs resolved_client)
       ∧ logs = [ELog ERROR "Could NOT download the Google Cloud blob!"]).
Proof.
  pose proof (download_puts_the_object (P:=posix) sample_service false) as H.
  split_and!.
  - apply (proj1 (H "s3://archive/scenes/2020/001/img1.tif" "/out"
                    "data of scenes/2020/001/img1.tif" false resolved_client eq_refl)
             {| bucket_name := "archive"; object_name := "scenes/2020/001/img1.tif" |});
      [reflexivity | reflexivity | reflexivity | right; reflexivity].
  - apply (proj2 (H "gs://archive/scenes/2020/001/img1.tif" "/out"
                    "data of scenes/2020/001/img1.tif" false resolved_client eq_refl)
             "archive" "scenes/2020/001/img1.tif");
      [reflexivity | discriminate | reflexivity | reflexivity | right; reflexivity
      | discriminate].
  - apply (proj2 (H "gs://archive/scenes/2020/" "/out"
                    "data of scenes/2020/" true resolved_client eq_refl)
             "archive" "scenes/2020/");
      [reflexivity | discriminate | reflexivity | reflexivity | left; reflexivity
      | discriminate].
Defined.

(** ** A directory that is not a string *)

Section directory_type.
Context (S : service) {P : OsPath} (is_windows : bool).

(** X10. The two clients differ on a destination directory that is not a
    [str]. [download] of [S3Download] logs and returns, the client as it
    was. [download] of [GoogleStorageDownload] does not look at the type:
    it resolves the bucket of the path, replacing the handle it had, and
    then raises [AttributeError]; nothing is fetched. *)
Theorem download_checks_the_directory (s : string) (dir : pyval) (overwrite : bool)
    (st : state) :
  is_str dir = false → conn st = true →
  S3Download.download S is_windows (PStr s) dir overwrite st
  = (add_event (ELog ERROR "Invalid input types (must be str)!") st, Ok tt)
  ∧ (∀ b blob,
       GoogleStorageDownload._parse_gs_path (PStr s) st = (st, Ok (Some b, Some blob)) →
       blob ≠ "" → svc_bucket S b = None →
       GoogleStorageDownload.download S is_windows (PStr s) dir overwrite st
       = (if cached_is b st then st else rebind b st, Raise AttributeError)).
Proof.
  intros Hdir Hc. split.
  - unfold S3Download.download. rewrite Hdir. done.
  - intros b blob Hparse Hblob Hs.
    unfold GoogleStorageDownload.download.
    rewrite (bind_ok _ _ _ _ _ Hparse). destruct blob as [|c blob]; [done |].
    rewrite (bind_ok _ _ _ _ _ (gs_get_bucket_step S _ st Hc Hs)).
    destruct (resolved b st) as (h & Hh & _).
    set (st1 := if cached_is _ st then st else rebind _ st) in *.
    rewrite (bind_ok get _ st1 st1 st1) by done. rewrite Hh.
    by destruct dir.
Qed.

End directory_type.

Lemma download_checks_the_directory_witness :
  S3Download.download (P:=posix) sample_service false
    (PStr "gs://archive/scenes/2020/001/img1.tif") PNone false resolved_client
  = (add_event (ELog ERROR "Invalid input types (must be str)!") resolved_client, Ok tt)
  ∧ GoogleStorageDownload.download (P:=posix) sample_service false
      (PStr "gs://archive/scenes/2020/001/img1.tif") PNone false resolved_client
    = (rebind "archive" resolved_client, Raise AttributeError).
Proof.
  destruct (download_checks_the_directory (P:=posix) sample_service false
              "gs://archive/scenes/2020/001/img1.tif" PNone false resolved_client
              eq_refl eq_refl) as [Hs3 Hgs].
  split; [exact Hs3 |].
  apply (Hgs "archive" "scenes/2020/001/img1.tif"); [reflexivity | discriminate | reflexivity].
Defined.

(** ** Objects with the same file name *)

Section flat.
Context (S : service) {P : OsPath} (is_windows : bool).
Import PyStr.

(** X11. Without the mapping of folders the destination of an object is
    the last component of its name in the base directory, so two objects
    of a listing with the same last component have one destination. The
    scheduler of [S3Download] then leaves the first on the disk when
    [overwrite] is off, the second is skipped and never fetched, and the
    second when it is on; the run ends normally either way. *)
Theorem flat_mode_collision (k1 k2 : object_info) (base d1 d2 : string)
    (prefix : pyval) (overwrite : bool) (b : handle) (st : state) :
  let dst := flat_destination base (o_name k1) in
  last (split "/" (o_name k1)) = last (split "/" (o_name k2)) →
  dst ≠ "" → bucket st = Some b → fs st !! key dst = None →
  svc_fetch S (h_name b) (o_name k1) = Fetched d1 →
  svc_fetch S (h_name b) (o_name k2) = Fetched d2 →
  ∃ st',
    S3Download.download_args is_windows [k1; k2] false overwrite prefix (PStr base) st
    = (st, Ok [(o_name k1, dst, overwrite); (o_name k2, dst, overwrite)])
    ∧ for_each (S3Download._download S)
        [(o_name k1, dst, overwrite); (o_name k2, dst, overwrite)] st
      = (st', Ok tt)
    ∧ fs st' = <[key dst := File (if overwrite then d2 else d1)]> (fs st)
    ∧ events st'
      = (events st
           ++ [EFetch (h_name b) (o_name k1) dst;
               if overwrite then EFetch (h_name b) (o_name k2) dst else s3_skipped])%list.
Proof.
  intros dst Hsame Hdst Hb Hnone Hf1 Hf2.
  assert (S3Download.path_given (Some dst) = true) as Hgiven.
  { cbn [S3Download.path_given]. apply negb_true_iff. by apply String.eqb_neq. }
  assert (∀ k data st0,
            bucket st0 = Some b → overwrite = true ∨ fs st0 !! key dst = None →
            svc_fetch S (h_name b) k = Fetched data →
            ∃ st1, S3Download._download S (k, dst, overwrite) st0 = (st1, Ok tt)
                   ∧ bucket st1 = Some b
                   ∧ fs st1 = <[key dst := File data]> (fs st0)
                   ∧ events st1 = (events st0 ++ [EFetch (h_name b) k dst])%list)
    as Hfetched.
  { intros k data st0 Hb0 Hgo Hf.
    destruct (s3_download_cases S st0 k dst overwrite) as (st1 & Hrun & Hb1 & Hcases).
    exists st1. rewrite Hb0 in *. split_and!; [done | done | |];
      destruct Hcases as [(Ho & Hthere & _) | (_ & [[? _] | (b' & [= <-] & Hcase)])];
      try done;
      try (destruct Hgo as [-> | Hn]; [done |]; rewrite Hn in Hthere; by destruct Hthere);
      destruct Hcase as [(data' & Hdata & Hfs' & Hev') | (? & ? & ? & Hfailed & _)];
      congruence. }
  destruct (Hfetched (o_name k1) d1 st Hb (or_intror Hnone) Hf1)
    as (st1 & Hrun1 & Hb1 & Hfs1 & Hev1).
  assert (∃ st2, S3Download._download S (o_name k2, dst, overwrite) st1 = (st2, Ok tt)
                 ∧ fs st2 = <[key dst := File (if overwrite then d2 else d1)]> (fs st)
                 ∧ events st2
                   = (events st
                        ++ [EFetch (h_name b) (o_name k1) dst;
                            if overwrite then EFetch (h_name b) (o_name k2) dst
                            else s3_skipped])%list)
    as (st2 & Hrun2 & Hfs2 & Hev2).
  { destruct overwrite.
    - destruct (Hfetched (o_name k2) d2 st1 Hb1 (or_introl eq_refl) Hf2)
        as (st2 & Hrun2 & _ & Hfs2 & Hev2).
      exists st2. split_and!; [done | |].
      + by rewrite Hfs2, Hfs1, insert_insert_eq.
      + by rewrite Hev2, Hev1, <- List.app_assoc.
    - eexists. split_and!.
      + apply s3_download_skips. rewrite Hfs1, lookup_insert_eq. by eexists.
      + done.
      + cbn [events add_event]. by rewrite Hev1, <- List.app_assoc. }
  exists st2. split_and!; [| | done..].
  - cbn [S3Download.download_args]. unfold arg_str. run. rewrite <- Hsame.
    change (path_join (path_expanduser (path_normpath base))
              (last (split "/" (o_name k1)))) with dst.
    by rewrite Hgiven.
  - cbn [for_each]. rewrite (bind_ok _ _ _ _ _ Hrun1).
    by rewrite (bind_ok _ _ _ _ _ Hrun2).
Qed.

End flat.

Lemma flat_mode_collision_witness :
  let k1 := {| o_bucket := "bucket"; o_name := "scenes/2020/001/img.tif"; o_size := 4 |} in
  let k2 := {| o_bucket := "bucket"; o_name := "scenes/2020/002/img.tif"; o_size := 4 |} in
  ∃ st',
    S3Download.download_args (P:=posix) false [k1; k2] false false PNone (PStr "/out")
      resolved_client
    = (resolved_client,
       Ok [("scenes/2020/001/img.tif", "/out/img.tif", false);
           ("scenes/2020/002/img.tif", "/out/img.tif", false)])
    ∧ for_each (S3Download._download (P:=posix) sample_service)
        [("scenes/2020/001/img.tif", "/out/img.tif", false);
         ("scenes/2020/002/img.tif", "/out/img.tif", false)] resolved_client
      = (st', Ok tt)
    ∧ fs st' = <[ "/out/img.tif" := File "data of scenes/2020/001/img.tif" ]>
                 (fs resolved_client)
    ∧ events st'
      = (events resolved_client
           ++ [EFetch "bucket" "scenes/2020/001/img.tif" "/out/img.tif"; s3_skipped])%list.
Proof.
  intros k1 k2.
  apply (flat_mode_collision (P:=posix) sample_service false k1 k2 "/out"
           "data of scenes/2020/001/img.tif" "data of scenes/2020/002/img.tif"
           PNone false {| h_name := "bucket"; h_id := 0 |} resolved_client);
    [reflexivity | discriminate | reflexivity | reflexivity | reflexivity | reflexivity].
Defined.

(** ** Without the mapping of folders *)

#[global] Instance no_new_directory_preorder : PreOrder no_new_directory.
Proof.
  split.
  - intros st. split; [reflexivity | done].
  - intros st1 st2 st3 [E1 H1] [E2 H2]. split; [by etrans | eauto].
Qed.

Lemma quiet_no_new_directory (st st' : state) : quiet st st' → no_new_directory st st'.
Proof.
  intros [Hfs Hext]. split; [| by rewrite Hfs].
  eapply extends_weaken; [| done]. by intros [].
Qed.

Section unmapped.
Context (S : service) {P : OsPath} {R : Regex} (is_windows : bool).

Lemma no_new_directory_event (e : event) (st : state) :
  not_makedirs e → no_new_directory st (add_event e st).
Proof. intros He. split; [by apply extends_add_event | done]. Qed.

Lemma no_new_directory_file (p data : string) (m : gmap string node) (st : state) :
  (∀ q, m !! q = Some Dir → fs st !! q = Some Dir) →
  no_new_directory st (set_fs (<[p := File data]> m) st).
Proof.
  intros Hm. split; [by apply extends_same_events |].
  intros q. cbn [fs set_fs]. destruct (decide (p = q)) as [-> | Hne].
  - by rewrite lookup_insert_eq.
  - rewrite lookup_insert_ne by done. apply Hm.
Qed.

Lemma lookup_delete_dir (m : gmap string node) (p q : string) :
  delete p m !! q = Some Dir → m !! q = Some Dir.
Proof.
  destruct (decide (p = q)) as [-> | Hne].
  - by rewrite lookup_delete_eq.
  - by rewrite lookup_delete_ne.
Qed.

Ltac flat_leaf :=
  lazymatch goal with
  | |- keeps no_new_directory (log _ _) =>
      apply keeps_modify; intros ?; by apply no_new_directory_event
  | |- keeps no_new_directory (modify (add_event _)) =>
      apply keeps_modify; intros ?; by apply no_new_directory_event
  | |- keeps no_new_directory (write_file _ _) =>
      apply keeps_modify; intros ?; by apply no_new_directory_file
  end.

Ltac flat_auto := repeat first [flat_leaf | keeps_step].

Lemma os_rename_no_new_directory (src dst : string) :
  keeps no_new_directory (os_rename src dst).
Proof.
  intros st st' r. unfold os_rename. run.
  destruct (fs st !! key src) as [[data|]|]; try (intros [= <- <-]; reflexivity).
  destruct (String.eqb (key src) (key dst)); [intros [= <- <-]; reflexivity |].
  destruct (takes_rename (fs st) dst); intros [= <- <-]; [| reflexivity].
  apply no_new_directory_file. intros q. apply lookup_delete_dir.
Qed.

Lemma os_remove_no_new_directory (p : string) :
  keeps no_new_directory (os_remove p).
Proof.
  intros st st' r. unfold os_remove. run.
  destruct (fs st !! key p) as [[data|]|]; intros [= <- <-]; try reflexivity.
  split; [by apply extends_same_events |]. intros q. apply lookup_delete_dir.
Qed.

Lemma s3_download_no_new_directory (inp : string * string * bool) :
  keeps no_new_directory (S3Download._download S inp).
Proof.
  unfold S3Download._download, S3Download.bucket_download_file, path_exists.
  flat_auto.
Qed.

Lemma gs_download_no_new_directory (inp : string * string * bool) :
  keeps no_new_directory (GoogleStorageDownload._download S inp).
Proof.
  unfold GoogleStorageDownload._download,
    GoogleStorageDownload.blob_download_to_filename,
    GoogleStorageDownload.log_bucket, path_exists.
  flat_auto; first [apply os_rename_no_new_directory | apply os_remove_no_new_directory].
Qed.

Lemma s3_flat_args (keys : list object_info) (overwrite : bool) (prefix base : pyval) :
  keeps no_new_directory
    (S3Download.download_args is_windows keys false overwrite prefix base).
Proof.
  induction keys as [|k keys IH]; cbn [S3Download.download_args]; [flat_auto |].
  unfold arg_str. flat_auto; apply IH.
Qed.

(** X12. With [folder_map] off, [recursive_download] makes no directory,
    whatever its other arguments and the answers of the service, and
    whether it returns or raises: it never calls [os.makedirs], and every
    directory on the disk after the call was there before it. *)
Theorem flat_mode_makes_no_directory (path base prefix inc exc : pyval)
    (overwrite : bool) (st st' : state) (r : result unit) :
  S3Download.recursive_download S is_windows path base false overwrite prefix inc exc st
    = (st', r)
  ∨ GoogleStorageDownload.recursive_download S is_windows path base false overwrite
      prefix inc exc st = (st', r) →
  (∃ evs, events st' = (events st ++ evs)%list ∧ Forall not_makedirs evs)
  ∧ ∀ p, fs st' !! p = Some Dir → fs st !! p = Some Dir.
Proof.
  intros [Hrun | Hrun]; revert st st' r Hrun.
  - change (keeps no_new_directory
              (S3Download.recursive_download S is_windows path base false overwrite
                 prefix inc exc)).
    unfold S3Download.recursive_download, S3Download._s3_path_parser, as_str.
    flat_auto;
      first [ apply (keeps_weaken quiet); [apply quiet_no_new_directory | apply s3_list_quiet]
            | apply s3_flat_args
            | apply s3_download_no_new_directory ].
  - change (keeps no_new_directory
              (GoogleStorageDownload.recursive_download S is_windows path base false
                 overwrite prefix inc exc)).
    unfold GoogleStorageDownload.recursive_download.
    flat_auto;
      first [ apply (keeps_weaken quiet); [apply quiet_no_new_directory | apply gs_list_quiet]
            | apply gs_parse_keeps; [apply _ |]; intros; by apply no_new_directory_event
            | apply (s3_flat_args _ _ _ _)
            | apply gs_download_no_new_directory ].
Qed.

End unmapped.

Lemma flat_mode_makes_no_directory_witness :
  let run :=
    S3Download.recursive_download (P:=posix) (R:=FragmentRe.regex) sample_service false
      (PStr "s3://bucket/scenes/2020/") (PStr "/out") false false PNone PNone PNone
      fresh_client in
  run.2 = Ok tt
  ∧ fs run.1 !! "/out/img2.tif" = Some (File "data of scenes/2020/002/img2.tif")
  ∧ (∃ evs, events run.1 = (events fresh_client ++ evs)%list ∧ Forall not_makedirs evs)
  ∧ ∀ p, fs run.1 !! p = Some Dir → fs fresh_client !! p = Some Dir.
Proof.
  intros run. split; [vm_compute; reflexivity |]. split; [vm_compute; reflexivity |].
  apply (flat_mode_makes_no_directory (P:=posix) (R:=FragmentRe.regex) sample_service
           false (PStr "s3://bucket/scenes/2020/") (PStr "/out") PNone PNone PNone false
           fresh_client run.1 run.2).
  left. vm_compute. reflexivity.
Defined.

(** ** The mapped path on a POSIX host *)

Module MappingFacts.
Import PyStr PyStrFacts PosixPath.

Lemma snoc_cases (s : string) : s = "" ∨ ∃ x a, s = x ++ String a "".
Proof.
  induction s as [|c s IH]; [by left |]. right.
  destruct IH as [-> | (x & a & ->)].
  - by exists "", c.
  - exists (String c x), a. by rewrite app_cons.
Qed.

Lemma split_not_nil (s : string) : split "/" s ≠ [].
Proof.
  destruct s as [|c s]; [done |]. cbn [split].
  destruct (Ascii.eqb c "/"); [done |]. by destruct (split "/" s).
Qed.

(** A string with a separator splits into two components at least. *)
Lemma split_two (s : string) :
  has_char "/" s = true → ∃ h x tl, split "/" s = h :: x :: tl.
Proof.
  induction s as [|c s IH]; [done |].
  cbn [has_char split]. destruct (Ascii.eqb c "/") eqn:Hc.
  - intros _. pose proof (split_not_nil s).
    destruct (split "/" s) as [|x tl]; [done |].
    by eexists _, _, _.
  - intros Hs. destruct (IH Hs) as (h & x & tl & ->). by eexists _, _, _.
Qed.

(** The last component of a path: behind its last separator. *)
Lemma last_split_cons (c : ascii) (s : string) :
  last (split "/" (String c s))
  = if has_char "/" (String c s) then last (split "/" s) else String c s.
Proof.
  cbn [has_char split]. destruct (Ascii.eqb c "/") eqn:Hc; cbn [orb].
  - pose proof (split_not_nil s). by destruct (split "/" s).
  - destruct (has_char "/" s) eqn:Hs.
    + destruct (split_two s Hs) as (h & x & tl & ->). done.
    + by rewrite split_no_sep.
Qed.

Lemma last_split_no_sep (s : string) : has_char "/" (last (split "/" s)) = false.
Proof.
  induction s as [|c s IH]; [done |].
  rewrite last_split_cons. by destruct (has_char "/" (String c s)) eqn:Hs.
Qed.

Lemma last_split_app (u v : string) :
  last (split "/" (u ++ "/" ++ v)) = last (split "/" v).
Proof.
  induction u as [|c u IH].
  - rewrite app_nil_l. change ("/" ++ v) with (String "/" v).
    by rewrite last_split_cons.
  - rewrite app_cons, last_split_cons, <- app_cons, has_char_app.
    change (has_char "/" ("/" ++ v)) with true. by rewrite orb_true_r.
Qed.

(** A path is its part up to the last separator and its last component. *)
Lemma head_part_last (t : string) : t = head_part t ++ last (split "/" t).
Proof.
  induction t as [|c t IH]; [done |].
  rewrite last_split_cons. cbn [head_part].
  destruct (has_char "/" (String c t)); [| done].
  by rewrite app_cons, <- IH.
Qed.

Lemma head_part_ends (t : string) :
  head_part t = "" ∨ ∃ h, head_part t = h ++ "/".
Proof.
  induction t as [|c t IH]; [by left |].
  cbn [head_part]. destruct (has_char "/" (String c t)) eqn:Hs; [| by left].
  right. destruct IH as [Hnil | (h & ->)].
  - rewrite Hnil. exists "". cbn [has_char] in Hs.
    destruct (Ascii.eqb_spec c "/") as [-> | _]; [done |].
    cbn [orb] in Hs. destruct t as [|d t]; [done |].
    cbn [head_part] in Hnil. by rewrite Hs in Hnil.
  - exists (String c h). by rewrite app_cons.
Qed.

Lemma rstrip_snoc (x : string) (a : ascii) :
  a ≠ "/"%char → rstrip "/" (x ++ String a "/") = x ++ String a "".
Proof.
  intros Ha. induction x as [|d x IH].
  - rewrite !app_nil_l. cbn [rstrip]. rewrite Ascii.eqb_refl.
    by destruct (Ascii.eqb_spec a "/").
  - rewrite !app_cons. cbn [rstrip]. rewrite IH. by destruct x.
Qed.

Lemma all_sep_snoc (x s : string) (a : ascii) :
  a ≠ "/"%char → all_sep (x ++ String a s) = false.
Proof.
  intros Ha. induction x as [|d x IH].
  - rewrite app_nil_l. cbn [all_sep]. by destruct (Ascii.eqb_spec a "/").
  - rewrite app_cons. cbn [all_sep]. by rewrite IH, andb_false_r.
Qed.

Lemma endswith_other (y : string) (a : ascii) :
  a ≠ "/"%char → endswith (y ++ String a "") "/" = false.
Proof.
  intros Ha. unfold endswith, String.rev. rewrite rev_app_snoc.
  cbn [String.rev_app]. rewrite PosixPathFacts.prefix_cons.
  by destruct (ascii_dec "/" a).
Qed.

Lemma occurs_middle (old u v : string) : occurs old (u ++ old ++ v) = true.
Proof.
  induction u as [|c u IH].
  - rewrite app_nil_l. destruct (occurs old (old ++ v)) eqn:Ho; [done |].
    apply occurs_prefix in Ho. by rewrite prefix_app in Ho.
  - rewrite app_cons, occurs_cons, IH. apply orb_true_r.
Qed.

Lemma startswith_app (x s : string) (a : ascii) :
  startswith (x ++ String a s) "/" = false → a ≠ "/"%char ∨ x ≠ "".
Proof.
  destruct x as [|d x]; [| by right]. rewrite app_nil_l. unfold startswith.
  rewrite PosixPathFacts.prefix_cons. destruct (ascii_dec "/" a) as [<- | Hne]; [| by left].
  by destruct s.
Qed.

(** Joining the directory of a relative path without doubled separators,
    and then its last component, to a directory gives the path under that
    directory. *)
Lemma join_dirname_basename (B t : string) :
  B ≠ "" → endswith B "/" = false →
  startswith t "/" = false → occurs "//" t = false →
  join (join B (dirname t)) (last (split "/" t)) = B ++ "/" ++ t.
Proof.
  intros HB HBsep Ht Hdouble.
  pose proof (head_part_last t) as Hsplit.
  pose proof (last_split_no_sep t) as Hlast.
  pose proof (head_part_ends t) as Hends.
  unfold dirname.
  revert Hsplit Hlast Hends.
  generalize (last (split "/" t)) as c. generalize (head_part t) as hd.
  intros hd c -> Hlast Hends.
  assert (startswith c "/" = false) as Hc.
  { unfold startswith. destruct c as [|a c]; [done |].
    rewrite PosixPathFacts.prefix_cons. destruct (ascii_dec "/" a) as [<- | ]; [| done].
    cbn [has_char] in Hlast. by rewrite Ascii.eqb_refl in Hlast. }
  apply String.eqb_neq in HB.
  destruct Hends as [-> | (h & ->)].
  - rewrite app_nil_l. cbn [String.eqb negb andb].
    unfold join at 2. change (startswith "" "/") with false. cbn iota.
    rewrite HB, HBsep. cbn [orb].
    rewrite app_empty_r. unfold join. rewrite Hc.
    destruct (snoc_cases B) as [-> | (x & a & ->)]; [done |].
    rewrite <- app_assoc, endswith_snoc, orb_true_r.
    by rewrite !app_assoc.
  - destruct (snoc_cases h) as [-> | (x & a & ->)].
    { unfold startswith in Ht. rewrite app_nil_l in Ht. by rewrite prefix_app in Ht. }
    replace ((x ++ String a "") ++ "/") with (x ++ String a "/") in *
      by (by rewrite app_assoc).
    assert (a ≠ "/"%char) as Ha.
    { intros ->. assert (occurs "//" ((x ++ String "/" "/") ++ c) = true); [| congruence].
      rewrite app_assoc. apply (occurs_middle "//" x c). }
    rewrite all_sep_snoc by done.
    replace (x ++ String a "/" =? "")%string with false by (by destruct x).
    cbn [negb andb]. rewrite rstrip_snoc by done.
    assert (startswith (x ++ String a "") "/" = false) as Hx.
    { unfold startswith in *. destruct x as [|d x].
      - rewrite !app_nil_l in *. rewrite app_cons in Ht.
        rewrite PosixPathFacts.prefix_cons in *.
        destruct (ascii_dec "/" a); [congruence | done].
      - rewrite !app_cons in *. rewrite PosixPathFacts.prefix_cons in *.
        destruct (ascii_dec "/" d); [| done].
        by destruct ((x ++ String a "/") ++ c). }
    unfold join at 2. rewrite Hx, HB, HBsep. cbn [orb].
    unfold join. rewrite Hc.
    replace (B ++ "/" ++ x ++ String a "") with ((B ++ "/" ++ x) ++ String a "")
      by (by rewrite !app_assoc).
    rewrite endswith_other by done. rewrite orb_false_r.
    replace ((B ++ "/" ++ x) ++ String a "" =? "")%string with false.
    2: { symmetry. apply String.eqb_neq. apply String.eqb_neq in HB. by destruct B. }
    by rewrite !app_assoc.
Qed.

Lemma rstrip_nil (s : string) : rstrip "/" s = "" → all_sep s = true.
Proof.
  induction s as [|d s IH]; [done |].
  cbn [rstrip all_sep]. destruct (rstrip "/" s); [| done].
  destruct (Ascii.eqb d "/"); [| done]. intros _. by apply IH.
Qed.

Lemma startswith_cons (s : string) :
  startswith s "/" = true → ∃ s', s = String "/" s'.
Proof.
  unfold startswith. destruct s as [|c s]; [done |].
  rewrite PosixPathFacts.prefix_cons. destruct (ascii_dec "/" c) as [<- |]; [| done].
  by exists s.
Qed.

(** The directory of an absolute path is absolute. *)
Lemma dirname_absolute (t : string) :
  startswith t "/" = true → startswith (dirname t) "/" = true.
Proof.
  intros [s ->]%startswith_cons. unfold dirname.
  change (head_part (String "/" s)) with (String "/" (head_part s)).
  destruct (all_sep (String "/" (head_part s))) eqn:Hall.
  { rewrite andb_false_r. unfold startswith. by destruct (head_part s). }
  cbn [String.eqb negb andb]. cbn [rstrip].
  cbn [all_sep] in Hall. rewrite Ascii.eqb_refl in Hall. cbn [andb] in Hall.
  destruct (rstrip "/" (head_part s)) eqn:Hr.
  - apply rstrip_nil in Hr. by rewrite Hr in Hall.
  - unfold startswith. rewrite PosixPathFacts.prefix_cons.
    by destruct (ascii_dec "/" "/").
Qed.

Lemma join_absolute (a b : string) : startswith b "/" = true → join a b = b.
Proof. intros Hb. unfold join. by rewrite Hb. Qed.

Lemma startswith_app_l (a b : string) :
  startswith a "/" = true → startswith (a ++ b) "/" = true.
Proof.
  intros [s ->]%startswith_cons. rewrite app_cons. unfold startswith.
  rewrite PosixPathFacts.prefix_cons. destruct (ascii_dec "/" "/"); [| done].
  by destruct (s ++ b).
Qed.

Lemma join_absolute_l (a b : string) :
  startswith a "/" = true → startswith (join a b) "/" = true.
Proof.
  intros Ha. unfold join. destruct (startswith b "/") eqn:Hb; [done |].
  destruct (_ || _)%bool; by apply startswith_app_l.
Qed.

End MappingFacts.

Section mapping.
Context (S : service) (home_of : string → option string).
Import PyStr PyStrFacts.

#[local] Instance mapping_path : OsPath := PosixPath.ops home_of.

(** The base directory as [_make_local_path] uses it. *)
Lemma mapped_name (dir tail prefix : string) :
  (prefix = dir ++ "/" ∧ occurs prefix tail = false)
  ∨ (prefix = dir ∧ dir ≠ "" ∧ occurs dir ("/" ++ tail) = false) →
  startswith tail "/" = false →
  (if startswith (replace (dir ++ "/" ++ tail) prefix "") "/"
   then drop 1 (replace (dir ++ "/" ++ tail) prefix "")
   else replace (dir ++ "/" ++ tail) prefix "") = tail.
Proof.
  intros [[-> Ho] | (-> & Hdir & Ho)] Ht.
  - rewrite <- app_assoc, replace_head by (by destruct dir).
    rewrite app_nil_l, replace_no_occurrence by (done || by destruct dir).
    by rewrite Ht.
  - rewrite replace_head by done.
    rewrite app_nil_l, replace_no_occurrence by done.
    unfold startswith. by rewrite prefix_app.
Qed.

(** X13. On a POSIX host [_make_local_path] keeps the name an object has
    under the prefix. For an object [dir/tail], a prefix that is [dir] or
    [dir/] and occurs nowhere else in the name, a [tail] that does not start
    with ['/'] and holds no ['//'], and a base directory that normalises to
    [B], not the root, the method does not raise and returns the path
    [B/tail], but for one case: it returns [None], the disk as it was,
    exactly when the directory of that path is missing and a file stands
    where a directory above it is needed. When the directory is there
    already the call changes nothing. *)
Theorem make_local_path_keeps_the_relative_name (dir tail prefix base : string)
    (st : state) :
  let B := path_expanduser (path_normpath (with_separator false base)) in
  let d := path_join B (path_dirname tail) in
  (prefix = dir ++ "/" ∧ occurs prefix tail = false)
  ∨ (prefix = dir ∧ dir ≠ "" ∧ occurs dir ("/" ++ tail) = false) →
  startswith tail "/" = false → occurs "//" tail = false →
  B ≠ "" → endswith B "/" = false →
  ∃ st',
    S3Download._make_local_path false (dir ++ "/" ++ tail) (PStr prefix) (PStr base) st
      = (st', Ok (if makedirs_blocked (fs st) d then None else Some (B ++ "/" ++ tail)))
    ∧ GoogleStorageDownload._make_local_path false (dir ++ "/" ++ tail) (PStr prefix)
        (PStr base) st
      = (st', Ok (if makedirs_blocked (fs st) d then None else Some (B ++ "/" ++ tail)))
    ∧ (makedirs_blocked (fs st) d = true → fs st' = fs st)
    ∧ (is_Some (fs st !! key d) → st' = st).
Proof.
  intros B d Hprefix Ht Hdouble HB HBsep.
  pose proof (mapped_name dir tail prefix Hprefix Ht) as Htail.
  pose proof (MappingFacts.last_split_app dir tail) as Hfile.
  pose proof (MappingFacts.join_dirname_basename B tail HB HBsep Ht Hdouble) as Hjoin.
  change (GoogleStorageDownload._make_local_path false (dir ++ "/" ++ tail)
            (PStr prefix) (PStr base) st)
    with (S3Download._make_local_path false (dir ++ "/" ++ tail)
            (PStr prefix) (PStr base) st).
  unfold makedirs_blocked.
  unfold S3Download._make_local_path, S3Download._standardize_dir_path,
    arg_str, as_str, path_exists, os_makedirs.
  run. rewrite Htail, Hfile.
  change (path_join
            (path_join
               (path_expanduser
                  (path_normpath (if endswith base "/" then base else base ++ "/")))
               (path_dirname tail))
            (last (split "/" tail)) = B ++ "/" ++ tail) in Hjoin.
  rewrite Hjoin.
  change (path_join
            (path_expanduser
               (path_normpath (if endswith base "/" then base else base ++ "/")))
            (path_dirname tail)) with d.
  destruct (negb (String.eqb (path_dirname d) "")) eqn:Hname; cbn [andb];
    [| by eexists].
  destruct (bool_decide (is_Some (fs st !! key d))) eqn:Hthere; cbn [negb andb].
  { by eexists. }
  apply bool_decide_eq_false in Hthere.
  cbn [fs add_event].
  rewrite (bool_decide_eq_false_2 _ Hthere).
  destruct (existsb _ _);
    (eexists; split_and!; [done | done | done |]); by intros ?.
Qed.

(** X14. On a POSIX host, when what is left of the object name after the
    prefix was removed and one leading ['/'] dropped still starts with
    ['/'], as for a name with ['//'] behind the prefix, [_make_local_path]
    does not use the base directory: the call does the same and returns
    the same for every base directory, and a path it returns is absolute. *)
Theorem make_local_path_ignores_the_base (name prefix base base' : string)
    (st : state) :
  let rest := replace name prefix "" in
  startswith (if startswith rest "/" then drop 1 rest else rest) "/" = true →
  S3Download._make_local_path false name (PStr prefix) (PStr base) st
  = S3Download._make_local_path false name (PStr prefix) (PStr base') st
  ∧ GoogleStorageDownload._make_local_path false name (PStr prefix) (PStr base) st
    = GoogleStorageDownload._make_local_path false name (PStr prefix) (PStr base') st
  ∧ ∀ st' p,
      S3Download._make_local_path false name (PStr prefix) (PStr base) st
      = (st', Ok (Some p)) →
      startswith p "/" = true.
Proof.
  intros rest Htail.
  set (tail := if startswith rest "/" then drop 1 rest else rest) in *.
  pose proof (MappingFacts.dirname_absolute tail Htail) as Hdir.
  assert (∀ b, S3Download._make_local_path false name (PStr prefix) (PStr b) st
               = (there ← path_exists (path_dirname tail);
                  made ← (if (negb (String.eqb (path_dirname (path_dirname tail)) "")
                              && negb there)%bool
                          then try_except (os_makedirs (path_dirname tail);; mret true)
                                 (λ e, match e with
                                       | IOError =>
                                           log ERROR "I/O Error: could NOT build the directory";;
                                           mret false
                                       | _ =>
                                           log ERROR "Could NOT build the directory";;
                                           mret false
                                       end)
                          else mret true);
                  if made : bool
                  then mret (Some (path_join (path_dirname tail) (last (split "/" name))))
                  else mret None) st) as Hrun.
  { intros b. unfold S3Download._make_local_path, S3Download._standardize_dir_path,
      arg_str, as_str.
    rewrite (bind_ok (mret prefix) _ st st prefix) by done.
    fold rest. fold tail.
    rewrite (bind_ok _ _ st st (if endswith b "/" then b else b ++ "/")) by done.
    change (path_join ?a (path_dirname tail))
      with (PosixPath.join a (PosixPath.dirname tail)).
    by rewrite (MappingFacts.join_absolute _ (PosixPath.dirname tail) Hdir). }
  split_and!.
  - by rewrite !Hrun.
  - change (S3Download._make_local_path false name (PStr prefix) (PStr base) st
            = S3Download._make_local_path false name (PStr prefix) (PStr base') st).
    by rewrite !Hrun.
  - intros st' p. rewrite Hrun. unfold path_exists, os_makedirs. run.
    assert (startswith (path_join (path_dirname tail) (last (split "/" name))) "/" = true)
      as Hp by (by apply MappingFacts.join_absolute_l).
    destruct (_ && _)%bool; [| by intros [= <- <-]].
    cbn [fs add_event]. destruct (bool_decide _); [done |].
    destruct (existsb _ _); [done |]. by intros [= <- <-].
Qed.

End mapping.

Lemma make_local_path_keeps_the_relative_name_witness :
  (∃ st',
     S3Download._make_local_path (P:=posix) false "scenes/2020/001/img1.tif"
       (PStr "scenes/2020/") (PStr "/out") fresh_client
     = (st', Ok (Some "/out/001/img1.tif"))
     ∧ GoogleStorageDownload._make_local_path (P:=posix) false
         "scenes/2020/001/img1.tif" (PStr "scenes/2020/") (PStr "/out") fresh_client
       = (st', Ok (Some "/out/001/img1.tif")))
  ∧ (let st := set_fs {[ "/out" := File "not a directory" ]} fresh_client in
     ∃ st',
       S3Download._make_local_path (P:=posix) false "scenes/2020/001/img1.tif"
         (PStr "scenes/2020/") (PStr "/out") st
       = (st', Ok None)
       ∧ fs st' = fs st).
Proof.
  pose proof (make_local_path_keeps_the_relative_name
                (λ user, if String.eqb user "" then Some "/home/user" else None)
                "scenes/2020" "001/img1.tif" "scenes/2020/" "/out") as H.
  split.
  - destruct (H fresh_client) as (st' & Hs3 & Hgs & _);
      [left; split; reflexivity | reflexivity | reflexivity | discriminate
      | reflexivity |].
    exists st'. split; [exact Hs3 | exact Hgs].
  - intros st.
    destruct (H st) as (st' & Hs3 & _ & Hfs & _);
      [left; split; reflexivity | reflexivity | reflexivity | discriminate
      | reflexivity |].
    exists st'. split; [exact Hs3 |]. apply Hfs. reflexivity.
Defined.

Lemma make_local_path_ignores_the_base_witness :
  S3Download._make_local_path (P:=posix) false "scenes//etc/img1.tif"
    (PStr "scenes") (PStr "/out") fresh_client
  = S3Download._make_local_path (P:=posix) false "scenes//etc/img1.tif"
      (PStr "scenes") (PStr "/srv/data") fresh_client
  ∧ GoogleStorageDownload._make_local_path (P:=posix) false "scenes//etc/img1.tif"
      (PStr "scenes") (PStr "/out") fresh_client
    = GoogleStorageDownload._make_local_path (P:=posix) false "scenes//etc/img1.tif"
        (PStr "scenes") (PStr "/srv/data") fresh_client
  ∧ ∀ st' p,
      S3Download._make_local_path (P:=posix) false "scenes//etc/img1.tif"
        (PStr "scenes") (PStr "/out") fresh_client = (st', Ok (Some p)) →
      PyStr.startswith p "/" = true.
Proof.
  apply (make_local_path_ignores_the_base
           (λ user, if String.eqb user "" then Some "/home/user" else None)
           "scenes//etc/img1.tif" "scenes" "/out" "/srv/data" fresh_client).
  reflexivity.
Defined.

(** ** The scheduler of [GoogleStorageDownload] *)

Section gs_scheduler.
Context (S : service) (home_of : string → option string).

#[local] Instance scheduler_path : OsPath := PosixPath.ops home_of.

(** One task: no path touched but its destination and its temporary
    path, the object at the destination when the task was due, its fetch
    delivers and the destination is not a directory; the destination as it
    was when the fetch fails or the destination is a directory. *)
Lemma gs_download_step (st : state) (b : handle) (blob dst : string)
    (overwrite : bool) :
  bucket st = Some b →
  ∃ st1,
    GoogleStorageDownload._download S (blob, dst, overwrite) st = (st1, Ok tt)
    ∧ bucket st1 = Some b
    ∧ (∀ p, p ≠ key dst → p ≠ key (dst ++ ".000") → fs st1 !! p = fs st !! p)
    ∧ (∀ data, overwrite = true ∨ fs st !! key dst = None →
         svc_fetch S (h_name b) blob = Fetched data →
         fs st !! key dst ≠ Some Dir →
         fs st1 !! key dst = Some (File data))
    ∧ (∀ written e, svc_fetch S (h_name b) blob = FetchFailed written e →
         fs st1 !! key dst = fs st !! key dst)
    ∧ (fs st !! key dst = Some Dir → fs st1 !! key dst = Some Dir).
Proof.
  intros Hb.
  assert (key (dst ++ ".000") ≠ key dst) as Hkey by apply key_temporary.
  destruct (gs_download_cases S st b blob dst overwrite Hkey Hb)
    as (st1 & Hrun & Hb1 & Hcases).
  exists st1. split; [done |]. split; [done |].
  destruct Hcases as [(Ho & Hthere & ->) | (Hgo & logs & Hev & Hlogs & Hcase)].
  - split_and!; [done | | done | done].
    intros data [-> | Hnone] _; [done |]. rewrite Hnone in Hthere. by destruct Hthere.
  - assert (∀ p, p ≠ key dst → p ≠ key (dst ++ ".000") →
                 (delete (key (dst ++ ".000")) (fs st)) !! p = fs st !! p) as Hdel.
    { intros p _ Hp. by rewrite lookup_delete_ne. }
    destruct Hcase as [(data & Hfetch & Htakes & _ & Hfs)
                      | [(data & Hfetch & Htakes & _ & Hfs)
                        | (written & e & Hfetch & Hfs)]].
    + apply posix_takes_rename in Htakes. split_and!.
      * intros p Hp Htmp. by rewrite Hfs, lookup_insert_ne, lookup_delete_ne.
      * intros data' _. rewrite Hfetch. intros [= <-] _.
        by rewrite Hfs, lookup_insert_eq.
      * intros ? ?. by rewrite Hfetch.
      * done.
    + apply posix_refuses_rename in Htakes. split_and!.
      * intros p Hp Htmp. by rewrite Hfs, lookup_delete_ne.
      * done.
      * intros ? ?. by rewrite Hfetch.
      * intros _. by rewrite Hfs, lookup_delete_ne.
    + assert (∀ p, p ≠ key (dst ++ ".000") → fs st1 !! p = fs st !! p) as Hframe.
      { intros p Hp. destruct Hfs as [-> | (_ & -> & _)]; [| done].
        by rewrite lookup_delete_ne. }
      split_and!.
      * intros p _ Hp. by apply Hframe.
      * intros data _. by rewrite Hfetch.
      * intros _ _ _. apply Hframe. done.
      * intros Hdir. rewrite Hframe; done.
Qed.

(** X15. The scheduler of [GoogleStorageDownload] on a POSIX host, the run
    of [_download] over the tasks [recursive_download] hands to the pool,
    ends normally whatever the fetches do, and touches no path but the
    destinations and the temporary paths of its tasks. When the
    destinations are distinct and no temporary path of a task is the
    destination of one, every task that was due, whose fetch delivers and
    whose destination is not a directory has the object at its destination
    in the end; every task whose fetch fails has its destination as it was
    before the run, no task leaves a part of an object there; and a
    destination that is a directory stays one. *)
Theorem gs_scheduler_isolates_failures (tasks : list (string * string * bool))
    (st : state) (b : handle) :
  bucket st = Some b →
  ∃ st',
    for_each (GoogleStorageDownload._download S) tasks st = (st', Ok tt)
    ∧ (∀ p, p ∉ destination <$> tasks → p ∉ temporary <$> tasks →
         fs st' !! p = fs st !! p)
    ∧ (NoDup (destination <$> tasks) →
       (∀ t t', t ∈ tasks → t' ∈ tasks → temporary t ≠ destination t') →
       ∀ blob dst overwrite,
         (blob, dst, overwrite) ∈ tasks →
         (∀ data, overwrite = true ∨ fs st !! key dst = None →
            svc_fetch S (h_name b) blob = Fetched data →
            fs st !! key dst ≠ Some Dir →
            fs st' !! key dst = Some (File data))
         ∧ (∀ written e, svc_fetch S (h_name b) blob = FetchFailed written e →
              fs st' !! key dst = fs st !! key dst)
         ∧ (fs st !! key dst = Some Dir → fs st' !! key dst = Some Dir)).
Proof.
  revert st. induction tasks as [|[[k d] ow] tasks IH]; intros st Hb.
  { exists st. split_and!; [done | done |].
    intros _ _ ??? Hin. by apply not_elem_of_nil in Hin. }
  destruct (gs_download_step st b k d ow Hb)
    as (st1 & Hrun1 & Hb1 & Hframe1 & Hdone1 & Hfail1 & Hdir1).
  destruct (IH st1 Hb1) as (st' & Hrun & Hframe & Hrest).
  exists st'. split_and!.
  - cbn [for_each]. run. by rewrite Hrun1.
  - intros p Hp Htmp. rewrite !fmap_cons in *.
    apply not_elem_of_cons in Hp as [Hp1 Hp].
    apply not_elem_of_cons in Htmp as [Htmp1 Htmp].
    rewrite Hframe by done. by apply Hframe1.
  - rewrite fmap_cons. intros [Hfresh Hnodup]%NoDup_cons Htemps k0 d0 ow0 Hin.
    assert (key d ∉ destination <$> tasks) as Hd by done.
    assert (key d ∉ temporary <$> tasks) as Hdt.
    { intros (t & Heq & Ht)%list_elem_of_fmap.
      apply (Htemps t (k, d, ow)); [by right | by left | done]. }
    assert (∀ t t', t ∈ tasks → t' ∈ tasks → temporary t ≠ destination t') as Htemps'.
    { intros t t' Ht Ht'. apply Htemps; by right. }
    apply elem_of_cons in Hin as [[= -> -> ->] | Hin].
    + split_and!.
      * intros data Hdue Hfetch Hnodir. rewrite Hframe by done. by apply Hdone1.
      * intros written e Hfetch. rewrite Hframe by done. by eapply Hfail1.
      * intros Hdir. rewrite Hframe by done. by apply Hdir1.
    + assert (key d0 ≠ key d) as Hne.
      { intros Heq. apply Hfresh. unfold destination at 1. cbn [fst snd].
        rewrite <- Heq. by apply (list_elem_of_fmap_2 destination _ (k0, d0, ow0)). }
      assert (key d0 ≠ key (d ++ ".000")) as Hnt.
      { intros Heq. apply (Htemps (k, d, ow) (k0, d0, ow0)); [by left | by right |].
        done. }
      destruct (Hrest Hnodup Htemps' k0 d0 ow0 Hin) as (Hdone & Hfail & Hdir).
      split_and!.
      * intros data Hdue Hfetch Hnodir. apply Hdone; [| done |].
        -- by rewrite Hframe1.
        -- by rewrite Hframe1.
      * intros written e Hfetch. rewrite (Hfail written e Hfetch).
        by apply Hframe1.
      * intros Hdir0. apply Hdir. by rewrite Hframe1.
Qed.

End gs_scheduler.

Lemma gs_scheduler_isolates_failures_witness :
  ∃ st',
    for_each (GoogleStorageDownload._download (P:=posix) sample_service)
      (("scenes/2020/", "/out/", true) :: five_tasks)
      resolved_client = (st', Ok tt)
    ∧ fs st' !! "/out" = Some Dir
    ∧ fs st' !! "/out/1" = Some (File "data of k1")
    ∧ fs st' !! "/out/2" = None
    ∧ fs st' !! "/out/3" = Some (File "data of k3").
Proof.
  set (tasks := ("scenes/2020/", "/out/", true) :: five_tasks).
  destruct (gs_scheduler_isolates_failures sample_service
              (λ user, if String.eqb user "" then Some "/home/user" else None)
              tasks resolved_client {| h_name := "bucket"; h_id := 0 |} eq_refl)
    as (st' & Hrun & _ & Hdone).
  assert (NoDup (destination (P:=posix) <$> tasks)) as Hnodup.
  { apply (bool_decide_unpack _). vm_compute. exact I. }
  assert (∀ t t', t ∈ tasks → t' ∈ tasks →
                  temporary (P:=posix) t ≠ destination (P:=posix) t') as Htemps.
  { intros t t' Ht%list_elem_of_In Ht'%list_elem_of_In.
    unfold tasks, five_tasks in Ht, Ht'. cbn [List.In] in Ht, Ht'.
    decompose [or] Ht; decompose [or] Ht'; subst; try contradiction;
      vm_compute; discriminate. }
  exists st'. split; [exact Hrun |].
  split_and!.
  - apply (proj2 (proj2 (Hdone Hnodup Htemps "scenes/2020/" "/out/" true
                           ltac:(apply list_elem_of_In; vm_compute; tauto)))).
    reflexivity.
  - apply (proj1 (Hdone Hnodup Htemps "k1" "/out/1" true
                    ltac:(apply list_elem_of_In; vm_compute; tauto)));
      [by left | reflexivity | discriminate].
  - apply (proj1 (proj2 (Hdone Hnodup Htemps "lost2" "/out/2" true
                           ltac:(apply list_elem_of_In; vm_compute; tauto)))
             (Some "par") NotFound).
    reflexivity.
  - apply (proj1 (Hdone Hnodup Htemps "k3" "/out/3" true
                    ltac:(apply list_elem_of_In; vm_compute; tauto)));
      [by left | reflexivity | discriminate].
Defined.

(** ** The prefix the callers pass *)

Section callers.
Import PyStr PyStrFacts.

Lemma join_cons (x y : string) (l : list string) :
  join "/" (x :: y :: l) = x ++ "/" ++ join "/" (y :: l).
Proof. reflexivity. Qed.

(** Joining what was split gives the string back. *)
Lemma join_split (s : string) : join "/" (split "/" s) = s.
Proof.
  induction s as [|c s IH]; [done |].
  cbn [split]. pose proof (MappingFacts.split_not_nil s) as Hne.
  destruct (split "/" s) as [|h t]; [done |].
  destruct (Ascii.eqb_spec c "/") as [-> | Hc].
  - by rewrite join_cons, IH.
  - destruct t as [|y t].
    + cbn [join String.concat] in *. by rewrite IH.
    + rewrite join_cons in *. by rewrite app_cons, IH.
Qed.

(** A string splits at a separator into what its two sides split into. *)
Lemma split_app (u v : string) :
  split "/" (u ++ "/" ++ v) = (split "/" u ++ split "/" v)%list.
Proof.
  induction u as [|c u IH].
  - rewrite app_nil_l. change ("/" ++ v) with (String "/" v). cbn [split].
    by rewrite Ascii.eqb_refl.
  - rewrite app_cons. cbn [split]. rewrite IH.
    destruct (Ascii.eqb c "/"); [done |].
    pose proof (MappingFacts.split_not_nil u) as Hne.
    by destruct (split "/" u).
Qed.

Lemma removelast_snoc {A} (l : list A) (x : A) : removelast (l ++ [x]) = l.
Proof. by rewrite removelast_app, app_nil_r. Qed.

(** X16. The two callers that pass [prefix_to_replace] compute the same
    prefix. For the locator [gs://bucket/dir/scene] of a scene, the bucket
    and the scene without ['/'] and the scheme marker nowhere behind the
    head, [L7DownloadContent] and [SentinelDownloadContent] both pass
    [dir], the path between the bucket and the scene; for a scene at the
    root of the bucket both pass the empty string. *)
Theorem callers_pass_the_folder_above_the_scene (b dir scene : string) :
  has_char "/" b = false → has_char "/" scene = false →
  (occurs "gs://" (b ++ "/" ++ dir ++ "/" ++ scene) = false →
   l7_prefix ("gs://" ++ b ++ "/" ++ dir ++ "/" ++ scene) = dir
   ∧ sentinel_prefix ("gs://" ++ b ++ "/" ++ dir ++ "/" ++ scene) = dir)
  ∧ (occurs "gs://" (b ++ "/" ++ scene) = false →
     l7_prefix ("gs://" ++ b ++ "/" ++ scene) = ""
     ∧ sentinel_prefix ("gs://" ++ b ++ "/" ++ scene) = "").
Proof.
  intros Hb Hscene.
  assert (∀ rest, split "/" ("gs://" ++ b ++ "/" ++ rest)
                  = ("gs:" :: "" :: b :: split "/" rest)%list) as Hl7.
  { intros rest. change ("gs://" ++ b ++ "/" ++ rest)
      with ("gs:" ++ "/" ++ "" ++ "/" ++ b ++ "/" ++ rest).
    rewrite !split_app. by rewrite (split_no_sep "/" b). }
  assert (∀ rest, occurs "gs://" (b ++ "/" ++ rest) = false →
                  split "/" (replace ("gs://" ++ b ++ "/" ++ rest) "gs://" "")
                  = (b :: split "/" rest)%list) as Hsentinel.
  { intros rest Ho. rewrite replace_head by done.
    rewrite app_nil_l, replace_no_occurrence by done.
    by rewrite split_app, (split_no_sep "/" b). }
  split; intros Ho; unfold l7_prefix, sentinel_prefix, slice_to_last.
  - rewrite Hl7, (Hsentinel _ Ho). cbn [list.drop]. rewrite !drop_0.
    rewrite split_app, (split_no_sep "/" scene) by done.
    by rewrite removelast_snoc, join_split.
  - rewrite Hl7, (Hsentinel _ Ho). cbn [list.drop]. rewrite !drop_0.
    by rewrite (split_no_sep "/" scene).
Qed.

End callers.

Lemma callers_pass_the_folder_above_the_scene_witness :
  l7_prefix "gs://gcp-public-data-landsat/LE07/01/044/034/LE07_L1TP_044034_20200101"
  = "LE07/01/044/034"
  ∧ sentinel_prefix
      "gs://gcp-public-data-landsat/LE07/01/044/034/LE07_L1TP_044034_20200101"
    = "LE07/01/044/034".
Proof.
  apply (proj1 (callers_pass_the_folder_above_the_scene "gcp-public-data-landsat"
                  "LE07/01/044/034" "LE07_L1TP_044034_20200101" eq_refl eq_refl)).
  reflexivity.
Defined.
